(** * imv: the image-source loading and playback scheduling core

    A shallow embedding of [src/imv.c]: the backend chain, the source
    callback, the event handlers, the stages of one iteration of [imv_run],
    [imv_free] and the commands that act on the playback and slideshow state.
    C integers are [Z] with their wrap-around written out; pointers to
    sources are addresses; calls into collaborators (SDL, the viewport, the
    image, the backends) are recorded in a chronological trace. *)

From Stdlib Require Import ZArith List String Ascii Bool Lia Arith.
From Stdlib Require Import Permutation.
Import ListNotations.
Open Scope string_scope.
Open Scope Z_scope.
Open Scope list_scope.

(** ** Machine integers (LP64, as on the platforms imv targets) *)

Module CInt.

Definition UINT_MODULUS : Z := 2 ^ 32.
Definition ULONG_MODULUS : Z := 2 ^ 64.
Definition LONG_MAX : Z := 2 ^ 63 - 1.
Definition LONG_MIN : Z := - 2 ^ 63.

(** Conversion to [unsigned int] and to [unsigned long]. *)
Definition to_uint (z : Z) : Z := z mod UINT_MODULUS.
Definition to_ulong (z : Z) : Z := z mod ULONG_MODULUS.

Definition in_uint (z : Z) : Prop := 0 <= z < UINT_MODULUS.
Definition in_ulong (z : Z) : Prop := 0 <= z < ULONG_MODULUS.
Definition in_long (z : Z) : Prop := LONG_MIN <= z <= LONG_MAX.

Definition in_longb (z : Z) : bool := (LONG_MIN <=? z) && (z <=? LONG_MAX).

(** Conversion of an [unsigned int] to [int], as gcc and clang define it
    for the values [int] cannot hold: modulo [2 ^ 32]. *)
Definition to_int (z : Z) : Z :=
  let u := to_uint z in
  if u <? 2 ^ 31 then u else u - UINT_MODULUS.

End CInt.

(** ** libc: [strtol(str, NULL, 10)] *)

Module Libc.

Definition isspace (c : ascii) : bool :=
  let n := nat_of_ascii c in
  (n =? 32)%nat || ((9 <=? n)%nat && (n <=? 13)%nat).

Definition digit_value (c : ascii) : option Z :=
  let n := Z.of_nat (nat_of_ascii c) in
  if (48 <=? n) && (n <=? 57) then Some (n - 48) else None.

Fixpoint skip_spaces (s : string) : string :=
  match s with
  | String c rest => if isspace c then skip_spaces rest else s
  | EmptyString => s
  end.

(** The value of the longest prefix of decimal digits, from [acc]. *)
Fixpoint digits (acc : Z) (s : string) : Z :=
  match s with
  | String c rest =>
      match digit_value c with
      | Some d => digits (10 * acc + d) rest
      | None => acc
      end
  | EmptyString => acc
  end.

Definition clamp_long (z : Z) : Z :=
  Z.max CInt.LONG_MIN (Z.min CInt.LONG_MAX z).

(** White space, an optional sign, decimal digits; no digits give 0 and
    a value out of range gives [LONG_MAX] or [LONG_MIN]. *)
Definition strtol (s : string) : Z :=
  match skip_spaces s with
  | String "-" rest => clamp_long (- digits 0 rest)
  | String "+" rest => clamp_long (digits 0 rest)
  | rest => clamp_long (digits 0 rest)
  end.

End Libc.

(** ** Collaborator data *)

(** A decoded frame ([struct imv_bitmap]); [bmp_id] stands for its address. *)
Record imv_bitmap := {
  bmp_id : nat;
  width : Z;
  height : Z
}.

(** A decode session ([struct imv_source]).  [src_addr] is the address of the
    struct, the only thing the orchestrator compares; [load_next_frame] says
    whether that function pointer is non-null. *)
Record imv_source := {
  src_addr : nat;
  load_next_frame : bool
}.

(** Comparison of two [struct imv_source *]; [None] is the null pointer. *)
Definition same_source (a b : option imv_source) : bool :=
  match a, b with
  | None, None => true
  | Some x, Some y => Nat.eqb (src_addr x) (src_addr y)
  | _, _ => false
  end.

(** Modelled from the spec: [backend.h] is not among the sources.  [imv.c]
    names [BACKEND_SUCCESS] and [BACKEND_UNSUPPORTED]; the third constructor
    stands for every other value of the enum, which [imv_run] treats as a
    failure that ends the search. *)
Inductive backend_result :=
| BACKEND_SUCCESS
| BACKEND_BAD_PATH
| BACKEND_UNSUPPORTED.

(** Modelled from the spec: the descriptor of [backend.h], with the two
    optional capability functions.  A capability answers with a result and
    the source it stored through its out-parameter. *)
Record imv_backend := {
  name : string;
  open_path : option (string -> backend_result * imv_source);
  open_memory : option (option (list Byte.byte) -> backend_result * imv_source)
}.

Inductive enum_scaling_mode :=
| SCALING_NONE
| SCALING_DOWN
| SCALING_FULL.

Definition SCALING_MODE_COUNT : Z := 3.

Inductive enum_resize_mode :=
| RESIZE_NONE
| RESIZE_ONLY
| RESIZE_CENTER.

(** ** The navigator *)

(** Modelled from the spec: [navigator.c] is not among the sources.  The
    navigator is an ordered sequence of paths without deduplication, a
    selection index, a one-shot changed flag and a wrapped flag. *)
Record imv_navigator := {
  paths : list string;
  cur_path : nat;
  changed : bool;
  wrapped : bool
}.

Module Nav.

Definition imv_navigator_create : imv_navigator :=
  {| paths := []; cur_path := 0; changed := false; wrapped := false |}.

Definition imv_navigator_length (nav : imv_navigator) : nat :=
  List.length (paths nav).

Definition imv_navigator_wrapped (nav : imv_navigator) : bool :=
  wrapped nav.

(** Modelled from the spec: the current path, or the empty sentinel. *)
Definition imv_navigator_selection (nav : imv_navigator) : string :=
  nth (cur_path nav) (paths nav) "".

(** Modelled from the spec: edge-triggered; one poll clears the flag, and
    the poll never fires on an empty list. *)
Definition imv_navigator_poll_changed (nav : imv_navigator)
  : bool * imv_navigator :=
  (changed nav && negb (Nat.eqb (List.length (paths nav)) 0),
   {| paths := paths nav; cur_path := cur_path nav;
      changed := false; wrapped := wrapped nav |}).

(** Index of the first entry equal to [path]. *)
Fixpoint find_path (path : string) (l : list string) : option nat :=
  match l with
  | [] => None
  | p :: rest =>
      if String.eqb path p then Some O
      else option_map S (find_path path rest)
  end.

Fixpoint remove_at (i : nat) (l : list string) : list string :=
  match l, i with
  | [], _ => []
  | _ :: rest, O => rest
  | p :: rest, S j => p :: remove_at j rest
  end.

(** Modelled from the spec: removes the first matching entry; if it was
    the selected one, the selection advances to the next remaining entry
    (the first one when the end is crossed, which sets the wrapped flag)
    and the changed flag is set.  An entry removed before the selection
    shifts the index so that the same entry stays selected. *)
Definition imv_navigator_remove (nav : imv_navigator) (path : string)
  : imv_navigator :=
  match find_path path (paths nav) with
  | None => nav
  | Some i =>
      let rest := remove_at i (paths nav) in
      if Nat.eqb i (cur_path nav) then
        let crossed := Nat.eqb (cur_path nav) (List.length rest) in
        {| paths := rest;
           cur_path := if crossed then O else cur_path nav;
           changed := true;
           wrapped := wrapped nav || crossed |}
      else
        {| paths := rest;
           cur_path := if Nat.ltb i (cur_path nav)
                       then Nat.pred (cur_path nav) else cur_path nav;
           changed := changed nav;
           wrapped := wrapped nav |}
  end.

(** Modelled from the spec: moves the cursor by [direction], wrapping
    modulo the length; the wrapped flag is set when the move crosses a
    boundary, the changed flag only when the selection index differs. *)
Definition imv_navigator_select_rel (nav : imv_navigator) (direction : Z)
  : imv_navigator :=
  let len := Z.of_nat (List.length (paths nav)) in
  if len =? 0 then nav
  else
    let target := Z.of_nat (cur_path nav) + direction in
    let index := Z.to_nat (target mod len) in
    {| paths := paths nav;
       cur_path := index;
       changed := changed nav || negb (Nat.eqb index (cur_path nav));
       wrapped := wrapped nav || (target <? 0) || (len <=? target) |}.

(** Modelled from the spec: appends [path], or, when [recursive] is set
    and [path] names a directory, the files of its traversal.  [dirs]
    lists the directories of the file system with their traversals.  The
    changed flag is set when the addition gives an empty navigator its
    first selection. *)
Definition imv_navigator_add (dirs : list (string * list string))
    (nav : imv_navigator) (path : string) (recursive : bool)
  : imv_navigator :=
  let added :=
    match List.find (fun d => String.eqb (fst d) path) dirs with
    | Some d => if recursive then snd d else [path]
    | None => [path]
    end in
  {| paths := paths nav ++ added;
     cur_path := cur_path nav;
     changed := changed nav
                || (Nat.eqb (List.length (paths nav)) 0
                    && negb (Nat.eqb (List.length added) 0));
     wrapped := wrapped nav |}.

End Nav.
Export Nav.

(** ** Events and observable calls *)

(** The user events imv registers with SDL ([imv->events]); the payload is
    the one [source_callback] and [load_paths_from_stdin] store in
    [event.user]. *)
Inductive SDL_Event :=
| NEW_IMAGE (data1 : imv_bitmap) (code : Z) (data2 : bool)
| BAD_IMAGE
| NEW_PATH (data1 : string)
| ENABLE_INPUT.

(** What a detached thread is created to run. *)
Inductive thread_func :=
| async_free_source_thread (src : imv_source)
| source_load_first_frame (src : imv_source)
| source_load_next_frame (src : imv_source).

(** Calls that leave the orchestrator, in the order they are made. *)
Inductive effect :=
| imv_bitmap_free (bitmap : imv_bitmap)
| SDL_CreateThread_detached (fn : thread_func)
| source_free (src : imv_source)
| backend_open_path (backend : string) (path : string)
| backend_open_memory (backend : string)
| imv_log (msg : string)
| SDL_SetWindowSize (w h : Z)
| SDL_WaitEventTimeout (timeout : Z)
| call (fn : string).

(** ** The application state *)

(** [struct imv], restricted to the fields the loading and scheduling core
    reads or writes.  [image] is the bitmap held by [imv->image],
    [view_playing] the playing flag of [imv->view].  The last three fields
    are the environment: the directories of the file system, SDL's event
    queue and the calls made so far. *)
Record imv := {
  quit : bool;
  loading : bool;
  need_redraw : bool;
  need_rescale : bool;
  need_resize : bool;
  resize_mode : enum_resize_mode;
  recursive_load : bool;
  loop_input : bool;
  paths_from_stdin : bool;
  scaling_mode : enum_scaling_mode;
  slideshow_image_duration : Z;
  slideshow_time_elapsed : Z;
  next_frame_due : Z;
  next_frame_duration : Z;
  next_frame : option imv_bitmap;
  ignore_window_events : bool;
  navigator : imv_navigator;
  backends : list imv_backend;
  source : option imv_source;
  last_source : option imv_source;
  image : option imv_bitmap;
  view_playing : bool;
  stdin_image_data : option (list Byte.byte);
  current_image_width : Z;
  current_image_height : Z;
  directories : list (string * list string);
  sdl_queue : list SDL_Event;
  trace : list effect
}.

Definition set_quit (v : bool) (s : imv) : imv :=
  Build_imv v (loading s) (need_redraw s) (need_rescale s) (need_resize s)
    (resize_mode s) (recursive_load s) (loop_input s) (paths_from_stdin s)
    (scaling_mode s) (slideshow_image_duration s) (slideshow_time_elapsed s)
    (next_frame_due s) (next_frame_duration s) (next_frame s)
    (ignore_window_events s) (navigator s) (backends s) (source s)
    (last_source s) (image s) (view_playing s) (stdin_image_data s)
    (current_image_width s) (current_image_height s) (directories s)
    (sdl_queue s) (trace s).

Definition set_loading (v : bool) (s : imv) : imv :=
  Build_imv (quit s) v (need_redraw s) (need_rescale s) (need_resize s)
    (resize_mode s) (recursive_load s) (loop_input s) (paths_from_stdin s)
    (scaling_mode s) (slideshow_image_duration s) (slideshow_time_elapsed s)
    (next_frame_due s) (next_frame_duration s) (next_frame s)
    (ignore_window_events s) (navigator s) (backends s) (source s)
    (last_source s) (image s) (view_playing s) (stdin_image_data s)
    (current_image_width s) (current_image_height s) (directories s)
    (sdl_queue s) (trace s).

Definition set_need_redraw (v : bool) (s : imv) : imv :=
  Build_imv (quit s) (loading s) v (need_rescale s) (need_resize s)
    (resize_mode s) (recursive_load s) (loop_input s) (paths_from_stdin s)
    (scaling_mode s) (slideshow_image_duration s) (slideshow_time_elapsed s)
    (next_frame_due s) (next_frame_duration s) (next_frame s)
    (ignore_window_events s) (navigator s) (backends s) (source s)
    (last_source s) (image s) (view_playing s) (stdin_image_data s)
    (current_image_width s) (current_image_height s) (directories s)
    (sdl_queue s) (trace s).

Definition set_need_rescale (v : bool) (s : imv) : imv :=
  Build_imv (quit s) (loading s) (need_redraw s) v (need_resize s)
    (resize_mode s) (recursive_load s) (loop_input s) (paths_from_stdin s)
    (scaling_mode s) (slideshow_image_duration s) (slideshow_time_elapsed s)
    (next_frame_due s) (next_frame_duration s) (next_frame s)
    (ignore_window_events s) (navigator s) (backends s) (source s)
    (last_source s) (image s) (view_playing s) (stdin_image_data s)
    (current_image_width s) (current_image_height s) (directories s)
    (sdl_queue s) (trace s).

Definition set_need_resize (v : bool) (s : imv) : imv :=
  Build_imv (quit s) (loading s) (need_redraw s) (need_rescale s) v
    (resize_mode s) (recursive_load s) (loop_input s) (paths_from_stdin s)
    (scaling_mode s) (slideshow_image_duration s) (slideshow_time_elapsed s)
    (next_frame_due s) (next_frame_duration s) (next_frame s)
    (ignore_window_events s) (navigator s) (backends s) (source s)
    (last_source s) (image s) (view_playing s) (stdin_image_data s)
    (current_image_width s) (current_image_height s) (directories s)
    (sdl_queue s) (trace s).

Definition set_resize_mode (v : enum_resize_mode) (s : imv) : imv :=
  Build_imv (quit s) (loading s) (need_redraw s) (need_rescale s)
    (need_resize s) v (recursive_load s) (loop_input s) (paths_from_stdin s)
    (scaling_mode s) (slideshow_image_duration s) (slideshow_time_elapsed s)
    (next_frame_due s) (next_frame_duration s) (next_frame s)
    (ignore_window_events s) (navigator s) (backends s) (source s)
    (last_source s) (image s) (view_playing s) (stdin_image_data s)
    (current_image_width s) (current_image_height s) (directories s)
    (sdl_queue s) (trace s).

Definition set_recursive_load (v : bool) (s : imv) : imv :=
  Build_imv (quit s) (loading s) (need_redraw s) (need_rescale s)
    (need_resize s) (resize_mode s) v (loop_input s) (paths_from_stdin s)
    (scaling_mode s) (slideshow_image_duration s) (slideshow_time_elapsed s)
    (next_frame_due s) (next_frame_duration s) (next_frame s)
    (ignore_window_events s) (navigator s) (backends s) (source s)
    (last_source s) (image s) (view_playing s) (stdin_image_data s)
    (current_image_width s) (current_image_height s) (directories s)
    (sdl_queue s) (trace s).

Definition set_loop_input (v : bool) (s : imv) : imv :=
  Build_imv (quit s) (loading s) (need_redraw s) (need_rescale s)
    (need_resize s) (resize_mode s) (recursive_load s) v (paths_from_stdin s)
    (scaling_mode s) (slideshow_image_duration s) (slideshow_time_elapsed s)
    (next_frame_due s) (next_frame_duration s) (next_frame s)
    (ignore_window_events s) (navigator s) (backends s) (source s)
    (last_source s) (image s) (view_playing s) (stdin_image_data s)
    (current_image_width s) (current_image_height s) (directories s)
    (sdl_queue s) (trace s).

Definition set_paths_from_stdin (v : bool) (s : imv) : imv :=
  Build_imv (quit s) (loading s) (need_redraw s) (need_rescale s)
    (need_resize s) (resize_mode s) (recursive_load s) (loop_input s) v
    (scaling_mode s) (slideshow_image_duration s) (slideshow_time_elapsed s)
    (next_frame_due s) (next_frame_duration s) (next_frame s)
    (ignore_window_events s) (navigator s) (backends s) (source s)
    (last_source s) (image s) (view_playing s) (stdin_image_data s)
    (current_image_width s) (current_image_height s) (directories s)
    (sdl_queue s) (trace s).

Definition set_scaling_mode (v : enum_scaling_mode) (s : imv) : imv :=
  Build_imv (quit s) (loading s) (need_redraw s) (need_rescale s)
    (need_resize s) (resize_mode s) (recursive_load s) (loop_input s)
    (paths_from_stdin s) v (slideshow_image_duration s)
    (slideshow_time_elapsed s) (next_frame_due s) (next_frame_duration s)
    (next_frame s) (ignore_window_events s) (navigator s) (backends s)
    (source s) (last_source s) (image s) (view_playing s) (stdin_image_data s)
    (current_image_width s) (current_image_height s) (directories s)
    (sdl_queue s) (trace s).

Definition set_slideshow_image_duration (v : Z) (s : imv) : imv :=
  Build_imv (quit s) (loading s) (need_redraw s) (need_rescale s)
    (need_resize s) (resize_mode s) (recursive_load s) (loop_input s)
    (paths_from_stdin s) (scaling_mode s) v (slideshow_time_elapsed s)
    (next_frame_due s) (next_frame_duration s) (next_frame s)
    (ignore_window_events s) (navigator s) (backends s) (source s)
    (last_source s) (image s) (view_playing s) (stdin_image_data s)
    (current_image_width s) (current_image_height s) (directories s)
    (sdl_queue s) (trace s).

Definition set_slideshow_time_elapsed (v : Z) (s : imv) : imv :=
  Build_imv (quit s) (loading s) (need_redraw s) (need_rescale s)
    (need_resize s) (resize_mode s) (recursive_load s) (loop_input s)
    (paths_from_stdin s) (scaling_mode s) (slideshow_image_duration s) v
    (next_frame_due s) (next_frame_duration s) (next_frame s)
    (ignore_window_events s) (navigator s) (backends s) (source s)
    (last_source s) (image s) (view_playing s) (stdin_image_data s)
    (current_image_width s) (current_image_height s) (directories s)
    (sdl_queue s) (trace s).

Definition set_next_frame_due (v : Z) (s : imv) : imv :=
  Build_imv (quit s) (loading s) (need_redraw s) (need_rescale s)
    (need_resize s) (resize_mode s) (recursive_load s) (loop_input s)
    (paths_from_stdin s) (scaling_mode s) (slideshow_image_duration s)
    (slideshow_time_elapsed s) v (next_frame_duration s) (next_frame s)
    (ignore_window_events s) (navigator s) (backends s) (source s)
    (last_source s) (image s) (view_playing s) (stdin_image_data s)
    (current_image_width s) (current_image_height s) (directories s)
    (sdl_queue s) (trace s).

Definition set_next_frame_duration (v : Z) (s : imv) : imv :=
  Build_imv (quit s) (loading s) (need_redraw s) (need_rescale s)
    (need_resize s) (resize_mode s) (recursive_load s) (loop_input s)
    (paths_from_stdin s) (scaling_mode s) (slideshow_image_duration s)
    (slideshow_time_elapsed s) (next_frame_due s) v (next_frame s)
    (ignore_window_events s) (navigator s) (backends s) (source s)
    (last_source s) (image s) (view_playing s) (stdin_image_data s)
    (current_image_width s) (current_image_height s) (directories s)
    (sdl_queue s) (trace s).

Definition set_next_frame (v : option imv_bitmap) (s : imv) : imv :=
  Build_imv (quit s) (loading s) (need_redraw s) (need_rescale s)
    (need_resize s) (resize_mode s) (recursive_load s) (loop_input s)
    (paths_from_stdin s) (scaling_mode s) (slideshow_image_duration s)
    (slideshow_time_elapsed s) (next_frame_due s) (next_frame_duration s) v
    (ignore_window_events s) (navigator s) (backends s) (source s)
    (last_source s) (image s) (view_playing s) (stdin_image_data s)
    (current_image_width s) (current_image_height s) (directories s)
    (sdl_queue s) (trace s).

Definition set_ignore_window_events (v : bool) (s : imv) : imv :=
  Build_imv (quit s) (loading s) (need_redraw s) (need_rescale s)
    (need_resize s) (resize_mode s) (recursive_load s) (loop_input s)
    (paths_from_stdin s) (scaling_mode s) (slideshow_image_duration s)
    (slideshow_time_elapsed s) (next_frame_due s) (next_frame_duration s)
    (next_frame s) v (navigator s) (backends s) (source s) (last_source s)
    (image s) (view_playing s) (stdin_image_data s) (current_image_width s)
    (current_image_height s) (directories s) (sdl_queue s) (trace s).

Definition set_navigator (v : imv_navigator) (s : imv) : imv :=
  Build_imv (quit s) (loading s) (need_redraw s) (need_rescale s)
    (need_resize s) (resize_mode s) (recursive_load s) (loop_input s)
    (paths_from_stdin s) (scaling_mode s) (slideshow_image_duration s)
    (slideshow_time_elapsed s) (next_frame_due s) (next_frame_duration s)
    (next_frame s) (ignore_window_events s) v (backends s) (source s)
    (last_source s) (image s) (view_playing s) (stdin_image_data s)
    (current_image_width s) (current_image_height s) (directories s)
    (sdl_queue s) (trace s).

Definition set_backends (v : list imv_backend) (s : imv) : imv :=
  Build_imv (quit s) (loading s) (need_redraw s) (need_rescale s)
    (need_resize s) (resize_mode s) (recursive_load s) (loop_input s)
    (paths_from_stdin s) (scaling_mode s) (slideshow_image_duration s)
    (slideshow_time_elapsed s) (next_frame_due s) (next_frame_duration s)
    (next_frame s) (ignore_window_events s) (navigator s) v (source s)
    (last_source s) (image s) (view_playing s) (stdin_image_data s)
    (current_image_width s) (current_image_height s) (directories s)
    (sdl_queue s) (trace s).

Definition set_source (v : option imv_source) (s : imv) : imv :=
  Build_imv (quit s) (loading s) (need_redraw s) (need_rescale s)
    (need_resize s) (resize_mode s) (recursive_load s) (loop_input s)
    (paths_from_stdin s) (scaling_mode s) (slideshow_image_duration s)
    (slideshow_time_elapsed s) (next_frame_due s) (next_frame_duration s)
    (next_frame s) (ignore_window_events s) (navigator s) (backends s) v
    (last_source s) (image s) (view_playing s) (stdin_image_data s)
    (current_image_width s) (current_image_height s) (directories s)
    (sdl_queue s) (trace s).

Definition set_last_source (v : option imv_source) (s : imv) : imv :=
  Build_imv (quit s) (loading s) (need_redraw s) (need_rescale s)
    (need_resize s) (resize_mode s) (recursive_load s) (loop_input s)
    (paths_from_stdin s) (scaling_mode s) (slideshow_image_duration s)
    (slideshow_time_elapsed s) (next_frame_due s) (next_frame_duration s)
    (next_frame s) (ignore_window_events s) (navigator s) (backends s)
    (source s) v (image s) (view_playing s) (stdin_image_data s)
    (current_image_width s) (current_image_height s) (directories s)
    (sdl_queue s) (trace s).

Definition set_image (v : option imv_bitmap) (s : imv) : imv :=
  Build_imv (quit s) (loading s) (need_redraw s) (need_rescale s)
    (need_resize s) (resize_mode s) (recursive_load s) (loop_input s)
    (paths_from_stdin s) (scaling_mode s) (slideshow_image_duration s)
    (slideshow_time_elapsed s) (next_frame_due s) (next_frame_duration s)
    (next_frame s) (ignore_window_events s) (navigator s) (backends s)
    (source s) (last_source s) v (view_playing s) (stdin_image_data s)
    (current_image_width s) (current_image_height s) (directories s)
    (sdl_queue s) (trace s).

Definition set_view_playing (v : bool) (s : imv) : imv :=
  Build_imv (quit s) (loading s) (need_redraw s) (need_rescale s)
    (need_resize s) (resize_mode s) (recursive_load s) (loop_input s)
    (paths_from_stdin s) (scaling_mode s) (slideshow_image_duration s)
    (slideshow_time_elapsed s) (next_frame_due s) (next_frame_duration s)
    (next_frame s) (ignore_window_events s) (navigator s) (backends s)
    (source s) (last_source s) (image s) v (stdin_image_data s)
    (current_image_width s) (current_image_height s) (directories s)
    (sdl_queue s) (trace s).

Definition set_stdin_image_data (v : option (list Byte.byte)) (s : imv) : imv :=
  Build_imv (quit s) (loading s) (need_redraw s) (need_rescale s)
    (need_resize s) (resize_mode s) (recursive_load s) (loop_input s)
    (paths_from_stdin s) (scaling_mode s) (slideshow_image_duration s)
    (slideshow_time_elapsed s) (next_frame_due s) (next_frame_duration s)
    (next_frame s) (ignore_window_events s) (navigator s) (backends s)
    (source s) (last_source s) (image s) (view_playing s) v
    (current_image_width s) (current_image_height s) (directories s)
    (sdl_queue s) (trace s).

Definition set_current_image_width (v : Z) (s : imv) : imv :=
  Build_imv (quit s) (loading s) (need_redraw s) (need_rescale s)
    (need_resize s) (resize_mode s) (recursive_load s) (loop_input s)
    (paths_from_stdin s) (scaling_mode s) (slideshow_image_duration s)
    (slideshow_time_elapsed s) (next_frame_due s) (next_frame_duration s)
    (next_frame s) (ignore_window_events s) (navigator s) (backends s)
    (source s) (last_source s) (image s) (view_playing s) (stdin_image_data s)
    v (current_image_height s) (directories s) (sdl_queue s) (trace s).

Definition set_current_image_height (v : Z) (s : imv) : imv :=
  Build_imv (quit s) (loading s) (need_redraw s) (need_rescale s)
    (need_resize s) (resize_mode s) (recursive_load s) (loop_input s)
    (paths_from_stdin s) (scaling_mode s) (slideshow_image_duration s)
    (slideshow_time_elapsed s) (next_frame_due s) (next_frame_duration s)
    (next_frame s) (ignore_window_events s) (navigator s) (backends s)
    (source s) (last_source s) (image s) (view_playing s) (stdin_image_data s)
    (current_image_width s) v (directories s) (sdl_queue s) (trace s).

Definition set_directories (v : list (string * list string)) (s : imv) : imv :=
  Build_imv (quit s) (loading s) (need_redraw s) (need_rescale s)
    (need_resize s) (resize_mode s) (recursive_load s) (loop_input s)
    (paths_from_stdin s) (scaling_mode s) (slideshow_image_duration s)
    (slideshow_time_elapsed s) (next_frame_due s) (next_frame_duration s)
    (next_frame s) (ignore_window_events s) (navigator s) (backends s)
    (source s) (last_source s) (image s) (view_playing s) (stdin_image_data s)
    (current_image_width s) (current_image_height s) v (sdl_queue s) (trace s).

Definition set_sdl_queue (v : list SDL_Event) (s : imv) : imv :=
  Build_imv (quit s) (loading s) (need_redraw s) (need_rescale s)
    (need_resize s) (resize_mode s) (recursive_load s) (loop_input s)
    (paths_from_stdin s) (scaling_mode s) (slideshow_image_duration s)
    (slideshow_time_elapsed s) (next_frame_due s) (next_frame_duration s)
    (next_frame s) (ignore_window_events s) (navigator s) (backends s)
    (source s) (last_source s) (image s) (view_playing s) (stdin_image_data s)
    (current_image_width s) (current_image_height s) (directories s) v
    (trace s).

Definition set_trace (v : list effect) (s : imv) : imv :=
  Build_imv (quit s) (loading s) (need_redraw s) (need_rescale s)
    (need_resize s) (resize_mode s) (recursive_load s) (loop_input s)
    (paths_from_stdin s) (scaling_mode s) (slideshow_image_duration s)
    (slideshow_time_elapsed s) (next_frame_due s) (next_frame_duration s)
    (next_frame s) (ignore_window_events s) (navigator s) (backends s)
    (source s) (last_source s) (image s) (view_playing s) (stdin_image_data s)
    (current_image_width s) (current_image_height s) (directories s)
    (sdl_queue s) v.

Definition emit (e : effect) (s : imv) : imv :=
  set_trace (trace s ++ [e]) s.

Definition emit_all (es : list effect) (s : imv) : imv :=
  set_trace (trace s ++ es) s.

Definition SDL_PushEvent (e : SDL_Event) (s : imv) : imv :=
  set_sdl_queue (sdl_queue s ++ [e]) s.

(** [imv_create]: a zeroed struct with the documented defaults. *)
Definition imv_create : imv :=
  {| quit := false;
     loading := false;
     need_redraw := true;
     need_rescale := true;
     need_resize := false;
     resize_mode := RESIZE_NONE;
     recursive_load := false;
     loop_input := true;
     paths_from_stdin := false;
     scaling_mode := SCALING_FULL;
     slideshow_image_duration := 0;
     slideshow_time_elapsed := 0;
     next_frame_due := 0;
     next_frame_duration := 0;
     next_frame := None;
     ignore_window_events := false;
     navigator := imv_navigator_create;
     backends := [];
     source := None;
     last_source := None;
     image := None;
     view_playing := false;
     stdin_image_data := None;
     current_image_width := 0;
     current_image_height := 0;
     directories := [];
     sdl_queue := [];
     trace := [] |}.

(** ** Background dispatch *)

(** [SDL_CreateThread] followed by [SDL_DetachThread]: the caller neither
    runs the function itself nor joins the thread. *)
Definition async_free_source (src : imv_source) (s : imv) : imv :=
  emit (SDL_CreateThread_detached (async_free_source_thread src)) s.

Definition async_load_first_frame (src : imv_source) (s : imv) : imv :=
  emit (SDL_CreateThread_detached (source_load_first_frame src)) s.

Definition async_load_next_frame (src : imv_source) (s : imv) : imv :=
  emit (SDL_CreateThread_detached (source_load_next_frame src)) s.

(** ** The source callback *)

(** [struct imv_source_message]; [user_data] is the [imv] the callback is
    applied to. *)
Record imv_source_message := {
  msg_source : imv_source;
  msg_bitmap : option imv_bitmap;
  msg_frametime : Z
}.

Definition source_callback (msg : imv_source_message) (s : imv) : imv :=
  if negb (same_source (Some (msg_source msg)) (source s)) then
    (* a message from an old source: tidy up, but ignore it *)
    match msg_bitmap msg with
    | Some bitmap => emit (imv_bitmap_free bitmap) s
    | None => s
    end
  else
    match msg_bitmap msg with
    | Some bitmap =>
        let is_new_image :=
          negb (same_source (Some (msg_source msg)) (last_source s)) in
        SDL_PushEvent (NEW_IMAGE bitmap (msg_frametime msg) is_new_image)
          (set_last_source (Some (msg_source msg)) s)
    | None => SDL_PushEvent BAD_IMAGE s
    end.

(** The playback state of the spec's data model, as held in [struct imv]. *)
Record PlaybackState := {
  displayed : option imv_bitmap;
  displayed_width : Z;
  displayed_height : Z;
  prefetched : option imv_bitmap;
  prefetched_due : Z;
  prefetched_duration : Z;
  playing : bool
}.

Definition playback_state (s : imv) : PlaybackState :=
  {| displayed := image s;
     displayed_width := current_image_width s;
     displayed_height := current_image_height s;
     prefetched := next_frame s;
     prefetched_due := next_frame_due s;
     prefetched_duration := next_frame_duration s;
     playing := view_playing s |}.

(** ** The backend chain *)

(** [imv_install_backend] links the new descriptor in front of the chain. *)
Definition imv_install_backend (backend : imv_backend) (s : imv) : imv :=
  set_backends (backend :: backends s) s.

(** One turn of the [for] loop over the chain in [imv_run]: [None] when the
    backend lacks the capability for this kind of input, else the call that
    is made and its answer. *)
Definition backend_open (current_path : string)
    (data : option (list Byte.byte)) (backend : imv_backend)
  : option (effect * (backend_result * imv_source)) :=
  if String.eqb "-" current_path then
    match open_memory backend with
    | None => None
    | Some f => Some (backend_open_memory (name backend), f data)
    end
  else
    match open_path backend with
    | None => None
    | Some f => Some (backend_open_path (name backend) current_path,
                      f current_path)
    end.

(** The [for] loop: the calls made, the final [result] and [new_source]. *)
Fixpoint open_chain (current_path : string) (data : option (list Byte.byte))
    (chain : list imv_backend)
  : list effect * (backend_result * option imv_source) :=
  match chain with
  | [] => ([], (BACKEND_UNSUPPORTED, None))
  | backend :: next =>
      match backend_open current_path data backend with
      | None => open_chain current_path data next
      | Some (probe, (BACKEND_UNSUPPORTED, _)) =>
          let (probes, answer) := open_chain current_path data next in
          (probe :: probes, answer)
      | Some (probe, (result, new_source)) =>
          ([probe], (result, Some new_source))
      end
  end.

(** ** Event handlers *)

Definition handle_new_image (ticks : Z) (bitmap : imv_bitmap) (frametime : Z)
    (s : imv) : imv :=
  let s := set_image (Some bitmap) s in
  let s := set_current_image_width (width bitmap) s in
  let s := set_current_image_height (height bitmap) s in
  let s := emit (imv_bitmap_free bitmap) s in
  let s := set_need_redraw true s in
  let s := set_need_rescale true s in
  let s := match resize_mode s with
           | RESIZE_NONE => s
           | _ => set_need_resize true s
           end in
  let s := if need_resize s then
             let s := set_need_resize false s in
             let s := emit (SDL_SetWindowSize (current_image_width s)
                                              (current_image_height s)) s in
             match resize_mode s with
             | RESIZE_CENTER => emit (call "SDL_SetWindowPosition") s
             | _ => s
             end
           else s in
  let s := set_loading false s in
  let s := set_next_frame_due
             (if frametime =? 0 then 0 else CInt.to_uint (ticks + frametime))
             s in
  let s := set_next_frame_duration 0 s in
  match source s with
  | Some src =>
      if load_next_frame src && negb (frametime =? 0)
      then async_load_next_frame src s
      else s
  | None => s
  end.

Definition handle_new_frame (bitmap : imv_bitmap) (frametime : Z) (s : imv)
  : imv :=
  let s := match next_frame s with
           | Some old => emit (imv_bitmap_free old) s
           | None => s
           end in
  set_next_frame_duration frametime (set_next_frame (Some bitmap) s).

Definition imv_add_path (path : string) (s : imv) : imv :=
  set_navigator
    (imv_navigator_add (directories s) (navigator s) path (recursive_load s))
    s.

(** [handle_event] on the four user events; each of them returns before
    the [switch] over SDL's own input events.  [ticks] is what
    [SDL_GetTicks] answers while the event is handled. *)
Definition handle_event (ticks : Z) (event : SDL_Event) (s : imv) : imv :=
  match event with
  | NEW_IMAGE data1 code data2 =>
      if data2 then handle_new_image ticks data1 code s
      else handle_new_frame data1 code s
  | BAD_IMAGE =>
      (* an image failed to load, remove it from our image list *)
      let err_path := imv_navigator_selection (navigator s) in
      let s :=
        if String.eqb err_path "-" then
          let s := match stdin_image_data s with
                   | Some _ => emit (call "free(stdin_image_data)")
                                 (set_stdin_image_data None s)
                   | None => s
                   end in
          emit (imv_log "Failed to load image from stdin.") s
        else s in
      set_navigator (imv_navigator_remove (navigator s) err_path) s
  | NEW_PATH data1 =>
      set_need_redraw true (imv_add_path data1 s)
  | ENABLE_INPUT =>
      set_ignore_window_events false s
  end.

(** ** Commands *)

(** A command receives its words; [args->items[0]] is its own name. *)

Definition command_quit (args : list string) (s : imv) : imv :=
  set_quit true s.

Definition command_select_rel (args : list string) (s : imv) : imv :=
  match args with
  | [_; arg] =>
      let index := Libc.strtol arg in
      set_slideshow_time_elapsed 0
        (set_navigator (imv_navigator_select_rel (navigator s) index) s)
  | _ => s
  end.

Definition command_close (args : list string) (s : imv) : imv :=
  let path := imv_navigator_selection (navigator s) in
  set_slideshow_time_elapsed 0
    (set_navigator (imv_navigator_remove (navigator s) path) s).

Definition command_reset (args : list string) (s : imv) : imv :=
  set_need_redraw true (set_need_rescale true s).

Definition command_next_frame (args : list string) (s : imv) : imv :=
  match source s with
  | Some src =>
      if load_next_frame src then
        (* Earliest possible non-zero timestamp *)
        set_next_frame_due 1 (async_load_next_frame src s)
      else s
  | None => s
  end.

Definition command_toggle_playing (args : list string) (s : imv) : imv :=
  set_view_playing (negb (view_playing s)) s.

Definition scaling_mode_value (m : enum_scaling_mode) : Z :=
  match m with
  | SCALING_NONE => 0
  | SCALING_DOWN => 1
  | SCALING_FULL => 2
  end.

Definition scaling_mode_of_value (z : Z) : enum_scaling_mode :=
  if z =? 0 then SCALING_NONE
  else if z =? 1 then SCALING_DOWN
  else SCALING_FULL.

Definition command_set_scaling_mode (args : list string) (s : imv) : imv :=
  match args with
  | [_; mode] =>
      let chosen :=
        if String.eqb mode "next" then
          Some (scaling_mode_of_value
                  ((scaling_mode_value (scaling_mode s) + 1)
                   mod SCALING_MODE_COUNT))
        else if String.eqb mode "none" then Some SCALING_NONE
        else if String.eqb mode "shrink" then Some SCALING_DOWN
        else if String.eqb mode "full" then Some SCALING_FULL
        else None in
      match chosen with
      | Some m => set_need_redraw true (set_need_rescale true
                    (set_scaling_mode m s))
      | None => s (* no changes, don't bother to redraw *)
      end
  | _ => s
  end.

(** [1000 * strtol(...)] is a [long] product: when it does not fit, the
    behaviour of the C program is undefined and the model answers [None]. *)
Definition command_set_slideshow_duration (args : list string) (s : imv)
  : option imv :=
  match args with
  | [_; arg] =>
      let delta := 1000 * Libc.strtol arg in
      if CInt.in_longb delta then
        let duration := slideshow_image_duration s in
        let duration :=
          (* Ensure we can't go below 0 *)
          if (delta <? 0) && (duration <? CInt.to_ulong (Z.abs delta))
          then 0
          else CInt.to_ulong (duration + delta) in
        Some (set_need_redraw true (set_slideshow_image_duration duration s))
      else None
  | _ => Some s
  end.

(** ** One iteration of [imv_run] *)

(** The success branch of the selection loop: the old source, if any, goes
    to a detached thread to be freed, the new one is installed and its
    first frame requested. *)
Definition install_source (new_source : imv_source) (s : imv) : imv :=
  let s := match source s with
           | Some old => async_free_source old s
           | None => s
           end in
  let s := set_source (Some new_source) s in
  let s := async_load_first_frame new_source s in
  let s := set_loading true s in
  let s := set_view_playing true s in
  emit (call "imv_viewport_set_title") s.

(** The body of the selection loop, once the poll has fired. *)
Definition load_selection (s : imv) : imv :=
  let current_path := imv_navigator_selection (navigator s) in
  (* check we got a path back *)
  if String.eqb "" current_path then s
  else
    let s := match backends s with
             | [] => emit (imv_log "No backends installed. Unable to load image.") s
             | _ => s
             end in
    let (probes, answer) :=
      open_chain current_path (stdin_image_data s) (backends s) in
    let s := emit_all probes s in
    match answer with
    | (BACKEND_SUCCESS, Some new_source) => install_source new_source s
    | _ =>
        (* Error loading path so remove it from the navigator *)
        set_navigator (imv_navigator_remove (navigator s) current_path) s
    end.

(** [while (imv_navigator_poll_changed(imv->navigator)) { ... }], with a
    bound on the number of polls; [None] when the bound is reached before
    the poll answers false. *)
Fixpoint selection_loop (fuel : nat) (s : imv) : option imv :=
  match fuel with
  | O => None
  | S fuel' =>
      let (fired, nav) := imv_navigator_poll_changed (navigator s) in
      let s := set_navigator nav s in
      if fired then selection_loop fuel' (load_selection s) else Some s
  end.

(** A number of polls that always suffices: two per entry and two more. *)
Definition selection_fuel (s : imv) : nat :=
  (2 * imv_navigator_length (navigator s) + 2)%nat.

(** [while (!imv->quit && SDL_PollEvent(&e)) handle_event(imv, &e);] *)
Fixpoint poll_events (ticks : Z) (queue : list SDL_Event) (s : imv) : imv :=
  match queue with
  | [] => s
  | e :: rest =>
      if quit s then s
      else poll_events ticks rest (handle_event ticks e (set_sdl_queue rest s))
  end.

Definition drain_events (ticks : Z) (s : imv) : imv :=
  poll_events ticks (sdl_queue s) s.

Definition rescale (ww wh : Z) (s : imv) : imv :=
  if need_rescale s then
    let s := set_need_rescale false s in
    match scaling_mode s with
    | SCALING_NONE => emit (call "imv_viewport_scale_to_actual") s
    | SCALING_DOWN =>
        if (current_image_width s <? ww) && (current_image_height s <? wh)
        then emit (call "imv_viewport_scale_to_actual") s
        else emit (call "imv_viewport_scale_to_window") s
    | SCALING_FULL => emit (call "imv_viewport_scale_to_window") s
    end
  else s.

(** "Check if a new frame is due": the prefetched frame becomes the
    displayed one. *)
Definition promote_next_frame (current_time : Z) (s : imv) : imv :=
  match next_frame s with
  | Some frame =>
      if view_playing s && negb (next_frame_due s =? 0)
         && (next_frame_due s <=? current_time)
      then
        let s := set_image (Some frame) s in
        let s := set_current_image_width (width frame) s in
        let s := set_current_image_height (height frame) s in
        let s := emit (imv_bitmap_free frame) s in
        let s := set_next_frame None s in
        let s := set_next_frame_due
                   (CInt.to_uint (current_time + next_frame_duration s)) s in
        let s := set_next_frame_duration 0 s in
        let s := set_need_redraw true s in
        (* Trigger loading of a new frame, now this one's being displayed *)
        match source s with
        | Some src =>
            if load_next_frame src then async_load_next_frame src s else s
        | None => s
        end
      else s
  | None => s
  end.

Definition slideshow (current_time last_time : Z) (s : imv) : imv :=
  if negb (slideshow_image_duration s =? 0) then
    let dt := CInt.to_uint (current_time - last_time) in
    let s := set_slideshow_time_elapsed
               (CInt.to_ulong (slideshow_time_elapsed s + dt)) s in
    let s := set_need_redraw true s in
    if slideshow_image_duration s <=? slideshow_time_elapsed s then
      set_slideshow_time_elapsed 0
        (set_navigator (imv_navigator_select_rel (navigator s) 1) s)
    else s
  else s.

Definition redraw (view_needs_redraw : bool) (s : imv) : imv :=
  let s := if view_needs_redraw then set_need_redraw true s else s in
  if need_redraw s then
    (* render_window unsets the flag when the redraw is complete *)
    let s := set_need_redraw false (emit (call "render_window") s) in
    emit (call "SDL_RenderPresent") s
  else s.

(** "sleep until we have something to do": the value of the variable
    [unsigned int timeout]. *)
Definition wait_timeout (current_time : Z) (s : imv) : Z :=
  if view_playing s && (current_time <? next_frame_due s)
  then CInt.to_uint (next_frame_due s - current_time)
  else 1000.

(** What one iteration reads from its surroundings: the tick counts during
    event handling and at the time check, the tick count of the previous
    iteration, the window size and the viewport's redraw request. *)
Record frame_input := {
  event_ticks : Z;
  current_time : Z;
  last_time : Z;
  window_width : Z;
  window_height : Z;
  view_needs_redraw : bool
}.

(** How the body of [while (!imv->quit)] is left. *)
Inductive loop_control :=
| Break
| Next.

Definition imv_run_iteration (fuel : nat) (env : frame_input) (s : imv)
  : option (loop_control * imv) :=
  let s := drain_events (event_ticks env) s in
  (* if we're quitting, don't bother drawing any more images *)
  if quit s then Some (Break, s)
  (* Check if navigator wrapped around paths lists *)
  else if negb (loop_input s) && imv_navigator_wrapped (navigator s)
  then Some (Break, s)
  (* if we're out of images, and we're not expecting more from stdin, quit *)
  else if negb (paths_from_stdin s)
          && Nat.eqb (imv_navigator_length (navigator s)) 0
  then Some (Next, set_quit true
                     (emit (imv_log "No input files left. Exiting.") s))
  else
    match selection_loop fuel s with
    | None => None
    | Some s =>
        let s := rescale (window_width env) (window_height env) s in
        let s := promote_next_frame (current_time env) s in
        let s := slideshow (current_time env) (last_time env) s in
        let s := redraw (view_needs_redraw env) s in
        let timeout := wait_timeout (current_time env) s in
        (* int SDL_WaitEventTimeout(SDL_Event *event, int timeout) *)
        Some (Next, emit (SDL_WaitEventTimeout (CInt.to_int timeout)) s)
    end.

(** Whether [while (!imv->quit)] runs no further iteration. *)
Definition leaves_loop (r : loop_control * imv) : bool :=
  match r with
  | (Break, _) => true
  | (Next, s) => quit s
  end.

(** ** Shutdown *)

(** [imv_free], as far as the modelled fields go: the calls it adds to the
    trace.  The source is freed by a direct call of its [free]. *)
Definition imv_free (s : imv) : list effect :=
  trace s
  ++ [call "imv_binds_free"; call "imv_navigator_free"]
  ++ match source s with
     | Some src => [source_free src]
     | None => []
     end
  ++ [call "imv_commands_free"; call "imv_viewport_free"]
  ++ match next_frame s with
     | Some frame => [imv_bitmap_free frame]
     | None => []
     end
  ++ match stdin_image_data s with
     | Some _ => [call "free(stdin_image_data)"]
     | None => []
     end.

(** * Definitions used by the statements *)

(** What a message carries that has to be released when it is dropped. *)
Definition payload_release (msg : imv_source_message) : list effect :=
  match msg_bitmap msg with
  | Some bitmap => [imv_bitmap_free bitmap]
  | None => []
  end.

Definition stale_example_state : imv :=
  set_source (Some {| src_addr := 2; load_next_frame := false |}) imv_create.

Definition stale_example_message : imv_source_message :=
  {| msg_source := {| src_addr := 1; load_next_frame := false |};
     msg_bitmap := Some {| bmp_id := 7; width := 640; height := 480 |};
     msg_frametime := 0 |}.

Definition install_all (regs : list imv_backend) (s : imv) : imv :=
  fold_left (fun acc backend => imv_install_backend backend acc) regs s.

(** A backend that is passed over for this input: it lacks the capability,
    or it answers [BACKEND_UNSUPPORTED]. *)
Definition passes_over (current_path : string) (data : option (list Byte.byte))
    (backend : imv_backend) : Prop :=
  match backend_open current_path data backend with
  | None => True
  | Some (_, (result, _)) => result = BACKEND_UNSUPPORTED
  end.

(** The calls made to the backends of [chain] that have the capability. *)
Definition probes_of (current_path : string) (data : option (list Byte.byte))
    (chain : list imv_backend) : list effect :=
  flat_map (fun backend =>
              match backend_open current_path data backend with
              | Some (probe, _) => [probe]
              | None => []
              end) chain.

Definition rejecting_backend : imv_backend :=
  {| name := "A";
     open_path := Some (fun _ => (BACKEND_UNSUPPORTED,
                                  {| src_addr := 0; load_next_frame := false |}));
     open_memory := Some (fun _ => (BACKEND_UNSUPPORTED,
                                    {| src_addr := 0; load_next_frame := false |})) |}.

Definition accepting_backend : imv_backend :=
  {| name := "B";
     open_path := Some (fun _ => (BACKEND_SUCCESS,
                                  {| src_addr := 1; load_next_frame := false |}));
     open_memory := Some (fun _ => (BACKEND_SUCCESS,
                                    {| src_addr := 1; load_next_frame := false |})) |}.

(** A fresh application whose navigator holds the given paths, the first of
    them selected and not yet loaded. *)
Definition imv_with_paths (l : list string) : imv :=
  fold_left (fun acc path => imv_add_path path acc) l imv_create.

(** Twice the number of entries, plus one while a change is pending. *)
Definition pending (nav : imv_navigator) : nat :=
  (2 * List.length (paths nav) + (if changed nav then 1 else 0))%nat.





Definition idle_input : frame_input :=
  {| event_ticks := 0; current_time := 0; last_time := 0;
     window_width := 1280; window_height := 720;
     view_needs_redraw := false |}.

(** Paths are expected from stdin and none has arrived yet. *)
Definition waiting_for_paths_state : imv :=
  set_paths_from_stdin true imv_create.

(** A backend that opens every path; the source it makes is told apart by
    the first character of the path. *)
Definition path_backend : imv_backend :=
  {| name := "png";
     open_path :=
       Some (fun path =>
               (BACKEND_SUCCESS,
                {| src_addr := match path with
                               | String c _ => nat_of_ascii c
                               | EmptyString => O
                               end;
                   load_next_frame := false |}));
     open_memory := None |}.

Definition source_of_a : imv_source :=
  {| src_addr := 97; load_next_frame := false |}.

(** Two paths, the first selected, one backend: nothing loaded yet. *)
Definition failure_race_start : imv :=
  install_all [path_backend] (imv_with_paths ["a.png"; "b.png"]).



Definition failure_of_a : imv_source_message :=
  {| msg_source := source_of_a; msg_bitmap := None; msg_frametime := 0 |}.

Definition long_frame_state : imv :=
  set_next_frame_due 5000
    (set_view_playing true (set_paths_from_stdin true imv_create)).




Definition long_frame_result : imv :=
  Eval vm_compute in
    match imv_run_iteration 2 idle_input long_frame_state with
    | Some (_, s') => s'
    | None => long_frame_state
    end.

Definition animated_source : imv_source :=
  {| src_addr := 1; load_next_frame := true |}.

Definition animation_state : imv :=
  set_view_playing true (set_source (Some animated_source) imv_create).

Definition frame0 : imv_bitmap := {| bmp_id := 10; width := 32; height := 32 |}.

(** A sequence of [slideshow_duration] commands, one per argument. *)
Fixpoint adjust_slideshow (words : list string) (s : imv) : option imv :=
  match words with
  | [] => Some s
  | arg :: rest =>
      match command_set_slideshow_duration ["slideshow_duration"; arg] s with
      | Some s' => adjust_slideshow rest s'
      | None => None
      end
  end.


(** * Definitions for the further properties *)


(** The bitmaps released so far, in the order of the calls. *)
Definition freed_bitmaps (t : list effect) : list imv_bitmap :=
  flat_map (fun e => match e with
                     | imv_bitmap_free bitmap => [bitmap]
                     | _ => []
                     end) t.

(** The bitmap [imv->next_frame] owns, if any. *)
Definition held_bitmaps (s : imv) : list imv_bitmap :=
  match next_frame s with
  | Some frame => [frame]
  | None => []
  end.

(** The bitmaps carried by queued events. *)
Definition queued_bitmaps (queue : list SDL_Event) : list imv_bitmap :=
  flat_map (fun e => match e with
                     | NEW_IMAGE data1 _ _ => [data1]
                     | _ => []
                     end) queue.

(** Every bitmap the application has been given: released, owned as the
    prefetched frame, or waiting in the event queue. *)
Definition bitmap_pool (s : imv) : list imv_bitmap :=
  freed_bitmaps (trace s) ++ held_bitmaps s ++ queued_bitmaps (sdl_queue s).

(** The bitmap a source message hands over. *)
Definition message_bitmaps (msg : imv_source_message) : list imv_bitmap :=
  match msg_bitmap msg with
  | Some bitmap => [bitmap]
  | None => []
  end.

(** [s'] comes from [s] by calls that release no bitmap, with the same
    prefetched frame and the same event queue. *)
Definition keeps_bitmaps (s s' : imv) : Prop :=
  exists added,
    trace s' = trace s ++ added
    /\ freed_bitmaps added = []
    /\ next_frame s' = next_frame s
    /\ sdl_queue s' = sdl_queue s.

Definition frame1 : imv_bitmap := {| bmp_id := 11; width := 32; height := 32 |}.

(** An animated source is current, paths come from stdin, and its first two
    frames wait in the event queue. *)
Definition two_frames_queued : imv :=
  set_sdl_queue [NEW_IMAGE frame0 100 true; NEW_IMAGE frame1 100 false]
    (set_paths_from_stdin true animation_state).

Definition two_frames_input : frame_input :=
  {| event_ticks := 5000; current_time := 5200; last_time := 5000;
     window_width := 1280; window_height := 720;
     view_needs_redraw := false |}.

Definition two_frames_result : imv :=
  Eval vm_compute in
    match imv_run_iteration 2 two_frames_input two_frames_queued with
    | Some (_, s') => s'
    | None => two_frames_queued
    end.

(** Playback is paused while an animated source is current and its next
    frame is prefetched and due. *)
Definition paused_state : imv :=
  set_next_frame (Some frame1)
    (set_next_frame_due 100 (set_view_playing false animation_state)).

(** A slideshow of three seconds per image, 2.5 s into the current one. *)
Definition slideshow_state : imv :=
  set_slideshow_time_elapsed 2500
    (set_slideshow_image_duration 3000
       (imv_with_paths ["a.png"; "b.png"])).

(** The first frame of a new animated image arrives while the prefetched
    frame of the previous image is still pending. *)
Definition stale_prefetch_state : imv :=
  set_next_frame (Some frame1) animation_state.

(** ** Splitting a bind into commands *)

Definition double_quote : ascii := ascii_of_nat 34.
Definition single_quote : ascii := ascii_of_nat 39.
Definition backslash : ascii := ascii_of_nat 92.
Definition semicolon : ascii := ascii_of_nat 59.

(** The [while] loop of [split_commands] from a position within the
    string: the number of characters up to the delimiter, and what follows
    it.  C strings are the characters before the terminator. *)
Fixpoint split_from (in_single_quotes in_double_quotes : bool) (str : string)
  : nat * string :=
  match str with
  | EmptyString => (O, EmptyString)
  | String c rest =>
      if negb in_single_quotes && Ascii.eqb c double_quote then
        let (len, out) :=
          split_from in_single_quotes (negb in_double_quotes) rest in
        (S len, out)
      else if negb in_double_quotes && Ascii.eqb c single_quote then
        let (len, out) :=
          split_from (negb in_single_quotes) in_double_quotes rest in
        (S len, out)
      else if Ascii.eqb c backslash then
        (* skip over the escaped character, but not over the terminator *)
        match rest with
        | String _ rest' =>
            let (len, out) :=
              split_from in_single_quotes in_double_quotes rest' in
            (S (S len), out)
        | EmptyString => (1%nat, EmptyString)
        end
      else if negb in_single_quotes && negb in_double_quotes
              && Ascii.eqb c semicolon then
        (* Found a command split that wasn't escaped or quoted *)
        (O, rest)
      else
        let (len, out) :=
          split_from in_single_quotes in_double_quotes rest in
        (S len, out)
  end.

(** [split_commands(start, &out, &len)]: the answer is [(len, out)]. *)
Definition split_commands (start : string) : nat * string :=
  split_from false false start.

(** The first [n] characters of a string ([strncpy] and a terminator). *)
Fixpoint prefix (n : nat) (s : string) : string :=
  match n, s with
  | S k, String c rest => String c (prefix k rest)
  | _, _ => EmptyString
  end.

(** What [split_from] answers, in terms of the string: either no delimiter
    was found and the piece is the whole string, or the string is the
    piece, the delimiter and the rest; scanning the piece alone stops at
    its end. *)
Definition split_answer (sq dq : bool) (s : string) : Prop :=
  let (len, out) := split_from sq dq s in
  String.length (prefix len s) = len
  /\ split_from sq dq (prefix len s) = (len, EmptyString)
  /\ ((prefix len s = s /\ out = EmptyString)
      \/ s = String.append (prefix len s) (String semicolon out)).

(** Where a string is to be cut, said position by position rather than
    by the loop.  In front of each character the scan is inside single
    quotes or not, inside double quotes or not, and the character is
    escaped when an unescaped backslash stands before it. *)
Record quoting := {
  single : bool;
  double : bool;
  escaped : bool
}.

Definition unquoted : quoting :=
  {| single := false; double := false; escaped := false |}.

(** The quoting behind a character, from the quoting in front of it: an
    escaped character changes nothing; a double quote outside single
    quotes and a single quote outside double quotes open or close their
    quotes; a backslash escapes what follows. *)
Definition quoting_step (q : quoting) (c : ascii) : quoting :=
  if escaped q then
    {| single := single q; double := double q; escaped := false |}
  else if negb (single q) && Ascii.eqb c double_quote then
    {| single := single q; double := negb (double q); escaped := false |}
  else if negb (double q) && Ascii.eqb c single_quote then
    {| single := negb (single q); double := double q; escaped := false |}
  else
    {| single := single q; double := double q;
       escaped := Ascii.eqb c backslash |}.

(** Position [i] of [s], read from quoting [q], holds a semicolon that is
    neither quoted nor escaped. *)
Fixpoint split_point_from (q : quoting) (s : string) (i : nat) : bool :=
  match s with
  | EmptyString => false
  | String c rest =>
      match i with
      | O => Ascii.eqb c semicolon
             && negb (single q) && negb (double q) && negb (escaped q)
      | S j => split_point_from (quoting_step q c) rest j
      end
  end.

Definition split_point (s : string) (i : nat) : bool :=
  split_point_from unquoted s i.

(** An answer [(len, out)] cuts [s] at its first split point: no position
    before [len] is a split point; if [len] is within the string it is
    one, and [out] is what follows it; otherwise [len] is the length of
    the string and [out] is empty. *)
Definition cuts_at_first_split_point (q : quoting) (s : string)
    (answer : nat * string) : Prop :=
  let (len, out) := answer in
  (len <= String.length s)%nat
  /\ (forall i, (i < len)%nat -> split_point_from q s i = false)
  /\ ((len < String.length s)%nat ->
      split_point_from q s len = true
      /\ s = String.append (prefix len s) (String semicolon out))
  /\ (len = String.length s -> out = EmptyString).

(** A bind with a quoted and an escaped semicolon before the one that
    separates two commands. *)
Definition quoted_bind : string := "a 'b;c' \; d;e".

(** Modelled from the spec: [binds.h] is not among the sources.  [add_bind]
    names three failures of [imv_binds_add]; [BIND_SUCCESS] stands for
    every other answer. *)
Inductive bind_result :=
| BIND_SUCCESS
| BIND_INVALID_KEYS
| BIND_INVALID_COMMAND
| BIND_CONFLICTS.

Section AddBind.

(** The binds collaborator: any state, any key lists, any behaviour. *)
Variable imv_binds : Type.
Variable key_list : Type.
Variable imv_bind_parse_keys : string -> option key_list.
Variable imv_binds_clear_key : imv_binds -> key_list -> imv_binds.
Variable imv_binds_add :
  imv_binds -> key_list -> string -> bind_result * imv_binds.

(** What [add_bind] leaves behind: its answer, the binds, the commands it
    handed to [imv_binds_add], in order, and the errors it logged. *)
Record add_bind_outcome := {
  success : bool;
  binds_after : imv_binds;
  handed_over : list string;
  logged : list string
}.

(** The [while] loop of [add_bind] over the commands, at most [fuel]
    turns; [None] when the turns run out. *)
Fixpoint add_bind_loop (fuel : nat) (parsed : key_list) (commands : string)
    (binds : imv_binds) (handed : list string) : option add_bind_outcome :=
  match fuel with
  | O => None
  | S fuel' =>
      match commands with
      | EmptyString =>
          Some {| success := true; binds_after := binds;
                  handed_over := handed; logged := [] |}
      | _ =>
          let (command_len, next_command) := split_commands commands in
          if (512 <=? command_len)%nat then
            Some {| success := false;
                    binds_after := imv_binds_clear_key binds parsed;
                    handed_over := handed;
                    logged := ["Command exceeded max length, not binding"] |}
          else
            let command_buf := prefix command_len commands in
            match imv_binds_add binds parsed command_buf with
            | (BIND_INVALID_KEYS, binds') =>
                Some {| success := false; binds_after := binds';
                        handed_over := handed ++ [command_buf];
                        logged := ["Invalid keys to bind to"] |}
            | (BIND_INVALID_COMMAND, binds') =>
                Some {| success := false; binds_after := binds';
                        handed_over := handed ++ [command_buf];
                        logged := ["No command given to bind to"] |}
            | (BIND_CONFLICTS, binds') =>
                Some {| success := false; binds_after := binds';
                        handed_over := handed ++ [command_buf];
                        logged := ["Key combination conflicts with existing bind"] |}
            | (BIND_SUCCESS, binds') =>
                add_bind_loop fuel' parsed next_command binds'
                              (handed ++ [command_buf])
            end
      end
  end.

Definition add_bind (fuel : nat) (keys commands : string) (binds : imv_binds)
  : option add_bind_outcome :=
  match imv_bind_parse_keys keys with
  | None =>
      Some {| success := false; binds_after := binds; handed_over := [];
              logged := ["Invalid key combination"] |}
  | Some parsed =>
      add_bind_loop fuel parsed commands (imv_binds_clear_key binds parsed) []
  end.

End AddBind.

(** The commands of a bind, put together again. *)
Fixpoint join_commands (pieces : list string) : string :=
  match pieces with
  | [] => EmptyString
  | [piece] => piece
  | piece :: rest => String.append piece (String semicolon (join_commands rest))
  end.

(** A binds collaborator that accepts everything and remembers nothing. *)
Definition accept_all_binds (_ : unit) (_ : unit) (_ : string)
  : bind_result * unit := (BIND_SUCCESS, tt).

(** ** Paths from stdin *)

Definition PATH_MAX : nat := 4096.

Definition newline : ascii := ascii_of_nat 10.

(** libc: [fgets(buf, size, stdin)] on what is left of the input, with
    [room = size - 1]: the characters stored and the input left.  It
    stores at most [room] characters and stops after a newline; the caller
    gets [NULL] when no input is left. *)
Fixpoint fgets (room : nat) (input : string) : string * string :=
  match room, input with
  | S k, String c rest =>
      if Ascii.eqb c newline then (String c EmptyString, rest)
      else let (buf, left) := fgets k rest in (String c buf, left)
  | _, _ => (EmptyString, input)
  end.

(** [if (buf[len-1] == '\n') buf[--len] = 0;] *)
Fixpoint strip_newline (buf : string) : string :=
  match buf with
  | EmptyString => EmptyString
  | String c EmptyString =>
      if Ascii.eqb c newline then EmptyString else buf
  | String c rest => String c (strip_newline rest)
  end.

Definition nul : ascii := ascii_of_nat 0.

(** What [strlen] and [strdup] see of the buffer: the characters before
    the first NUL, which is the terminator unless the input holds one. *)
Fixpoint c_string (buf : string) : string :=
  match buf with
  | EmptyString => EmptyString
  | String c rest =>
      if Ascii.eqb c nul then EmptyString else String c (c_string rest)
  end.

(** The [while (fgets(...) != NULL)] loop of [load_paths_from_stdin], at
    most [fuel] reads.  [None] when the reads run out, and when [strlen]
    answers 0: [buf[len-1]] then reads before the buffer. *)
Fixpoint read_paths (fuel : nat) (input : string) (s : imv) : option imv :=
  match fuel with
  | O => None
  | S fuel' =>
      match input with
      | EmptyString => Some s
      | _ =>
          let (read, left) := fgets (PATH_MAX - 1) input in
          match c_string read with
          | EmptyString => None
          | seen =>
              let buf := strip_newline seen in
              let s := if (0 <? String.length buf)%nat
                       (* return the path via SDL event queue *)
                       then SDL_PushEvent (NEW_PATH buf) s
                       else s in
              read_paths fuel' left s
          end
      end
  end.

Definition load_paths_from_stdin (fuel : nat) (input : string) (s : imv)
  : option imv :=
  read_paths fuel input (emit (imv_log "Reading paths from stdin...") s).

Fixpoint no_newline (s : string) : bool :=
  match s with
  | EmptyString => true
  | String c rest => negb (Ascii.eqb c newline) && no_newline rest
  end.

Fixpoint no_nul (s : string) : bool :=
  match s with
  | EmptyString => true
  | String c rest => negb (Ascii.eqb c nul) && no_nul rest
  end.

Definition nonempty (s : string) : bool := (0 <? String.length s)%nat.

(** The input made of the given lines, each closed by a newline, and of a
    last line that is not. *)
Definition input_of (lines : list string) (tail : string) : string :=
  fold_right (fun line acc => String.append line (String newline acc))
             tail lines.

(** A line of text that fits the buffer together with its newline, and a
    last line that fits it alone. *)
Definition line_ok (line : string) : bool :=
  no_newline line && no_nul line
  && (String.length line <? PATH_MAX - 1)%nat.

Definition tail_ok (tail : string) : bool :=
  no_newline tail && no_nul tail
  && (String.length tail <=? PATH_MAX - 1)%nat.

(** ** Command line values *)

(** libc: [strtoul(nptr, &endptr, base)]. *)
Module LibcUnsigned.

Definition ULONG_MAX : Z := 2 ^ 64 - 1.

(** The value of a character as a digit of the base, if it is one. *)
Definition digit_in (base : Z) (c : ascii) : option Z :=
  let n := Z.of_nat (nat_of_ascii c) in
  let v := if (48 <=? n) && (n <=? 57) then n - 48
           else if (97 <=? n) && (n <=? 122) then n - 87
           else if (65 <=? n) && (n <=? 90) then n - 55
           else 36 in
  if v <? base then Some v else None.

(** The longest prefix of digits: its value from [acc], and what follows. *)
Fixpoint scan (base acc : Z) (s : string) : Z * string :=
  match s with
  | String c rest =>
      match digit_in base c with
      | Some d => scan base (base * acc + d) rest
      | None => (acc, s)
      end
  | EmptyString => (acc, s)
  end.

Definition is_x (c : ascii) : bool :=
  Ascii.eqb c "x" || Ascii.eqb c "X".

(** White space, an optional sign, for base 16 an optional [0x] in front of
    a hexadecimal digit, then digits.  The answer is the value and the
    rest of the string ([endptr]).  Without digits the value is 0 and the
    rest is the whole string; a value out of range gives [ULONG_MAX]; a
    minus sign negates within [unsigned long]. *)
Definition strtoul (nptr : string) (base : Z) : Z * string :=
  let s1 := Libc.skip_spaces nptr in
  let (negative, s2) :=
    match s1 with
    | String "-" r => (true, r)
    | String "+" r => (false, r)
    | _ => (false, s1)
    end in
  let s3 :=
    if base =? 16 then
      match s2 with
      | String "0" (String x (String h r)) =>
          if is_x x then
            match digit_in 16 h with
            | Some _ => String h r
            | None => s2
            end
          else s2
      | _ => s2
      end
    else s2 in
  let (v, rest) := scan base 0 s3 in
  if (String.length rest =? String.length s3)%nat then (0, nptr)
  else ((if ULONG_MAX <? v then ULONG_MAX
         else if negative then (- v) mod 2 ^ 64 else v),
        rest).

End LibcUnsigned.

Inductive enum_upscaling_method :=
| UPSCALING_LINEAR
| UPSCALING_NEAREST_NEIGHBOUR.

Inductive enum_background_type :=
| BACKGROUND_SOLID
| BACKGROUND_CHEQUERED.

(** The fields of [struct imv] that the command line sets and the core
    does not read; [background_color] is [(r, g, b)]. *)
Record imv_options := {
  fullscreen : bool;
  overlay_enabled : bool;
  list_files_at_exit : bool;
  upscaling_method : enum_upscaling_method;
  background_type : enum_background_type;
  background_color : Z * Z * Z;
  starting_path : option string
}.

Definition set_fullscreen (v : bool) (o : imv_options) : imv_options :=
  Build_imv_options v (overlay_enabled o) (list_files_at_exit o)
    (upscaling_method o) (background_type o) (background_color o)
    (starting_path o).

Definition set_overlay_enabled (v : bool) (o : imv_options) : imv_options :=
  Build_imv_options (fullscreen o) v (list_files_at_exit o)
    (upscaling_method o) (background_type o) (background_color o)
    (starting_path o).

Definition set_list_files_at_exit (v : bool) (o : imv_options) : imv_options :=
  Build_imv_options (fullscreen o) (overlay_enabled o) v (upscaling_method o)
    (background_type o) (background_color o) (starting_path o).

Definition set_upscaling_method (v : enum_upscaling_method) (o : imv_options) : imv_options :=
  Build_imv_options (fullscreen o) (overlay_enabled o) (list_files_at_exit o)
    v (background_type o) (background_color o) (starting_path o).

Definition set_background_type (v : enum_background_type) (o : imv_options) : imv_options :=
  Build_imv_options (fullscreen o) (overlay_enabled o) (list_files_at_exit o)
    (upscaling_method o) v (background_color o) (starting_path o).

Definition set_background_color (v : Z * Z * Z) (o : imv_options) : imv_options :=
  Build_imv_options (fullscreen o) (overlay_enabled o) (list_files_at_exit o)
    (upscaling_method o) (background_type o) v (starting_path o).

Definition set_starting_path (v : option string) (o : imv_options) : imv_options :=
  Build_imv_options (fullscreen o) (overlay_enabled o) (list_files_at_exit o)
    (upscaling_method o) (background_type o) (background_color o) v.

(** [struct imv] as the command line sees it: the core and the options. *)
Record imv_app := {
  core : imv;
  options : imv_options
}.

Definition on_core (f : imv -> imv) (a : imv_app) : imv_app :=
  {| core := f (core a); options := options a |}.

Definition on_options (f : imv_options -> imv_options) (a : imv_app)
  : imv_app :=
  {| core := core a; options := f (options a) |}.

(** The options of [imv_create]: a zeroed struct. *)
Definition default_options : imv_options :=
  {| fullscreen := false; overlay_enabled := false;
     list_files_at_exit := false; upscaling_method := UPSCALING_LINEAR;
     background_type := BACKGROUND_SOLID; background_color := (0, 0, 0);
     starting_path := None |}.

Definition imv_create_app : imv_app :=
  {| core := imv_create; options := default_options |}.

(** A leading [#] is stepped over. *)
Definition skip_hash (bg : string) : string :=
  match bg with
  | String "#" rest => rest
  | _ => bg
  end.

Definition parse_bg (bg : string) (a : imv_app) : bool * imv_app :=
  if String.eqb "checks" bg then
    (true, on_options (set_background_type BACKGROUND_CHEQUERED) a)
  else
    let a := on_options (set_background_type BACKGROUND_SOLID) a in
    let bg := skip_hash bg in
    let (value, ep) := LibcUnsigned.strtoul bg 16 in
    (* uint32_t n *)
    let n := value mod 2 ^ 32 in
    if negb (String.eqb ep EmptyString)
       || negb (Nat.eqb (String.length bg - String.length ep) 6)
       || (16777215 <? n)
    then (false, on_core (emit (imv_log "Invalid hex color")) a)
    else
      (true,
       on_options (set_background_color
                     ((Z.shiftr n 16) mod 256,
                      Z.land (Z.shiftr n 8) 255,
                      Z.land n 255)) a).

(** The scaling of the fractional part: [for (int i = 3 - (ep - decimal);
    i; i--) delay *= 10;].  With more than three characters read [i]
    starts negative and the loop cannot end before [i] overflows; a
    product that leaves [long] overflows as well: [None]. *)
Definition scale_delay (delay : Z) (read : nat) : option Z :=
  if (3 <? read)%nat then None
  else
    let scaled := delay * 10 ^ Z.of_nat (3 - read) in
    if CInt.in_longb scaled then Some scaled else None.

(** Conversion of an [unsigned long] to [long]. *)
Definition to_long (z : Z) : Z :=
  if z <? 2 ^ 63 then z else z - 2 ^ 64.

(** The end of [parse_slideshow_duration]: [ULONG_MAX] is refused. *)
Definition duration_answer (total : Z) (s : imv) : bool * imv :=
  let s := set_slideshow_image_duration total s in
  if total =? LibcUnsigned.ULONG_MAX
  then (false, emit (imv_log "Wrong slideshow duration. Aborting.") s)
  else (true, s).

(** [None] stands for undefined behaviour of the C function. *)
Definition parse_slideshow_duration (duration : string) (s : imv)
  : option (bool * imv) :=
  let (seconds, decimal) := LibcUnsigned.strtoul duration 10 in
  let total := CInt.to_ulong (seconds * 1000) in
  match decimal with
  | String "." fraction =>
      let (value, ep) := LibcUnsigned.strtoul fraction 10 in
      match scale_delay (to_long value)
                        (String.length fraction - String.length ep) with
      | None => None
      | Some delay =>
          if delay <? 1000
          then Some (duration_answer (CInt.to_ulong (total + delay)) s)
          else Some (duration_answer LibcUnsigned.ULONG_MAX s)
      end
  | _ => Some (duration_answer total s)
  end.

Definition parse_scaling_mode (mode : string) (s : imv) : bool * imv :=
  if String.eqb mode "shrink" then (true, set_scaling_mode SCALING_DOWN s)
  else if String.eqb mode "full" then (true, set_scaling_mode SCALING_FULL s)
  else if String.eqb mode "none" then (true, set_scaling_mode SCALING_NONE s)
  else (false, s).

Definition parse_upscaling_method (method : string) (o : imv_options)
  : bool * imv_options :=
  if String.eqb method "linear"
  then (true, set_upscaling_method UPSCALING_LINEAR o)
  else if String.eqb method "nearest_neighbour"
  then (true, set_upscaling_method UPSCALING_NEAREST_NEIGHBOUR o)
  else (false, o).

Definition parse_resizing_mode (method : string) (s : imv) : bool * imv :=
  if String.eqb method "none" then (true, set_resize_mode RESIZE_NONE s)
  else if String.eqb method "resize" then (true, set_resize_mode RESIZE_ONLY s)
  else if String.eqb method "recenter"
  then (true, set_resize_mode RESIZE_CENTER s)
  else (false, s).

(** Two lower-case hexadecimal digits for a byte, and six for a colour. *)
Definition hex_digit (d : Z) : ascii :=
  ascii_of_nat (Z.to_nat (if d <? 10 then 48 + d else 87 + d)).

Definition hex_byte (v : Z) (rest : string) : string :=
  String (hex_digit (v / 16)) (String (hex_digit (v mod 16)) rest).

Definition hex_color (r g b : Z) : string :=
  hex_byte r (hex_byte g (hex_byte b EmptyString)).

(** Decimal digits written in front of a string, and their value. *)
Fixpoint decimal (digits : list Z) (rest : string) : string :=
  match digits with
  | [] => rest
  | d :: more => String (hex_digit d) (decimal more rest)
  end.

Definition decimal_value (digits : list Z) : Z :=
  fold_left (fun acc d => 10 * acc + d) digits 0.

Definition is_decimal (d : Z) : Prop := 0 <= d < 10.

(** A string stops the digits when it is empty or starts with something
    else than a decimal digit. *)
Definition stops_digits (rest : string) : Prop :=
  match rest with
  | String c _ => LibcUnsigned.digit_in 10 c = None
  | EmptyString => True
  end.

(** ** The command line *)

(** One turn of the [switch] in [imv_parse_args] on what [getopt] handed
    over, the option character and [optarg]: [Some b] when the function
    returns [b] at once.  The outer [None] is the undefined result of
    [parse_slideshow_duration]. *)
Definition parse_option (o : ascii) (optarg : string) (a : imv_app)
  : option (option bool * imv_app) :=
  if Ascii.eqb o "f" then Some (None, on_options (set_fullscreen true) a)
  else if Ascii.eqb o "r" then Some (None, on_core (set_recursive_load true) a)
  else if Ascii.eqb o "d"
  then Some (None, on_options (set_overlay_enabled true) a)
  else if Ascii.eqb o "w"
  then Some (None, on_core (set_resize_mode RESIZE_ONLY) a)
  else if Ascii.eqb o "W"
  then Some (None, on_core (set_resize_mode RESIZE_CENTER) a)
  else if Ascii.eqb o "x" then Some (None, on_core (set_loop_input false) a)
  else if Ascii.eqb o "l"
  then Some (None, on_options (set_list_files_at_exit true) a)
  else if Ascii.eqb o "n"
  then Some (None, on_options (set_starting_path (Some optarg)) a)
  else if Ascii.eqb o "h" then
    Some (Some true,
          on_core (fun s => set_quit true (emit (call "print_help") s)) a)
  else if Ascii.eqb o "v" then
    Some (Some false,
          on_core (fun s => set_quit true (emit (call "printf") s)) a)
  else if Ascii.eqb o "s" then
    let (ok, s) := parse_scaling_mode optarg (core a) in
    if ok then Some (None, on_core (fun _ => s) a)
    else Some (Some false,
               on_core (fun _ => emit (imv_log "Invalid scaling mode. Aborting.") s) a)
  else if Ascii.eqb o "u" then
    let (ok, opts) := parse_upscaling_method optarg (options a) in
    if ok then Some (None, on_options (fun _ => opts) a)
    else Some (Some false,
               on_core (emit (imv_log "Invalid upscaling method. Aborting."))
                 (on_options (fun _ => opts) a))
  else if Ascii.eqb o "b" then
    let (ok, a) := parse_bg optarg a in
    if ok then Some (None, a)
    else Some (Some false,
               on_core (emit (imv_log "Invalid background. Aborting.")) a)
  else if Ascii.eqb o "t" then
    match parse_slideshow_duration optarg (core a) with
    | None => None
    | Some (ok, s) =>
        if ok then Some (None, on_core (fun _ => s) a)
        else Some (Some false,
                   on_core (fun _ => emit (imv_log "Invalid slideshow duration. Aborting.") s) a)
    end
  else if Ascii.eqb o "?" then
    Some (Some false,
          on_core (emit (imv_log "Unknown argument. Aborting.")) a)
  else Some (None, a).

(** The [while ((o = getopt(...)) != -1)] loop. *)
Fixpoint parse_options (opts : list (ascii * string)) (a : imv_app)
  : option (option bool * imv_app) :=
  match opts with
  | [] => Some (None, a)
  | (o, optarg) :: rest =>
      match parse_option o optarg a with
      | None => None
      | Some (Some answer, a') => Some (Some answer, a')
      | Some (None, a') => parse_options rest a'
      end
  end.

(** The [for] loop over the arguments left after the options.  [stdin] is
    what [read_from_stdin] reads. *)
Fixpoint add_arguments (args : list string) (data_from_stdin : bool)
    (stdin : list Byte.byte) (a : imv_app) : bool * imv_app :=
  match args with
  | [] => (true, a)
  | arg :: rest =>
      (* Special case: '-' denotes reading image data from stdin *)
      if String.eqb "-" arg then
        if paths_from_stdin (core a) then
          (false,
           on_core (emit (imv_log "Can't read paths AND image data from stdin. Aborting.")) a)
        else if data_from_stdin then
          (false,
           on_core (emit (imv_log "Can't read image data from stdin twice. Aborting.")) a)
        else
          add_arguments rest true stdin
            (on_core (fun s => imv_add_path arg
                                 (set_stdin_image_data (Some stdin) s)) a)
      else
        add_arguments rest data_from_stdin stdin
                      (on_core (imv_add_path arg) a)
  end.

Definition imv_parse_args (opts : list (ascii * string)) (args : list string)
    (stdin : list Byte.byte) (a : imv_app) : option (bool * imv_app) :=
  match parse_options opts a with
  | None => None
  | Some (Some answer, a') => Some (answer, a')
  | Some (None, a') =>
      match args with
      (* if no paths are given as args, expect them from stdin *)
      | [] => Some (true, on_core (set_paths_from_stdin true) a')
      | _ => Some (add_arguments args false stdin a')
      end
  end.

(** The fields of the core that say where input comes from. *)
Definition same_input (s s' : imv) : Prop :=
  navigator s' = navigator s
  /\ paths_from_stdin s' = paths_from_stdin s
  /\ stdin_image_data s' = stdin_image_data s.


(** * Properties *)

(** ** Machine integers and [strtol] *)

Module CIntFacts.
Import CInt.

Lemma in_longb_spec z : in_longb z = true <-> in_long z.
Proof. unfold in_longb, in_long. rewrite andb_true_iff, !Z.leb_le. tauto. Qed.

Lemma to_uint_range z : in_uint (to_uint z).
Proof. apply Z.mod_pos_bound. reflexivity. Qed.

Lemma to_ulong_range z : in_ulong (to_ulong z).
Proof. apply Z.mod_pos_bound. reflexivity. Qed.

Lemma to_uint_small z : in_uint z -> to_uint z = z.
Proof. apply Z.mod_small. Qed.

Lemma to_ulong_small z : in_ulong z -> to_ulong z = z.
Proof. apply Z.mod_small. Qed.

End CIntFacts.

Module LibcFacts.
Import Libc.

Lemma clamp_long_range z : CInt.in_long (clamp_long z).
Proof. unfold clamp_long, CInt.in_long, CInt.LONG_MIN, CInt.LONG_MAX. lia. Qed.

Lemma strtol_range s : CInt.in_long (strtol s).
Proof.
  unfold strtol. destruct (skip_spaces s) as [|c rest].
  - apply clamp_long_range.
  - destruct (Ascii.eqb c "-") eqn:Hm.
    + apply Ascii.eqb_eq in Hm. subst c. apply clamp_long_range.
    + destruct (Ascii.eqb c "+") eqn:Hp.
      * apply Ascii.eqb_eq in Hp. subst c. apply clamp_long_range.
      * destruct c as [[] [] [] [] [] [] [] []]; try apply clamp_long_range.
Qed.

End LibcFacts.

(** ** Stale decode messages *)

Lemma emit_all_nil (s : imv) : emit_all [] s = s.
Proof. destruct s. unfold emit_all, set_trace. simpl. now rewrite app_nil_r. Qed.

Lemma emit_is_emit_all (e : effect) (s : imv) : emit e s = emit_all [e] s.
Proof. reflexivity. Qed.

(** C1: a decode message whose originating source is not the installed one
    is dropped by [source_callback]: the state differs from the old one in
    the trace only, which gains the release of the bitmap the message
    carries, if any; no event is queued, and the displayed bitmap, its
    dimensions and the prefetched frame stay as they were. *)
Theorem source_callback_drops_stale_message :
  forall (msg : imv_source_message) (s : imv),
    same_source (Some (msg_source msg)) (source s) = false ->
    source_callback msg s = emit_all (payload_release msg) s
    /\ sdl_queue (source_callback msg s) = sdl_queue s
    /\ playback_state (source_callback msg s) = playback_state s
    /\ last_source (source_callback msg s) = last_source s
    /\ trace (source_callback msg s) = trace s ++ payload_release msg.
Proof.
  intros msg s Hstale.
  assert (Heq : source_callback msg s = emit_all (payload_release msg) s).
  { unfold source_callback, payload_release. rewrite Hstale. simpl.
    destruct (msg_bitmap msg); [reflexivity | now rewrite emit_all_nil]. }
  rewrite Heq. repeat split.
Qed.

Lemma source_callback_drops_stale_message_witness :
  sdl_queue (source_callback stale_example_message stale_example_state) = []
  /\ trace (source_callback stale_example_message stale_example_state)
     = [imv_bitmap_free {| bmp_id := 7; width := 640; height := 480 |}].
Proof.
  destruct (source_callback_drops_stale_message
              stale_example_message stale_example_state eq_refl)
    as (_ & Hq & _ & _ & Ht).
  split; [exact Hq | exact Ht].
Defined.

(** ** Backend resolution *)

Lemma backends_install_all (regs : list imv_backend) (s : imv) :
  backends (install_all regs s) = rev regs ++ backends s.
Proof.
  revert s. induction regs as [|b regs IH]; intros s; simpl.
  - reflexivity.
  - unfold install_all in IH. rewrite IH. simpl. now rewrite <- app_assoc.
Qed.

Section Resolution.

Variable current_path : string.
Variable data : option (list Byte.byte).

Lemma open_chain_first_answer :
  forall (skipped rest : list imv_backend) (b : imv_backend)
         (probe : effect) (result : backend_result) (src : imv_source),
    Forall (passes_over current_path data) skipped ->
    backend_open current_path data b = Some (probe, (result, src)) ->
    result <> BACKEND_UNSUPPORTED ->
    open_chain current_path data (skipped ++ b :: rest)
    = (probes_of current_path data skipped ++ [probe], (result, Some src)).
Proof.
  induction skipped as [|a skipped IH]; intros rest b probe result src Hs Hb Hr.
  - simpl. rewrite Hb. destruct result; congruence.
  - inversion Hs as [|? ? Ha Hs']; subst. simpl.
    unfold passes_over in Ha.
    destruct (backend_open current_path data a) as [[pa [ra sa]]|].
    + subst ra. rewrite (IH rest b probe result src Hs' Hb Hr). reflexivity.
    + simpl. apply IH; assumption.
Qed.

Lemma open_chain_all_pass_over :
  forall chain : list imv_backend,
    Forall (passes_over current_path data) chain ->
    open_chain current_path data chain
    = (probes_of current_path data chain, (BACKEND_UNSUPPORTED, None)).
Proof.
  induction chain as [|a chain IH]; intros Hs.
  - reflexivity.
  - inversion Hs as [|? ? Ha Hs']; subst. simpl.
    unfold passes_over in Ha.
    destruct (backend_open current_path data a) as [[pa [ra sa]]|].
    + subst ra. rewrite (IH Hs'). reflexivity.
    + simpl. apply IH; assumption.
Qed.

End Resolution.

Lemma load_selection_installs (s : imv) (probes : list effect)
    (new_source : imv_source) :
  imv_navigator_selection (navigator s) <> "" ->
  open_chain (imv_navigator_selection (navigator s)) (stdin_image_data s)
             (backends s) = (probes, (BACKEND_SUCCESS, Some new_source)) ->
  source (load_selection s) = Some new_source.
Proof.
  intros Hpath Hopen. unfold load_selection.
  destruct (String.eqb "" (imv_navigator_selection (navigator s))) eqn:He.
  - apply String.eqb_eq in He. congruence.
  - set (s1 := match backends s with
                | [] => emit (imv_log "No backends installed. Unable to load image.") s
                | _ :: _ => s
                end).
    assert (Hs1 : backends s1 = backends s /\ stdin_image_data s1 = stdin_image_data s)
      by (unfold s1; destruct (backends s) eqn:E; split;
          first [exact E | reflexivity]).
    destruct Hs1 as [Hb1 Hd1]. rewrite Hb1, Hd1, Hopen.
    unfold s1. destruct (backends s); reflexivity.
Qed.

(** C2: backends are tried most recently registered first.  After the
    backends [regs] have been installed in that order on an empty chain,
    resolving an input probes them in reverse registration order, passes
    over those that lack the capability for the kind of input or answer
    [BACKEND_UNSUPPORTED], and stops at the first other answer; when that
    answer is a success, its source is the one the orchestrator installs. *)
Theorem resolution_most_recent_first :
  forall (regs skipped rest : list imv_backend) (b : imv_backend)
         (s : imv) (probe : effect) (result : backend_result)
         (src : imv_source),
    backends s = [] ->
    rev regs = skipped ++ b :: rest ->
    Forall (passes_over (imv_navigator_selection (navigator s))
                        (stdin_image_data s)) skipped ->
    backend_open (imv_navigator_selection (navigator s))
                 (stdin_image_data s) b = Some (probe, (result, src)) ->
    result <> BACKEND_UNSUPPORTED ->
    backends (install_all regs s) = skipped ++ b :: rest
    /\ open_chain (imv_navigator_selection (navigator s)) (stdin_image_data s)
                  (backends (install_all regs s))
       = (probes_of (imv_navigator_selection (navigator s))
                    (stdin_image_data s) skipped ++ [probe],
          (result, Some src))
    /\ (result = BACKEND_SUCCESS ->
        imv_navigator_selection (navigator s) <> "" ->
        source (load_selection (install_all regs s)) = Some src).
Proof.
  intros regs skipped rest b s probe result src Hempty Hrev Hskip Hb Hr.
  assert (Hchain : backends (install_all regs s) = skipped ++ b :: rest).
  { rewrite backends_install_all, Hempty, app_nil_r. exact Hrev. }
  assert (Hnav : navigator (install_all regs s) = navigator s).
  { clear. revert s. induction regs as [|x regs IH]; intros s; simpl.
    - reflexivity.
    - unfold install_all in IH. rewrite IH. reflexivity. }
  assert (Hdata : stdin_image_data (install_all regs s) = stdin_image_data s).
  { clear. revert s. induction regs as [|x regs IH]; intros s; simpl.
    - reflexivity.
    - unfold install_all in IH. rewrite IH. reflexivity. }
  split; [exact Hchain|]. split.
  - rewrite Hchain. apply open_chain_first_answer; assumption.
  - intros Hok Hpath. subst result.
    apply load_selection_installs
      with (probes := probes_of (imv_navigator_selection (navigator s))
                                (stdin_image_data s) skipped ++ [probe]).
    + rewrite Hnav. exact Hpath.
    + rewrite Hnav, Hdata, Hchain.
      apply open_chain_first_answer; assumption.
Qed.

Lemma resolution_most_recent_first_witness :
  open_chain "a.png" None
    (backends (install_all [accepting_backend; rejecting_backend]
                           (imv_with_paths ["a.png"])))
  = ([backend_open_path "A" "a.png"; backend_open_path "B" "a.png"],
     (BACKEND_SUCCESS, Some {| src_addr := 1; load_next_frame := false |}))
  /\ source (load_selection
               (install_all [accepting_backend; rejecting_backend]
                            (imv_with_paths ["a.png"])))
     = Some {| src_addr := 1; load_next_frame := false |}.
Proof.
  destruct (resolution_most_recent_first
              [accepting_backend; rejecting_backend]
              [rejecting_backend] [] accepting_backend
              (imv_with_paths ["a.png"])
              (backend_open_path "B" "a.png") BACKEND_SUCCESS
              {| src_addr := 1; load_next_frame := false |})
    as (_ & Hopen & Hsrc).
  - reflexivity.
  - reflexivity.
  - constructor; [reflexivity | constructor].
  - reflexivity.
  - discriminate.
  - split; [exact Hopen | apply Hsrc; [reflexivity | discriminate]].
Defined.

(** The scenario of the spec for every input: a backend that rejects
    everything, registered after one that accepts everything, is asked
    first and the source comes from the other. *)
Corollary rejecting_backend_asked_first :
  forall (A B : imv_backend) (s : imv) (current_path : string)
         (data : option (list Byte.byte)) (asked_A asked_B : effect)
         (src_A src_B : imv_source),
    backends s = [] ->
    backend_open current_path data A
      = Some (asked_A, (BACKEND_UNSUPPORTED, src_A)) ->
    backend_open current_path data B
      = Some (asked_B, (BACKEND_SUCCESS, src_B)) ->
    open_chain current_path data
      (backends (imv_install_backend A (imv_install_backend B s)))
    = ([asked_A; asked_B], (BACKEND_SUCCESS, Some src_B)).
Proof.
  intros A B s current_path data asked_A asked_B src_A src_B Hs HA HB.
  assert (Hchain : backends (imv_install_backend A (imv_install_backend B s))
                   = [A] ++ B :: [])
    by (simpl; now rewrite Hs).
  rewrite Hchain.
  rewrite (open_chain_first_answer current_path data [A] [] B
             asked_B BACKEND_SUCCESS src_B).
  - unfold probes_of. simpl. rewrite HA. reflexivity.
  - constructor; [|constructor]. unfold passes_over. now rewrite HA.
  - exact HB.
  - discriminate.
Qed.

(** ** Termination of the selection loop *)

Lemma find_path_member (path : string) (l : list string) :
  In path l ->
  exists i, find_path path l = Some i /\ (i < List.length l)%nat.
Proof.
  induction l as [|p l IH]; intros Hin; [contradiction|].
  simpl. destruct (String.eqb path p) eqn:E.
  - exists O. split; [reflexivity | simpl; lia].
  - destruct Hin as [Heq | Hin].
    + subst p. rewrite String.eqb_refl in E. discriminate.
    + destruct (IH Hin) as (i & Hi & Hlt). exists (S i).
      rewrite Hi. split; [reflexivity | simpl; lia].
Qed.

Lemma find_path_bound (path : string) (l : list string) (i : nat) :
  find_path path l = Some i -> (i < List.length l)%nat.
Proof.
  revert i. induction l as [|p l IH]; intros i H; simpl in H.
  - discriminate.
  - destruct (String.eqb path p).
    + inversion H. simpl. lia.
    + destruct (find_path path l) as [j|]; simpl in H; [|discriminate].
      inversion H. specialize (IH j eq_refl). simpl. lia.
Qed.

Lemma length_remove_at (i : nat) (l : list string) :
  (i < List.length l)%nat ->
  List.length (remove_at i l) = Nat.pred (List.length l).
Proof.
  revert i. induction l as [|p l IH]; intros i Hlt; simpl in *; [lia|].
  destruct i as [|j]; simpl; [reflexivity|].
  rewrite IH by lia. lia.
Qed.

Lemma selection_member (nav : imv_navigator) :
  imv_navigator_selection nav <> "" ->
  In (imv_navigator_selection nav) (paths nav).
Proof.
  unfold imv_navigator_selection. intros Hsel.
  destruct (Nat.lt_ge_cases (cur_path nav) (List.length (paths nav)))
    as [Hlt | Hge].
  - apply nth_In. exact Hlt.
  - rewrite nth_overflow in Hsel by exact Hge. congruence.
Qed.

Lemma remove_length_le (nav : imv_navigator) (path : string) :
  (imv_navigator_length (imv_navigator_remove nav path)
   <= imv_navigator_length nav)%nat.
Proof.
  unfold imv_navigator_remove, imv_navigator_length.
  destruct (find_path path (paths nav)) as [i|] eqn:Hf; [|lia].
  apply find_path_bound in Hf.
  destruct (Nat.eqb i (cur_path nav)); simpl;
    rewrite length_remove_at by exact Hf; lia.
Qed.

(** Removing a path that is in the navigator takes one entry away. *)
Lemma remove_member_shrinks (nav : imv_navigator) (path : string) :
  In path (paths nav) ->
  S (imv_navigator_length (imv_navigator_remove nav path))
  = imv_navigator_length nav.
Proof.
  intros Hin. unfold imv_navigator_remove, imv_navigator_length.
  destruct (find_path_member path (paths nav) Hin) as (i & Hf & Hlt).
  rewrite Hf.
  destruct (Nat.eqb i (cur_path nav)); simpl;
    rewrite length_remove_at by exact Hlt; lia.
Qed.

Lemma remove_member_pending (nav : imv_navigator) (path : string) :
  In path (paths nav) ->
  (pending (imv_navigator_remove nav path)
   < 2 * imv_navigator_length nav)%nat.
Proof.
  intros Hin. pose proof (remove_member_shrinks nav path Hin) as Hlen.
  unfold pending. unfold imv_navigator_length in *.
  destruct (changed (imv_navigator_remove nav path)); lia.
Qed.

Lemma install_source_navigator (new_source : imv_source) (s : imv) :
  navigator (install_source new_source s) = navigator s.
Proof. unfold install_source. destruct (source s); reflexivity. Qed.

(** The navigator after the loop body is the old one, or the old one with
    its selection removed. *)
Lemma load_selection_navigator (s : imv) :
  navigator (load_selection s) = navigator s
  \/ (imv_navigator_selection (navigator s) <> ""
      /\ navigator (load_selection s)
         = imv_navigator_remove (navigator s)
             (imv_navigator_selection (navigator s))).
Proof.
  unfold load_selection.
  destruct (String.eqb "" (imv_navigator_selection (navigator s))) eqn:He;
    [left; reflexivity|].
  assert (Hne : imv_navigator_selection (navigator s) <> "")
    by (intros Heq; rewrite Heq in He; discriminate).
  set (s1 := match backends s with
             | [] => emit (imv_log "No backends installed. Unable to load image.") s
             | _ :: _ => s
             end).
  assert (Hn1 : navigator s1 = navigator s)
    by (unfold s1; destruct (backends s); reflexivity).
  destruct (open_chain (imv_navigator_selection (navigator s))
                       (stdin_image_data s1) (backends s1))
    as [probes [result new_source]].
  destruct result, new_source;
    try (right; split; [exact Hne | simpl; now rewrite Hn1]).
  left. rewrite install_source_navigator. exact Hn1.
Qed.

Lemma load_selection_pending (s : imv) :
  changed (navigator s) = false ->
  (pending (navigator (load_selection s))
   <= 2 * imv_navigator_length (navigator s))%nat.
Proof.
  intros Hclear.
  destruct (load_selection_navigator s) as [Heq | [Hne Heq]]; rewrite Heq.
  - unfold pending, imv_navigator_length. rewrite Hclear. lia.
  - pose proof (remove_member_pending (navigator s) _
                  (selection_member _ Hne)). lia.
Qed.

Lemma load_selection_length (s : imv) :
  (imv_navigator_length (navigator (load_selection s))
   <= imv_navigator_length (navigator s))%nat.
Proof.
  destruct (load_selection_navigator s) as [Heq | [_ Heq]]; rewrite Heq.
  - lia.
  - apply remove_length_le.
Qed.

(** A resolution that fails on a path removes one entry. *)
Lemma load_selection_failure_shrinks (s : imv) :
  imv_navigator_selection (navigator s) <> "" ->
  fst (snd (open_chain (imv_navigator_selection (navigator s))
                       (stdin_image_data s) (backends s)))
    <> BACKEND_SUCCESS ->
  S (imv_navigator_length (navigator (load_selection s)))
  = imv_navigator_length (navigator s).
Proof.
  intros Hne Hfail. unfold load_selection.
  destruct (String.eqb "" (imv_navigator_selection (navigator s))) eqn:He.
  - apply String.eqb_eq in He. congruence.
  - set (s1 := match backends s with
               | [] => emit (imv_log "No backends installed. Unable to load image.") s
               | _ :: _ => s
               end).
    assert (Hs1 : navigator s1 = navigator s /\ backends s1 = backends s
                  /\ stdin_image_data s1 = stdin_image_data s)
      by (unfold s1; destruct (backends s) eqn:E; repeat split;
          first [exact E | reflexivity]).
    destruct Hs1 as (Hn1 & Hb1 & Hd1). rewrite Hb1, Hd1.
    destruct (open_chain (imv_navigator_selection (navigator s))
                         (stdin_image_data s) (backends s))
      as [probes [result new_source]].
    simpl in Hfail.
    destruct result, new_source; try congruence;
      cbn [navigator set_navigator emit_all set_trace]; rewrite Hn1;
      apply remove_member_shrinks, selection_member, Hne.
Qed.

Lemma selection_loop_enough_fuel :
  forall (fuel : nat) (s : imv),
    (pending (navigator s) < fuel)%nat ->
    exists s', selection_loop fuel s = Some s'
               /\ changed (navigator s') = false
               /\ (imv_navigator_length (navigator s')
                   <= imv_navigator_length (navigator s))%nat.
Proof.
  induction fuel as [|fuel IH]; intros s Hfuel; [lia|].
  simpl.
  destruct (changed (navigator s)
            && negb (Nat.eqb (List.length (paths (navigator s))) 0))
    eqn:Hfired.
  - apply andb_true_iff in Hfired. destruct Hfired as [Hch _].
    set (s1 := set_navigator _ s).
    assert (Hs1c : changed (navigator s1) = false) by reflexivity.
    assert (Hs1l : imv_navigator_length (navigator s1)
                   = imv_navigator_length (navigator s)) by reflexivity.
    pose proof (load_selection_pending s1 Hs1c) as Hp.
    pose proof (load_selection_length s1) as Hl.
    destruct (IH (load_selection s1)) as (s' & Hrun & Hc & Hlen).
    + rewrite Hs1l in Hp. unfold pending in Hfuel. rewrite Hch in Hfuel.
      unfold imv_navigator_length in Hp. lia.
    + exists s'. repeat split; [exact Hrun | exact Hc |].
      rewrite Hs1l in Hl. exact (Nat.le_trans _ _ _ Hlen Hl).
  - eexists. split; [reflexivity|]. split; [reflexivity | apply Nat.le_refl].
Qed.

Lemma selection_fuel_enough (s : imv) :
  (pending (navigator s) < selection_fuel s)%nat.
Proof.
  unfold selection_fuel, imv_navigator_length, pending.
  destruct (changed (navigator s)); lia.
Qed.

(** What a turn of the loop does to the navigator, by the outcome of the
    resolution. *)
Lemma load_selection_outcome (s : imv) :
  let current_path := imv_navigator_selection (navigator s) in
  let answer :=
    snd (open_chain current_path (stdin_image_data s) (backends s)) in
  (current_path <> "" ->
   (forall src, answer <> (BACKEND_SUCCESS, Some src)) ->
   navigator (load_selection s)
   = imv_navigator_remove (navigator s) current_path)
  /\ (current_path = "" \/ (exists src, answer = (BACKEND_SUCCESS, Some src)) ->
      navigator (load_selection s) = navigator s).
Proof.
  intros current_path answer. subst current_path answer.
  unfold load_selection.
  destruct (String.eqb "" (imv_navigator_selection (navigator s))) eqn:He.
  { apply String.eqb_eq in He. split; [congruence | reflexivity]. }
  apply String.eqb_neq in He.
  set (s1 := match backends s with
             | [] => emit (imv_log "No backends installed. Unable to load image.") s
             | _ :: _ => s
             end).
  assert (Hs1 : navigator s1 = navigator s /\ backends s1 = backends s
                /\ stdin_image_data s1 = stdin_image_data s)
    by (unfold s1; destruct (backends s) eqn:E; repeat split;
        first [exact E | reflexivity]).
  destruct Hs1 as (Hn1 & Hb1 & Hd1). rewrite Hb1, Hd1.
  destruct (open_chain (imv_navigator_selection (navigator s))
                       (stdin_image_data s) (backends s))
    as [probes [result new_source]].
  cbn [snd]. split.
  - intros _ Hfail.
    destruct result, new_source;
      try (cbn [navigator set_navigator emit_all set_trace];
           rewrite Hn1; reflexivity).
    exfalso. exact (Hfail _ eq_refl).
  - intros [Hempty | (src & Hok)]; [congruence|].
    inversion Hok; subst.
    rewrite install_source_navigator. exact Hn1.
Qed.

(** C3: the selection loop of [imv_run] terminates from every state.  With
    two polls per navigator entry and two more, the loop is left through a
    poll that answers false, with no change pending and with no more
    entries than before.  Every turn of the loop runs the resolution of
    the selected path: when it fails, the selected path is an entry of the
    navigator and the turn removes it, which leaves one entry fewer; when
    it succeeds, or when there is no selection, the navigator is as the
    poll left it and the next poll answers false. *)
Theorem selection_loop_terminates :
  forall (s : imv) (fuel : nat),
    (selection_fuel s <= fuel)%nat ->
    (exists s',
        selection_loop fuel s = Some s'
        /\ fst (imv_navigator_poll_changed (navigator s')) = false
        /\ (imv_navigator_length (navigator s')
            <= imv_navigator_length (navigator s))%nat)
    /\ (forall (s0 : imv) (n : nat),
          fst (imv_navigator_poll_changed (navigator s0)) = true ->
          let s1 :=
            set_navigator (snd (imv_navigator_poll_changed (navigator s0)))
                          s0 in
          let current_path := imv_navigator_selection (navigator s1) in
          let answer :=
            snd (open_chain current_path (stdin_image_data s1)
                            (backends s1)) in
          selection_loop (S n) s0 = selection_loop n (load_selection s1)
          /\ (current_path <> "" ->
              (forall src, answer <> (BACKEND_SUCCESS, Some src)) ->
              In current_path (paths (navigator s1))
              /\ navigator (load_selection s1)
                 = imv_navigator_remove (navigator s1) current_path
              /\ S (imv_navigator_length (navigator (load_selection s1)))
                 = imv_navigator_length (navigator s0))
          /\ (current_path = ""
              \/ (exists src, answer = (BACKEND_SUCCESS, Some src)) ->
              navigator (load_selection s1) = navigator s1
              /\ fst (imv_navigator_poll_changed
                        (navigator (load_selection s1))) = false)).
Proof.
  intros s fuel Hfuel. split.
  - destruct (selection_loop_enough_fuel fuel s) as (s' & Hrun & Hc & Hlen).
    + pose proof (selection_fuel_enough s). lia.
    + exists s'. repeat split; [exact Hrun | | exact Hlen].
      simpl. now rewrite Hc.
  - intros s0 n Hfired s1 current_path answer.
    destruct (load_selection_outcome s1) as [Hfail Hok].
    fold current_path in Hfail, Hok. fold answer in Hfail, Hok.
    split; [|split].
    + cbn [selection_loop]. unfold imv_navigator_poll_changed in *.
      cbn [fst] in Hfired. rewrite Hfired. reflexivity.
    + intros Hne Hno.
      assert (Hin : In current_path (paths (navigator s1)))
        by exact (selection_member _ Hne).
      split; [exact Hin|]. split; [exact (Hfail Hne Hno)|].
      rewrite (Hfail Hne Hno).
      exact (remove_member_shrinks (navigator s1) current_path Hin).
    + intros Hcase. rewrite (Hok Hcase). split; reflexivity.
Qed.

Lemma selection_loop_terminates_witness :
  exists s',
    selection_loop 8
      (install_all [rejecting_backend]
                   (imv_with_paths ["a.txt"; "b.txt"; "c.txt"])) = Some s'
    /\ fst (imv_navigator_poll_changed (navigator s')) = false
    /\ paths (navigator s') = [].
Proof.
  destruct (selection_loop_terminates
              (install_all [rejecting_backend]
                           (imv_with_paths ["a.txt"; "b.txt"; "c.txt"]))
              8%nat) as [(s' & Hrun & Hpoll & _) _].
  - vm_compute. apply le_n.
  - exists s'. split; [exact Hrun|]. split; [exact Hpoll|].
    vm_compute in Hrun. inversion Hrun. reflexivity.
Defined.

(** ** Teardown of sources *)



















(** ** Decode failures *)

Lemma bad_image_removes_selection (ticks : Z) (s : imv) :
  navigator (handle_event ticks BAD_IMAGE s)
  = imv_navigator_remove (navigator s)
      (imv_navigator_selection (navigator s)).
Proof.
  unfold handle_event.
  destruct (String.eqb (imv_navigator_selection (navigator s)) "-");
    [destruct (stdin_image_data s)|]; reflexivity.
Qed.

(** C5: what the code does when the selection has moved before the failure
    of the current source is handled.  The source opened from "a.png" is
    current; the user's "select_rel 1" is handled; the source reports its
    failure, which [source_callback] accepts because that source is still
    the installed one; handling the queued [BAD_IMAGE] then removes the
    selected "b.png", keeps "a.png", and the selection loop opens "a.png"
    a second time. *)
Theorem bad_image_removes_selection_not_failed_entry :
  exists s1 s5 : imv,
    selection_loop 6 failure_race_start = Some s1
    /\ source s1 = Some source_of_a
    /\ trace s1 = [backend_open_path "png" "a.png";
                   SDL_CreateThread_detached (source_load_first_frame source_of_a);
                   call "imv_viewport_set_title"]
    /\ sdl_queue (source_callback failure_of_a
                    (command_select_rel ["select_rel"; "1"] s1))
       = [BAD_IMAGE]
    /\ paths (navigator
                (drain_events 0
                   (source_callback failure_of_a
                      (command_select_rel ["select_rel"; "1"] s1))))
       = ["a.png"]
    /\ selection_loop 6
         (drain_events 0
            (source_callback failure_of_a
               (command_select_rel ["select_rel"; "1"] s1))) = Some s5
    /\ trace s5 = [backend_open_path "png" "a.png";
                   SDL_CreateThread_detached (source_load_first_frame source_of_a);
                   call "imv_viewport_set_title";
                   backend_open_path "png" "a.png";
                   SDL_CreateThread_detached (async_free_source_thread source_of_a);
                   SDL_CreateThread_detached (source_load_first_frame source_of_a);
                   call "imv_viewport_set_title"].
Proof.
  eexists. eexists.
  split; [vm_compute; reflexivity|].
  split; [vm_compute; reflexivity|].
  split; [vm_compute; reflexivity|].
  split; [vm_compute; reflexivity|].
  split; [vm_compute; reflexivity|].
  split; vm_compute; reflexivity.
Qed.

(** ** The wait at the end of an iteration *)

Lemma wait_timeout_in_range (now : Z) (s : imv) :
  CInt.in_uint now -> CInt.in_uint (next_frame_due s) ->
  wait_timeout now s
  = if view_playing s && (now <? next_frame_due s)
    then next_frame_due s - now else 1000.
Proof.
  intros Hnow Hdue. unfold wait_timeout.
  destruct (view_playing s); simpl; [|reflexivity].
  destruct (now <? next_frame_due s) eqn:Hlt; [|reflexivity].
  apply Z.ltb_lt in Hlt. apply CIntFacts.to_uint_small.
  unfold CInt.in_uint in *. lia.
Qed.

(** Within the idle second the timeout is the smaller of the two. *)
Lemma wait_timeout_is_min_when_near (now : Z) (s : imv) :
  CInt.in_uint now -> CInt.in_uint (next_frame_due s) ->
  view_playing s = true -> now < next_frame_due s ->
  next_frame_due s - now <= 1000 ->
  wait_timeout now s = Z.min 1000 (next_frame_due s - now).
Proof.
  intros Hnow Hdue Hplay Hlt Hnear.
  rewrite wait_timeout_in_range by assumption.
  rewrite Hplay. apply Z.ltb_lt in Hlt. rewrite Hlt. simpl. lia.
Qed.





(** ** The termination policy of the run loop *)

(** Decides goals [field (f s) = field s] for straight-line code. *)
Ltac same_field :=
  repeat match goal with
         | |- context [match ?x with _ => _ end] => destruct x eqn:?
         end;
  reflexivity.

Lemma load_selection_quit (s : imv) : quit (load_selection s) = quit s.
Proof.
  unfold load_selection.
  destruct (String.eqb "" (imv_navigator_selection (navigator s)));
    [reflexivity|].
  set (s1 := match backends s with
             | [] => emit (imv_log "No backends installed. Unable to load image.") s
             | _ :: _ => s
             end).
  assert (H1 : quit s1 = quit s) by (unfold s1; destruct (backends s); reflexivity).
  destruct (open_chain _ _ _) as [probes [result new_source]].
  destruct result, new_source; try exact H1.
  unfold install_source. cbn. destruct (source s1); exact H1.
Qed.

Lemma selection_loop_quit :
  forall (fuel : nat) (s s' : imv),
    selection_loop fuel s = Some s' -> quit s' = quit s.
Proof.
  induction fuel as [|fuel IH]; intros s s' Hrun; [discriminate|].
  simpl in Hrun.
  destruct (changed (navigator s)
            && negb (Nat.eqb (List.length (paths (navigator s))) 0)).
  - apply IH in Hrun. rewrite Hrun, load_selection_quit. reflexivity.
  - inversion Hrun. reflexivity.
Qed.

Lemma rescale_quit (ww wh : Z) (s : imv) : quit (rescale ww wh s) = quit s.
Proof. unfold rescale. same_field. Qed.

Lemma promote_quit (now : Z) (s : imv) :
  quit (promote_next_frame now s) = quit s.
Proof. unfold promote_next_frame. same_field. Qed.

Lemma slideshow_quit (now last : Z) (s : imv) :
  quit (slideshow now last s) = quit s.
Proof. unfold slideshow. same_field. Qed.

Lemma redraw_quit (b : bool) (s : imv) : quit (redraw b s) = quit s.
Proof. unfold redraw. same_field. Qed.

(** C7: the run loop is left exactly under the termination policy.  With
    [s1] the state once the pending events are handled, the iteration
    returns, and the loop runs no further iteration if and only if a quit
    was requested, or looping is disabled and the navigator has wrapped, or
    paths are not read from stdin and the navigator is empty.  While paths
    are read from stdin, an empty navigator alone does not end the loop. *)
Theorem run_loop_termination_policy :
  forall (env : frame_input) (s : imv),
    let s1 := drain_events (event_ticks env) s in
    exists r,
      imv_run_iteration (selection_fuel s1) env s = Some r
      /\ (leaves_loop r = true <->
          quit s1 = true
          \/ (loop_input s1 = false
              /\ imv_navigator_wrapped (navigator s1) = true)
          \/ (paths_from_stdin s1 = false
              /\ imv_navigator_length (navigator s1) = 0%nat)).
Proof.
  intros env s s1. unfold imv_run_iteration. fold s1.
  destruct (quit s1) eqn:Hquit.
  { eexists. split; [reflexivity|]. simpl. split; auto. }
  destruct (negb (loop_input s1) && imv_navigator_wrapped (navigator s1))
    eqn:Hwrap.
  { eexists. split; [reflexivity|]. simpl. split; [intros _ | reflexivity].
    apply andb_true_iff in Hwrap. destruct Hwrap as [Hl Hw].
    apply negb_true_iff in Hl. right. left. split; assumption. }
  destruct (negb (paths_from_stdin s1)
            && Nat.eqb (imv_navigator_length (navigator s1)) 0) eqn:Hempty.
  { eexists. split; [reflexivity|]. simpl. split; [intros _ | reflexivity].
    apply andb_true_iff in Hempty. destruct Hempty as [Hp He].
    apply negb_true_iff in Hp. apply Nat.eqb_eq in He.
    right. right. split; assumption. }
  destruct (selection_loop_enough_fuel (selection_fuel s1) s1
              (selection_fuel_enough s1)) as (s2 & Hrun & _ & _).
  rewrite Hrun. eexists. split; [reflexivity|].
  apply selection_loop_quit in Hrun.
  cbn [leaves_loop]. cbn [quit emit set_trace].
  rewrite redraw_quit, slideshow_quit, promote_quit, rescale_quit, Hrun, Hquit.
  split; [discriminate|].
  intros [H | [[Hl Hw] | [Hp He]]].
  - discriminate.
  - rewrite Hl, Hw in Hwrap. discriminate.
  - rewrite Hp, He in Hempty. discriminate.
Qed.

Lemma run_loop_termination_policy_witness :
  exists r,
    imv_run_iteration 2 idle_input waiting_for_paths_state = Some r
    /\ leaves_loop r = false.
Proof.
  destruct (run_loop_termination_policy idle_input waiting_for_paths_state)
    as (r & Hrun & Hpolicy).
  exists r. split; [exact Hrun|].
  destruct (leaves_loop r); [|reflexivity].
  destruct (proj1 Hpolicy eq_refl) as [H | [[H _] | [H _]]]; discriminate H.
Defined.

(** ** The next-frame timer *)

Lemma promote_needs_timer (now : Z) (s : imv) :
  next_frame_due s = 0 -> promote_next_frame now s = s.
Proof.
  intros Hdue. unfold promote_next_frame. rewrite Hdue.
  destruct (next_frame s); [|reflexivity].
  now rewrite andb_false_r.
Qed.

Lemma handle_new_image_due (ticks : Z) (bitmap : imv_bitmap) (frametime : Z)
    (s : imv) :
  next_frame_due (handle_new_image ticks bitmap frametime s)
  = if frametime =? 0 then 0 else CInt.to_uint (ticks + frametime).
Proof. unfold handle_new_image. same_field. Qed.

(** A still image leaves no timer. *)
Lemma handle_new_image_still (ticks : Z) (bitmap : imv_bitmap) (s : imv) :
  next_frame_due (handle_new_image ticks bitmap 0 s) = 0.
Proof. now rewrite handle_new_image_due. Qed.

(** Away from the wrap of the tick counter the timer of an animated image
    is not zero. *)
Lemma handle_new_image_animated (ticks : Z) (bitmap : imv_bitmap)
    (frametime : Z) (s : imv) :
  0 <= ticks -> 0 < frametime -> ticks + frametime < CInt.UINT_MODULUS ->
  next_frame_due (handle_new_image ticks bitmap frametime s)
  = ticks + frametime
  /\ next_frame_due (handle_new_image ticks bitmap frametime s) <> 0.
Proof.
  intros Ht Hf Hsum. rewrite handle_new_image_due.
  destruct (frametime =? 0) eqn:E; [apply Z.eqb_eq in E; lia|].
  rewrite CIntFacts.to_uint_small by (unfold CInt.in_uint; lia). lia.
Qed.

Lemma command_next_frame_due (args : list string) (s : imv)
    (src : imv_source) :
  source s = Some src -> load_next_frame src = true ->
  next_frame_due (command_next_frame args s) = 1.
Proof.
  intros Hsrc Hnext. unfold command_next_frame. now rewrite Hsrc, Hnext.
Qed.

(** C8: the first frame of an animation handled 100 ms before the 32-bit
    tick counter wraps, with a frame time of 100 ms.  The next frame is
    requested, yet the timer is set to zero, the value that means that no
    frame is pending, and no later iteration promotes the frame that
    arrives, whatever the time. *)
Theorem new_image_timer_wraps_to_zero :
  next_frame_due (handle_new_image 4294967196 frame0 100 animation_state) = 0
  /\ trace (handle_new_image 4294967196 frame0 100 animation_state)
     = [imv_bitmap_free frame0;
        SDL_CreateThread_detached (source_load_next_frame animated_source)]
  /\ forall (now : Z) (frame1 : imv_bitmap),
       promote_next_frame now
         (handle_new_frame frame1 100
            (handle_new_image 4294967196 frame0 100 animation_state))
       = handle_new_frame frame1 100
           (handle_new_image 4294967196 frame0 100 animation_state).
Proof.
  split; [reflexivity|]. split; [reflexivity|].
  intros now frame1. apply promote_needs_timer. reflexivity.
Qed.

(** ** The slideshow duration *)

Lemma labs_as_size_t (delta : Z) :
  CInt.in_long delta -> CInt.to_ulong (Z.abs delta) = Z.abs delta.
Proof.
  intros H. apply CIntFacts.to_ulong_small.
  unfold CInt.in_long, CInt.LONG_MIN, CInt.LONG_MAX in H.
  unfold CInt.in_ulong, CInt.ULONG_MODULUS. lia.
Qed.

Lemma set_slideshow_duration_value (name arg : string) (s : imv) :
  CInt.in_long (1000 * Libc.strtol arg) ->
  exists s',
    command_set_slideshow_duration [name; arg] s = Some s'
    /\ slideshow_image_duration s'
       = (if (1000 * Libc.strtol arg <? 0)
             && (slideshow_image_duration s <? Z.abs (1000 * Libc.strtol arg))
          then 0
          else (slideshow_image_duration s + 1000 * Libc.strtol arg)
               mod 2 ^ 64).
Proof.
  intros Hlong. unfold command_set_slideshow_duration.
  rewrite (proj2 (CIntFacts.in_longb_spec _) Hlong).
  eexists. split; [reflexivity|].
  cbn [slideshow_image_duration set_need_redraw set_slideshow_image_duration].
  rewrite labs_as_size_t by exact Hlong. reflexivity.
Qed.

Lemma adjust_slideshow_in_range :
  forall (words : list string) (s : imv),
    Forall (fun arg => CInt.in_long (1000 * Libc.strtol arg)) words ->
    CInt.in_ulong (slideshow_image_duration s) ->
    exists s',
      adjust_slideshow words s = Some s'
      /\ CInt.in_ulong (slideshow_image_duration s').
Proof.
  induction words as [|arg rest IH]; intros s Hall Hd; cbn [adjust_slideshow].
  - exists s. split; [reflexivity | exact Hd].
  - inversion Hall as [|? ? Harg Hrest]; subst.
    destruct (set_slideshow_duration_value "slideshow_duration" arg s Harg)
      as (s1 & Hrun & Hval).
    rewrite Hrun. apply IH; [exact Hrest|].
    rewrite Hval.
    destruct ((1000 * Libc.strtol arg <? 0)
              && (slideshow_image_duration s <? Z.abs (1000 * Libc.strtol arg))).
    + unfold CInt.in_ulong, CInt.ULONG_MODULUS. lia.
    + apply CIntFacts.to_ulong_range.
Qed.

(** C9 (amended): with [d] the duration, an [unsigned long], and [n] the
    argument read by [strtol], [1000 * n] fitting a [long], the command
    yields 0 when [1000 * n] is negative with [|1000 * n| > d], and
    [(d + 1000 * n) mod 2^64] otherwise, which is [d + 1000 * n] as long as
    that sum is below [2^64]; the duration never goes below zero, for any
    sequence of such adjustments. *)
Theorem slideshow_duration_saturates_at_zero :
  forall (name arg : string) (s : imv),
    CInt.in_ulong (slideshow_image_duration s) ->
    CInt.in_long (1000 * Libc.strtol arg) ->
    exists s',
      command_set_slideshow_duration [name; arg] s = Some s'
      /\ slideshow_image_duration s'
         = (if (1000 * Libc.strtol arg <? 0)
               && (slideshow_image_duration s
                   <? Z.abs (1000 * Libc.strtol arg))
            then 0
            else (slideshow_image_duration s + 1000 * Libc.strtol arg)
                 mod 2 ^ 64)
      /\ (slideshow_image_duration s + 1000 * Libc.strtol arg < 2 ^ 64 ->
          slideshow_image_duration s'
          = Z.max 0 (slideshow_image_duration s + 1000 * Libc.strtol arg))
      /\ need_redraw s' = true
      /\ (forall more : list string,
             Forall (fun a => CInt.in_long (1000 * Libc.strtol a)) more ->
             exists s'',
               adjust_slideshow more s' = Some s''
               /\ 0 <= slideshow_image_duration s'').
Proof.
  intros name arg s Hd Hlong.
  destruct (set_slideshow_duration_value name arg s Hlong)
    as (s' & Hrun & Hval).
  exists s'. split; [exact Hrun|]. split; [exact Hval|].
  assert (Hrange : CInt.in_ulong (slideshow_image_duration s')).
  { rewrite Hval.
    destruct ((1000 * Libc.strtol arg <? 0)
              && (slideshow_image_duration s <? Z.abs (1000 * Libc.strtol arg))).
    - unfold CInt.in_ulong, CInt.ULONG_MODULUS. lia.
    - apply CIntFacts.to_ulong_range. }
  split; [|split].
  - intros Htop. rewrite Hval.
    unfold CInt.in_ulong, CInt.ULONG_MODULUS in Hd.
    set (top := 2 ^ 64) in *.
    assert (Htopv : top = 18446744073709551616) by reflexivity.
    destruct (1000 * Libc.strtol arg <? 0) eqn:Hneg;
      [apply Z.ltb_lt in Hneg | apply Z.ltb_ge in Hneg]; cbn [andb].
    + destruct (slideshow_image_duration s <? Z.abs (1000 * Libc.strtol arg))
        eqn:Hbig; [apply Z.ltb_lt in Hbig | apply Z.ltb_ge in Hbig].
      * lia.
      * rewrite Z.mod_small by lia. lia.
    + rewrite Z.mod_small by lia. lia.
  - unfold command_set_slideshow_duration in Hrun.
    destruct (CInt.in_longb (1000 * Libc.strtol arg)); [|discriminate].
    inversion Hrun. reflexivity.
  - intros more Hmore.
    destruct (adjust_slideshow_in_range more s' Hmore Hrange)
      as (s'' & Hseq & Hr).
    exists s''. split; [exact Hseq | apply Hr].
Qed.

Lemma slideshow_duration_saturates_at_zero_witness :
  exists s' s'',
    command_set_slideshow_duration ["slideshow_duration"; "-5"]
      (set_slideshow_image_duration 3000 imv_create) = Some s'
    /\ slideshow_image_duration s' = 0
    /\ adjust_slideshow ["+2"; "-1"] s' = Some s''
    /\ 0 <= slideshow_image_duration s''.
Proof.
  destruct (slideshow_duration_saturates_at_zero
              "slideshow_duration" "-5"
              (set_slideshow_image_duration 3000 imv_create))
    as (s' & Hrun & _ & Hmax & _ & Hmore).
  - vm_compute. split; [discriminate | reflexivity].
  - vm_compute. split; discriminate.
  - destruct (Hmore ["+2"; "-1"]) as (s'' & Hseq & Hpos).
    + repeat constructor; vm_compute; discriminate.
    + exists s', s''. split; [exact Hrun|]. split; [|split; assumption].
      apply Hmax. reflexivity.
Defined.

(** The largest duration the command line accepts, in milliseconds, and
    one more second: the sum wraps around [2^64]. *)
Lemma slideshow_duration_wraps_at_top :
  option_map slideshow_image_duration
    (command_set_slideshow_duration ["slideshow_duration"; "+1"]
       (set_slideshow_image_duration 18446744073709551000 imv_create))
  = Some 384
  /\ Libc.strtol "+1" = 1
  /\ 384 <> 18446744073709551000 + 1000 * 1.
Proof.
  split; [vm_compute; reflexivity|]. split; [reflexivity | discriminate].
Qed.

(** ** The scaling mode *)

Lemma scaling_mode_cycle (m : enum_scaling_mode) :
  let next := fun m => scaling_mode_of_value
                         ((scaling_mode_value m + 1) mod SCALING_MODE_COUNT) in
  next (next (next m)) = m.
Proof. destruct m; reflexivity. Qed.

(** C10: [scaling_mode next] advances the mode by one modulo the three
    modes, so that three applications restore it; [none], [shrink] and
    [full] set the mode directly; each of these marks the view for rescale
    and redraw; any other argument leaves the whole state as it is. *)
Theorem scaling_mode_command :
  forall (name mode : string) (s : imv),
    scaling_mode (command_set_scaling_mode [name; "next"] s)
    = scaling_mode_of_value
        ((scaling_mode_value (scaling_mode s) + 1) mod SCALING_MODE_COUNT)
    /\ scaling_mode
         (command_set_scaling_mode [name; "next"]
            (command_set_scaling_mode [name; "next"]
               (command_set_scaling_mode [name; "next"] s)))
       = scaling_mode s
    /\ scaling_mode (command_set_scaling_mode [name; "none"] s) = SCALING_NONE
    /\ scaling_mode (command_set_scaling_mode [name; "shrink"] s) = SCALING_DOWN
    /\ scaling_mode (command_set_scaling_mode [name; "full"] s) = SCALING_FULL
    /\ (In mode ["next"; "none"; "shrink"; "full"] ->
        need_rescale (command_set_scaling_mode [name; mode] s) = true
        /\ need_redraw (command_set_scaling_mode [name; mode] s) = true)
    /\ (~ In mode ["next"; "none"; "shrink"; "full"] ->
        command_set_scaling_mode [name; mode] s = s).
Proof.
  intros name mode s. repeat split; try reflexivity.
  - simpl. apply scaling_mode_cycle.
  - destruct H as [H|[H|[H|[H|[]]]]]; subst mode; reflexivity.
  - destruct H as [H|[H|[H|[H|[]]]]]; subst mode; reflexivity.
  - intros Hother. simpl in Hother. unfold command_set_scaling_mode.
    destruct (String.eqb mode "next") eqn:E1;
      [apply String.eqb_eq in E1; subst mode; exfalso; apply Hother; auto 6|].
    destruct (String.eqb mode "none") eqn:E2;
      [apply String.eqb_eq in E2; subst mode; exfalso; apply Hother; auto 6|].
    destruct (String.eqb mode "shrink") eqn:E3;
      [apply String.eqb_eq in E3; subst mode; exfalso; apply Hother; auto 6|].
    destruct (String.eqb mode "full") eqn:E4;
      [apply String.eqb_eq in E4; subst mode; exfalso; apply Hother; auto 6|].
    reflexivity.
Qed.

Lemma scaling_mode_command_witness :
  need_rescale (command_set_scaling_mode ["scaling_mode"; "shrink"]
                  (set_need_rescale false imv_create)) = true
  /\ command_set_scaling_mode ["scaling_mode"; "fit"] imv_create = imv_create.
Proof.
  split.
  - apply (proj2 (proj2 (proj2 (proj2 (proj2
             (scaling_mode_command "scaling_mode" "shrink"
                (set_need_rescale false imv_create))))))).
    simpl. auto.
  - apply (proj2 (proj2 (proj2 (proj2 (proj2 (proj2
             (scaling_mode_command "scaling_mode" "fit" imv_create))))))).
    simpl. intros H.
    repeat (destruct H as [H|H]; [discriminate|]). exact H.
Defined.

(** * Further properties *)

(** ** Ownership of bitmaps *)

Lemma freed_bitmaps_app (a b : list effect) :
  freed_bitmaps (a ++ b) = freed_bitmaps a ++ freed_bitmaps b.
Proof. unfold freed_bitmaps. apply flat_map_app. Qed.

Lemma queued_bitmaps_app (a b : list SDL_Event) :
  queued_bitmaps (a ++ b) = queued_bitmaps a ++ queued_bitmaps b.
Proof. unfold queued_bitmaps. apply flat_map_app. Qed.

(** A step that adds calls without releasing a bitmap and leaves the
    prefetched frame and the queue alone keeps the pool. *)
Lemma bitmap_pool_same (s s' : imv) (added : list effect) :
  trace s' = trace s ++ added ->
  freed_bitmaps added = [] ->
  next_frame s' = next_frame s ->
  sdl_queue s' = sdl_queue s ->
  bitmap_pool s' = bitmap_pool s.
Proof.
  intros Ht Hf Hn Hq. unfold bitmap_pool, held_bitmaps.
  rewrite Ht, Hn, Hq, freed_bitmaps_app, Hf, app_nil_r. reflexivity.
Qed.

(** Decides goals [bitmap_pool (f s) = bitmap_pool s] for straight-line
    code that releases nothing. *)
Ltac pool_unchanged :=
  repeat match goal with
         | |- context [match ?x with _ => _ end] => destruct x eqn:?
         end;
  first [ reflexivity
        | eapply bitmap_pool_same;
          [ cbn; rewrite <- ?app_assoc; reflexivity
          | reflexivity | reflexivity | reflexivity ]
        | eapply bitmap_pool_same with (added := []);
          [ cbn; rewrite ?app_nil_r; reflexivity
          | reflexivity | reflexivity | reflexivity ] ].

Lemma handle_new_image_pool (ticks : Z) (bitmap : imv_bitmap) (frametime : Z)
    (s : imv) :
  Permutation (bitmap_pool (handle_new_image ticks bitmap frametime s))
              (bitmap :: bitmap_pool s).
Proof.
  assert (H : exists added,
             trace (handle_new_image ticks bitmap frametime s)
             = trace s ++ imv_bitmap_free bitmap :: added
             /\ freed_bitmaps added = []
             /\ next_frame (handle_new_image ticks bitmap frametime s)
                = next_frame s
             /\ sdl_queue (handle_new_image ticks bitmap frametime s)
                = sdl_queue s).
  { unfold handle_new_image.
    repeat match goal with
           | |- context [match ?x with _ => _ end] => destruct x eqn:?
           end;
      eexists; (split; [cbn; rewrite <- ?app_assoc; reflexivity|]);
      repeat split; reflexivity. }
  destruct H as (added & Ht & Hf & Hn & Hq).
  unfold bitmap_pool, held_bitmaps. rewrite Ht, Hn, Hq.
  rewrite freed_bitmaps_app. simpl. rewrite Hf.
  rewrite <- app_assoc. simpl.
  apply Permutation_sym, Permutation_middle.
Qed.

Lemma handle_new_frame_pool (bitmap : imv_bitmap) (frametime : Z) (s : imv) :
  Permutation (bitmap_pool (handle_new_frame bitmap frametime s))
              (bitmap :: bitmap_pool s).
Proof.
  unfold handle_new_frame, bitmap_pool, held_bitmaps.
  destruct (next_frame s) as [old|]; cbn.
  - rewrite freed_bitmaps_app. simpl. rewrite <- app_assoc. simpl.
    apply Permutation_sym.
    etransitivity; [apply Permutation_middle|].
    apply Permutation_app_head. apply perm_swap.
  - apply Permutation_sym, Permutation_middle.
Qed.

(** Handling an event moves the bitmap it carries, if any, from the queue
    to the released ones or to the prefetched frame. *)
Lemma handle_event_pool (ticks : Z) (e : SDL_Event) (s : imv) :
  Permutation (bitmap_pool (handle_event ticks e s))
              (queued_bitmaps [e] ++ bitmap_pool s).
Proof.
  destruct e as [data1 code data2| |data1|]; simpl.
  - destruct data2; [apply handle_new_image_pool | apply handle_new_frame_pool].
  - replace (bitmap_pool _) with (bitmap_pool s); [reflexivity|].
    symmetry.
    destruct (String.eqb (imv_navigator_selection (navigator s)) "-");
      [destruct (stdin_image_data s)|]; pool_unchanged.
  - replace (bitmap_pool _) with (bitmap_pool s); [reflexivity|].
    symmetry. unfold imv_add_path. pool_unchanged.
  - reflexivity.
Qed.

Lemma bitmap_pool_pop (e : SDL_Event) (rest : list SDL_Event) (s : imv) :
  sdl_queue s = e :: rest ->
  Permutation (queued_bitmaps [e] ++ bitmap_pool (set_sdl_queue rest s))
              (bitmap_pool s).
Proof.
  intros Hq. unfold bitmap_pool, held_bitmaps. rewrite Hq. cbn.
  rewrite app_nil_r.
  change (queued_bitmaps (e :: rest))
    with (queued_bitmaps [e] ++ queued_bitmaps rest).
  rewrite !app_assoc. apply Permutation_app_tail.
  rewrite <- app_assoc. apply Permutation_app_comm.
Qed.

Lemma poll_events_pool (ticks : Z) :
  forall (queue : list SDL_Event) (s : imv),
    sdl_queue s = queue ->
    Permutation (bitmap_pool (poll_events ticks queue s)) (bitmap_pool s).
Proof.
  induction queue as [|e rest IH]; intros s Hq; simpl.
  - reflexivity.
  - destruct (quit s); [reflexivity|].
    etransitivity; [apply IH|].
    + destruct e as [data1 code data2| |data1|]; simpl.
      * destruct data2; unfold handle_new_image, handle_new_frame;
          repeat match goal with
                 | |- context [match ?x with _ => _ end] => destruct x eqn:?
                 end; reflexivity.
      * destruct (String.eqb _ "-"); [destruct (stdin_image_data _)|];
          reflexivity.
      * reflexivity.
      * reflexivity.
    + etransitivity; [apply handle_event_pool|].
      apply bitmap_pool_pop. exact Hq.
Qed.

Lemma keeps_bitmaps_refl (s s' : imv) :
  trace s' = trace s -> next_frame s' = next_frame s ->
  sdl_queue s' = sdl_queue s -> keeps_bitmaps s s'.
Proof.
  intros Ht Hn Hq. exists []. rewrite app_nil_r. repeat split; assumption.
Qed.

Lemma keeps_bitmaps_trans (s1 s2 s3 : imv) :
  keeps_bitmaps s1 s2 -> keeps_bitmaps s2 s3 -> keeps_bitmaps s1 s3.
Proof.
  intros (a & Ha & Fa & Na & Qa) (b & Hb & Fb & Nb & Qb). exists (a ++ b).
  rewrite Hb, Ha, app_assoc, freed_bitmaps_app, Fa, Fb, Nb, Na, Qb, Qa.
  repeat split.
Qed.

Lemma keeps_bitmaps_pool (s s' : imv) :
  keeps_bitmaps s s' -> bitmap_pool s' = bitmap_pool s.
Proof.
  intros (added & Ht & Hf & Hn & Hq).
  exact (bitmap_pool_same s s' added Ht Hf Hn Hq).
Qed.

(** Decides goals [keeps_bitmaps s (f s)] for straight-line code. *)
Ltac keeps_bitmaps_step :=
  repeat match goal with
         | |- context [match ?x with _ => _ end] => destruct x eqn:?
         end;
  first [ apply keeps_bitmaps_refl; reflexivity
        | eexists; split; [cbn; rewrite <- ?app_assoc; reflexivity|];
          repeat split; reflexivity ].

Lemma open_chain_releases_nothing current_path data
    (chain : list imv_backend) :
  freed_bitmaps (fst (open_chain current_path data chain)) = [].
Proof.
  induction chain as [|b chain IH]; [reflexivity|].
  simpl. unfold backend_open.
  destruct (String.eqb "-" current_path).
  - destruct (open_memory b) as [f|]; [|exact IH].
    destruct (f data) as [[] src]; try reflexivity.
    destruct (open_chain current_path data chain). simpl in *. exact IH.
  - destruct (open_path b) as [f|]; [|exact IH].
    destruct (f current_path) as [[] src]; try reflexivity.
    destruct (open_chain current_path data chain). simpl in *. exact IH.
Qed.

Lemma load_selection_keeps_bitmaps (s : imv) :
  keeps_bitmaps s (load_selection s).
Proof.
  unfold load_selection.
  destruct (String.eqb "" (imv_navigator_selection (navigator s)));
    [apply keeps_bitmaps_refl; reflexivity|].
  set (s1 := match backends s with
             | [] => emit (imv_log "No backends installed. Unable to load image.") s
             | _ :: _ => s
             end).
  assert (H1 : keeps_bitmaps s s1)
    by (unfold s1; destruct (backends s); keeps_bitmaps_step).
  apply (keeps_bitmaps_trans _ _ _ H1).
  pose proof (open_chain_releases_nothing
                (imv_navigator_selection (navigator s))
                (stdin_image_data s1) (backends s1)) as Hp.
  destruct (open_chain (imv_navigator_selection (navigator s))
                       (stdin_image_data s1) (backends s1))
    as [probes [result new_source]].
  simpl in Hp.
  assert (H2 : keeps_bitmaps s1 (emit_all probes s1))
    by (exists probes; repeat split; [exact Hp]).
  apply (keeps_bitmaps_trans _ _ _ H2).
  destruct result, new_source;
    try (apply keeps_bitmaps_refl; reflexivity).
  unfold install_source. keeps_bitmaps_step.
Qed.

Lemma selection_loop_keeps_bitmaps :
  forall (fuel : nat) (s s' : imv),
    selection_loop fuel s = Some s' -> keeps_bitmaps s s'.
Proof.
  induction fuel as [|fuel IH]; intros s s' Hrun; [discriminate|].
  simpl in Hrun.
  destruct (changed (navigator s)
            && negb (Nat.eqb (List.length (paths (navigator s))) 0)).
  - apply IH in Hrun.
    refine (keeps_bitmaps_trans _ _ _ _ Hrun).
    refine (keeps_bitmaps_trans _ _ _ _ (load_selection_keeps_bitmaps _)).
    apply keeps_bitmaps_refl; reflexivity.
  - inversion Hrun. apply keeps_bitmaps_refl; reflexivity.
Qed.

Lemma rescale_keeps_bitmaps (ww wh : Z) (s : imv) :
  keeps_bitmaps s (rescale ww wh s).
Proof. unfold rescale. keeps_bitmaps_step. Qed.

Lemma slideshow_keeps_bitmaps (now last : Z) (s : imv) :
  keeps_bitmaps s (slideshow now last s).
Proof. unfold slideshow. keeps_bitmaps_step. Qed.

Lemma redraw_keeps_bitmaps (b : bool) (s : imv) :
  keeps_bitmaps s (redraw b s).
Proof. unfold redraw. keeps_bitmaps_step. Qed.

(** Promotion hands the prefetched frame to the image and releases it. *)
Lemma promote_pool (now : Z) (s : imv) :
  bitmap_pool (promote_next_frame now s) = bitmap_pool s.
Proof.
  unfold promote_next_frame, bitmap_pool, held_bitmaps.
  destruct (next_frame s) as [frame|] eqn:Hn; [|now rewrite Hn].
  destruct (view_playing s && negb (next_frame_due s =? 0)
            && (next_frame_due s <=? now)); [|now rewrite Hn].
  cbn [source set_need_redraw set_next_frame_duration set_next_frame_due
       set_next_frame emit set_trace set_current_image_height
       set_current_image_width set_image].
  destruct (source s) as [src|]; [destruct (load_next_frame src)|];
    cbn; rewrite ?freed_bitmaps_app; cbn;
    rewrite <- ?app_assoc; rewrite ?app_nil_r; reflexivity.
Qed.

(** X1: one iteration of [imv_run] neither loses nor duplicates a bitmap:
    the bitmaps released, owned as the prefetched frame or still queued
    after the iteration are those of before, each as often as before; so
    if no bitmap was in two places before, none is released twice. *)
Theorem iteration_conserves_bitmaps :
  forall (fuel : nat) (env : frame_input) (s s' : imv) (c : loop_control),
    imv_run_iteration fuel env s = Some (c, s') ->
    Permutation (bitmap_pool s') (bitmap_pool s)
    /\ (NoDup (bitmap_pool s) -> NoDup (bitmap_pool s')).
Proof.
  intros fuel env s s' c Hrun.
  assert (Hperm : Permutation (bitmap_pool s') (bitmap_pool s)).
  { unfold imv_run_iteration, drain_events in Hrun.
    pose proof (poll_events_pool (event_ticks env) (sdl_queue s) s eq_refl)
      as Hdrain.
    set (s1 := poll_events (event_ticks env) (sdl_queue s) s) in *.
    refine (perm_trans _ Hdrain).
    destruct (quit s1); [inversion Hrun; reflexivity|].
    destruct (negb (loop_input s1) && imv_navigator_wrapped (navigator s1));
      [inversion Hrun; reflexivity|].
    destruct (negb (paths_from_stdin s1)
              && Nat.eqb (imv_navigator_length (navigator s1)) 0).
    - inversion Hrun. subst s'.
      rewrite (bitmap_pool_same s1 _ [imv_log "No input files left. Exiting."]);
        reflexivity.
    - destruct (selection_loop fuel s1) as [s2|] eqn:Hloop; [|discriminate].
      inversion Hrun. subst s'. clear Hrun.
      apply selection_loop_keeps_bitmaps, keeps_bitmaps_pool in Hloop.
      rewrite <- Hloop.
      set (s3 := rescale _ _ s2).
      assert (H3 : bitmap_pool s3 = bitmap_pool s2)
        by apply keeps_bitmaps_pool, rescale_keeps_bitmaps.
      set (s4 := promote_next_frame _ s3).
      assert (H4 : bitmap_pool s4 = bitmap_pool s3) by apply promote_pool.
      set (s5 := slideshow _ _ s4).
      assert (H5 : bitmap_pool s5 = bitmap_pool s4)
        by apply keeps_bitmaps_pool, slideshow_keeps_bitmaps.
      set (s6 := redraw _ s5).
      assert (H6 : bitmap_pool s6 = bitmap_pool s5)
        by apply keeps_bitmaps_pool, redraw_keeps_bitmaps.
      rewrite <- H3, <- H4, <- H5, <- H6.
      rewrite (bitmap_pool_same s6 _ [SDL_WaitEventTimeout
                                        (CInt.to_int
                                           (wait_timeout (current_time env)
                                                         s6))]);
        reflexivity. }
  split; [exact Hperm|].
  intros Hnodup. apply Permutation_sym in Hperm.
  exact (Permutation_NoDup Hperm Hnodup).
Qed.

Lemma iteration_conserves_bitmaps_witness :
  Permutation (bitmap_pool two_frames_result) [frame0; frame1]
  /\ NoDup (bitmap_pool two_frames_result).
Proof.
  destruct (iteration_conserves_bitmaps 2%nat two_frames_input
              two_frames_queued two_frames_result Next)
    as [Hperm Hnodup].
  - vm_compute. reflexivity.
  - split; [exact Hperm|]. apply Hnodup.
    repeat constructor; simpl; intuition discriminate.
Defined.

(** X2: [source_callback] takes over the bitmap of every message exactly
    once.  A message from a source that is no longer current has its
    bitmap released at once, by the one call the trace gains, and queues
    nothing; a message from the current source releases nothing and
    queues one event, [NEW_IMAGE] with the bitmap or [BAD_IMAGE] without.
    The prefetched frame is not touched, so the bitmaps of the
    application are those of before and the one of the message. *)
Theorem source_callback_takes_bitmap_once :
  forall (msg : imv_source_message) (s : imv),
    Permutation (bitmap_pool (source_callback msg s))
                (message_bitmaps msg ++ bitmap_pool s)
    /\ next_frame (source_callback msg s) = next_frame s
    /\ (same_source (Some (msg_source msg)) (source s) = false ->
        trace (source_callback msg s)
        = trace s ++ map imv_bitmap_free (message_bitmaps msg)
        /\ sdl_queue (source_callback msg s) = sdl_queue s)
    /\ (same_source (Some (msg_source msg)) (source s) = true ->
        trace (source_callback msg s) = trace s
        /\ sdl_queue (source_callback msg s)
           = sdl_queue s
             ++ [match msg_bitmap msg with
                 | Some bitmap =>
                     NEW_IMAGE bitmap (msg_frametime msg)
                       (negb (same_source (Some (msg_source msg))
                                          (last_source s)))
                 | None => BAD_IMAGE
                 end]).
Proof.
  intros msg s. split; [|split; [|split]].
  - unfold source_callback, message_bitmaps, bitmap_pool, held_bitmaps.
    destruct (negb (same_source (Some (msg_source msg)) (source s)));
      destruct (msg_bitmap msg) as [bitmap|]; cbn;
      rewrite ?freed_bitmaps_app, ?queued_bitmaps_app, ?app_nil_r; cbn;
      try reflexivity.
    + rewrite <- app_assoc. simpl.
      apply Permutation_sym, Permutation_middle.
    + fold (freed_bitmaps (trace s)). rewrite !app_assoc.
      apply Permutation_sym, Permutation_cons_append.
  - unfold source_callback.
    destruct (negb (same_source (Some (msg_source msg)) (source s)));
      destruct (msg_bitmap msg); reflexivity.
  - intros Hstale. unfold source_callback, message_bitmaps.
    rewrite Hstale. cbn [negb].
    destruct (msg_bitmap msg); cbn; rewrite ?app_nil_r; split; reflexivity.
  - intros Hcurrent. unfold source_callback. rewrite Hcurrent. cbn [negb].
    destruct (msg_bitmap msg); split; reflexivity.
Qed.

Lemma source_callback_takes_bitmap_once_witness :
  (trace (source_callback stale_example_message imv_create)
   = trace imv_create
     ++ [imv_bitmap_free {| bmp_id := 7; width := 640; height := 480 |}]
   /\ sdl_queue (source_callback stale_example_message imv_create)
      = sdl_queue imv_create)
  /\ (trace (source_callback stale_example_message animation_state)
      = trace animation_state
      /\ sdl_queue (source_callback stale_example_message animation_state)
         = [NEW_IMAGE {| bmp_id := 7; width := 640; height := 480 |} 0 true]).
Proof.
  split.
  - destruct (source_callback_takes_bitmap_once stale_example_message
                                                imv_create)
      as (_ & _ & Hstale & _).
    exact (Hstale eq_refl).
  - destruct (source_callback_takes_bitmap_once stale_example_message
                                                animation_state)
      as (_ & _ & _ & Hcurrent).
    exact (Hcurrent eq_refl).
Defined.

(** X3: on shutdown [imv_free] releases the prefetched frame, once, and
    nothing else; bitmaps of events still queued are not released. *)
Theorem imv_free_releases_prefetched_frame :
  forall s : imv,
    freed_bitmaps (imv_free s) = freed_bitmaps (trace s) ++ held_bitmaps s
    /\ Permutation (freed_bitmaps (imv_free s)
                    ++ queued_bitmaps (sdl_queue s))
                   (bitmap_pool s).
Proof.
  intros s.
  assert (H : freed_bitmaps (imv_free s)
              = freed_bitmaps (trace s) ++ held_bitmaps s).
  { unfold imv_free, held_bitmaps. rewrite !freed_bitmaps_app.
    destruct (source s), (next_frame s), (stdin_image_data s);
      cbn; rewrite ?app_nil_r; reflexivity. }
  split; [exact H|].
  rewrite H. unfold bitmap_pool. rewrite <- app_assoc. reflexivity.
Qed.

(** ** Dirty flags, pausing and the slideshow *)

Lemma redraw_clears_flag (b : bool) (s : imv) :
  need_redraw (redraw b s) = false.
Proof.
  unfold redraw. destruct b; cbn.
  - reflexivity.
  - destruct (need_redraw s) eqn:E; [reflexivity | exact E].
Qed.

Lemma redraw_need_rescale (b : bool) (s : imv) :
  need_rescale (redraw b s) = need_rescale s.
Proof. unfold redraw. same_field. Qed.

Lemma slideshow_need_rescale (now last : Z) (s : imv) :
  need_rescale (slideshow now last s) = need_rescale s.
Proof. unfold slideshow. same_field. Qed.

Lemma promote_need_rescale (now : Z) (s : imv) :
  need_rescale (promote_next_frame now s) = need_rescale s.
Proof. unfold promote_next_frame. same_field. Qed.

Lemma rescale_clears_flag (ww wh : Z) (s : imv) :
  need_rescale (rescale ww wh s) = false.
Proof.
  unfold rescale. destruct (need_rescale s) eqn:E; [|exact E].
  cbn. destruct (scaling_mode s); try reflexivity.
  destruct ((current_image_width s <? ww) && (current_image_height s <? wh));
    reflexivity.
Qed.

(** X4: an iteration of [imv_run] that goes on to wait leaves no dirty flag
    behind: whatever was pending, the view has been rescaled and the window
    redrawn, and [need_rescale] and [need_redraw] are both false. *)
Theorem iteration_clears_dirty_flags :
  forall (fuel : nat) (env : frame_input) (s s' : imv),
    imv_run_iteration fuel env s = Some (Next, s') ->
    quit s' = false ->
    need_redraw s' = false /\ need_rescale s' = false.
Proof.
  intros fuel env s s' Hrun Hquit.
  unfold imv_run_iteration in Hrun.
  set (s1 := drain_events (event_ticks env) s) in *.
  destruct (quit s1); [discriminate|].
  destruct (negb (loop_input s1) && imv_navigator_wrapped (navigator s1));
    [discriminate|].
  destruct (negb (paths_from_stdin s1)
            && Nat.eqb (imv_navigator_length (navigator s1)) 0).
  - inversion Hrun as [Hs']. rewrite <- Hs' in Hquit. discriminate.
  - destruct (selection_loop fuel s1) as [s2|]; [|discriminate].
    inversion Hrun as [Hs']. cbn [need_redraw need_rescale emit set_trace].
    split.
    + apply redraw_clears_flag.
    + rewrite redraw_need_rescale, slideshow_need_rescale,
        promote_need_rescale. apply rescale_clears_flag.
Qed.

Lemma iteration_clears_dirty_flags_witness :
  need_redraw long_frame_state = true
  /\ need_rescale long_frame_state = true
  /\ need_redraw long_frame_result = false
  /\ need_rescale long_frame_result = false.
Proof.
  split; [reflexivity|]. split; [reflexivity|].
  apply (iteration_clears_dirty_flags 2%nat idle_input long_frame_state).
  - vm_compute. reflexivity.
  - reflexivity.
Defined.

(** X5: while playback is paused nothing is promoted and the loop idles:
    the promotion leaves the state as it is whatever the time, the wait
    is the idle second, and a frame requested with [next_frame] is
    prefetched when it arrives but not displayed. *)
Theorem paused_playback_shows_no_frame :
  forall (s : imv) (now : Z) (args : list string) (bitmap : imv_bitmap)
         (frametime : Z),
    view_playing s = false ->
    promote_next_frame now s = s
    /\ wait_timeout now s = 1000
    /\ promote_next_frame now
         (handle_new_frame bitmap frametime (command_next_frame args s))
       = handle_new_frame bitmap frametime (command_next_frame args s)
    /\ next_frame (handle_new_frame bitmap frametime
                     (command_next_frame args s)) = Some bitmap.
Proof.
  intros s now args bitmap frametime Hpaused.
  assert (Hpromote : forall t, view_playing t = false ->
                               promote_next_frame now t = t).
  { intros t Ht. unfold promote_next_frame. rewrite Ht.
    destruct (next_frame t); reflexivity. }
  split; [apply Hpromote, Hpaused|].
  split; [unfold wait_timeout; now rewrite Hpaused|].
  split; [|reflexivity].
  apply Hpromote.
  unfold handle_new_frame, command_next_frame.
  destruct (source s) as [src|]; [destruct (load_next_frame src)|];
    cbn; destruct (next_frame s); exact Hpaused.
Qed.

Lemma paused_playback_shows_no_frame_witness :
  promote_next_frame 5000 paused_state = paused_state
  /\ wait_timeout 50 paused_state = 1000.
Proof.
  destruct (paused_playback_shows_no_frame paused_state 5000 [] frame0 0
              eq_refl) as (H1 & _).
  destruct (paused_playback_shows_no_frame paused_state 50 [] frame0 0
              eq_refl) as (_ & H2 & _).
  split; assumption.
Defined.

Lemma tick_difference (last elapsed : Z) :
  0 <= elapsed < CInt.UINT_MODULUS ->
  CInt.to_uint (CInt.to_uint (last + elapsed) - CInt.to_uint last) = elapsed.
Proof.
  intros H. unfold CInt.to_uint.
  rewrite <- Zminus_mod.
  replace (last + elapsed - last) with elapsed by lia.
  apply Z.mod_small. exact H.
Qed.

(** X6: the slideshow measures time across the wrap of the 32-bit tick
    counter.  When [elapsed] milliseconds (fewer than 2^32) have really
    passed since the previous iteration, a slideshow that is on adds
    exactly that much to the time shown, whatever the tick counts; once
    the duration is reached the selection moves on by one and the time
    restarts from zero, so that after the step the time shown is below the
    duration. *)
Theorem slideshow_measures_real_time :
  forall (s : imv) (last elapsed : Z),
    0 <= elapsed < CInt.UINT_MODULUS ->
    0 <= slideshow_time_elapsed s ->
    slideshow_time_elapsed s + elapsed < CInt.ULONG_MODULUS ->
    0 < slideshow_image_duration s ->
    let s' := slideshow (CInt.to_uint (last + elapsed)) (CInt.to_uint last) s in
    need_redraw s' = true
    /\ 0 <= slideshow_time_elapsed s' < slideshow_image_duration s
    /\ (slideshow_time_elapsed s + elapsed < slideshow_image_duration s ->
        slideshow_time_elapsed s' = slideshow_time_elapsed s + elapsed
        /\ navigator s' = navigator s)
    /\ (slideshow_image_duration s <= slideshow_time_elapsed s + elapsed ->
        slideshow_time_elapsed s' = 0
        /\ navigator s' = imv_navigator_select_rel (navigator s) 1).
Proof.
  intros s last elapsed He H0 Hsum Hd s'.
  unfold s', slideshow.
  destruct (slideshow_image_duration s =? 0) eqn:Hz;
    [apply Z.eqb_eq in Hz; lia|].
  cbn [negb]. rewrite tick_difference by exact He.
  cbn [slideshow_image_duration slideshow_time_elapsed set_need_redraw
       set_slideshow_time_elapsed].
  rewrite CIntFacts.to_ulong_small
    by (unfold CInt.in_ulong; lia).
  destruct (slideshow_image_duration s <=? slideshow_time_elapsed s + elapsed)
    eqn:Hreach; [apply Z.leb_le in Hreach | apply Z.leb_gt in Hreach]; cbn.
  - repeat split; try lia.
  - repeat split; try lia.
Qed.

Lemma slideshow_measures_real_time_witness :
  slideshow_time_elapsed
    (slideshow (CInt.to_uint (4294967000 + 400)) (CInt.to_uint 4294967000)
               slideshow_state) = 2900
  /\ cur_path (navigator
       (slideshow (CInt.to_uint (4294967000 + 600)) (CInt.to_uint 4294967000)
                  slideshow_state)) = 1%nat.
Proof.
  assert (H400 : 0 <= 400 < CInt.UINT_MODULUS)
    by (vm_compute; split; [discriminate | reflexivity]).
  assert (H600 : 0 <= 600 < CInt.UINT_MODULUS)
    by (vm_compute; split; [discriminate | reflexivity]).
  assert (H0 : 0 <= slideshow_time_elapsed slideshow_state)
    by (vm_compute; discriminate).
  split.
  - destruct (slideshow_measures_real_time slideshow_state 4294967000 400
                H400 H0 eq_refl eq_refl) as (_ & _ & Hadd & _).
    destruct Hadd as [He _]; [reflexivity|].
    rewrite He. reflexivity.
  - destruct (slideshow_measures_real_time slideshow_state 4294967000 600
                H600 H0 eq_refl eq_refl) as (_ & _ & _ & Hnext).
    destruct Hnext as [_ Hnav]; [vm_compute; discriminate|].
    rewrite Hnav. reflexivity.
Defined.

(** ** From the callback to the display *)

Lemma same_source_refl (src : imv_source) :
  same_source (Some src) (Some src) = true.
Proof. apply Nat.eqb_refl. Qed.

Lemma source_callback_current (msg : imv_source_message) (s : imv) :
  same_source (Some (msg_source msg)) (source s) = true ->
  source_callback msg s
  = match msg_bitmap msg with
    | Some bitmap =>
        SDL_PushEvent
          (NEW_IMAGE bitmap (msg_frametime msg)
             (negb (same_source (Some (msg_source msg)) (last_source s))))
          (set_last_source (Some (msg_source msg)) s)
    | None => SDL_PushEvent BAD_IMAGE s
    end.
Proof. intros H. unfold source_callback. now rewrite H. Qed.

Lemma handle_new_image_fields (ticks : Z) (bitmap : imv_bitmap)
    (frametime : Z) (s : imv) :
  let s' := handle_new_image ticks bitmap frametime s in
  quit s' = quit s
  /\ image s' = Some bitmap
  /\ current_image_width s' = width bitmap
  /\ current_image_height s' = height bitmap
  /\ next_frame s' = next_frame s
  /\ next_frame_duration s' = 0
  /\ loading s' = false
  /\ view_playing s' = view_playing s
  /\ source s' = source s
  /\ sdl_queue s' = sdl_queue s.
Proof.
  unfold handle_new_image.
  repeat match goal with
         | |- context [match ?x with _ => _ end] => destruct x eqn:?
         end;
    repeat split; reflexivity.
Qed.

(** X7: the first two bitmaps of a newly installed source.  When the
    installed source is not yet the one that last delivered a bitmap, its
    first bitmap is queued as a new image and its second as a new frame;
    once both events are handled the first bitmap is the one displayed,
    with its dimensions, the second is the prefetched frame with its own
    frame time, the timer is set from the frame time of the first (zero for
    a still image), and the image no longer counts as loading. *)
Theorem first_bitmap_displayed_second_prefetched :
  forall (s : imv) (src : imv_source) (b1 b2 : imv_bitmap)
         (t1 t2 ticks : Z),
    same_source (Some src) (source s) = true ->
    same_source (Some src) (last_source s) = false ->
    sdl_queue s = [] ->
    quit s = false ->
    let queued :=
      source_callback
        {| msg_source := src; msg_bitmap := Some b2; msg_frametime := t2 |}
        (source_callback
           {| msg_source := src; msg_bitmap := Some b1; msg_frametime := t1 |}
           s) in
    sdl_queue queued = [NEW_IMAGE b1 t1 true; NEW_IMAGE b2 t2 false]
    /\ image (drain_events ticks queued) = Some b1
    /\ current_image_width (drain_events ticks queued) = width b1
    /\ current_image_height (drain_events ticks queued) = height b1
    /\ next_frame (drain_events ticks queued) = Some b2
    /\ next_frame_duration (drain_events ticks queued) = t2
    /\ next_frame_due (drain_events ticks queued)
       = (if t1 =? 0 then 0 else CInt.to_uint (ticks + t1))
    /\ loading (drain_events ticks queued) = false
    /\ sdl_queue (drain_events ticks queued) = [].
Proof.
  intros s src b1 b2 t1 t2 ticks Hcur Hlast Hq Hquit queued.
  assert (Hqueued :
            queued
            = SDL_PushEvent (NEW_IMAGE b2 t2 false)
                (SDL_PushEvent (NEW_IMAGE b1 t1 true)
                   (set_last_source (Some src) s))).
  { unfold queued.
    rewrite (source_callback_current _ s) by exact Hcur.
    cbn [msg_bitmap msg_source msg_frametime]. rewrite Hlast.
    rewrite source_callback_current by exact Hcur.
    cbn [msg_bitmap msg_source msg_frametime last_source SDL_PushEvent
         set_sdl_queue set_last_source].
    rewrite same_source_refl. reflexivity. }
  assert (Hqueue : sdl_queue queued
                   = [NEW_IMAGE b1 t1 true; NEW_IMAGE b2 t2 false]).
  { rewrite Hqueued. cbn. now rewrite Hq. }
  split; [exact Hqueue|].
  assert (Hquit' : quit queued = false).
  { rewrite Hqueued. exact Hquit. }
  unfold drain_events. rewrite Hqueue.
  cbn [poll_events]. rewrite Hquit'.
  cbn [handle_event].
  set (s1 := handle_new_image ticks b1 t1 _).
  destruct (handle_new_image_fields ticks b1 t1
              (set_sdl_queue [NEW_IMAGE b2 t2 false] queued))
    as (Hq1 & Hi & Hw & Hh & _ & _ & Hl & _ & _ & Hqq).
  fold s1 in Hq1, Hi, Hw, Hh, Hl, Hqq.
  assert (Hdue : next_frame_due s1
                 = if t1 =? 0 then 0 else CInt.to_uint (ticks + t1))
    by apply handle_new_image_due.
  replace (quit s1) with false by (rewrite Hq1; symmetry; exact Hquit').
  unfold handle_new_frame.
  destruct (next_frame (set_sdl_queue [] s1)); cbn;
    repeat split; assumption.
Qed.

Lemma first_bitmap_displayed_second_prefetched_witness :
  image (drain_events 5000
           (source_callback
              {| msg_source := animated_source; msg_bitmap := Some frame1;
                 msg_frametime := 80 |}
              (source_callback
                 {| msg_source := animated_source; msg_bitmap := Some frame0;
                    msg_frametime := 100 |}
                 animation_state))) = Some frame0
  /\ next_frame (drain_events 5000
           (source_callback
              {| msg_source := animated_source; msg_bitmap := Some frame1;
                 msg_frametime := 80 |}
              (source_callback
                 {| msg_source := animated_source; msg_bitmap := Some frame0;
                    msg_frametime := 100 |}
                 animation_state))) = Some frame1.
Proof.
  destruct (first_bitmap_displayed_second_prefetched
              animation_state animated_source frame0 frame1 100 80 5000
              eq_refl eq_refl eq_refl eq_refl)
    as (_ & Hi & _ & _ & Hn & _).
  split; assumption.
Defined.

(** X8: a new image does not discard the prefetched frame of the previous
    one.  [handle_new_image] leaves [next_frame] as it is; when the new
    image is animated and playback is on, that frame is promoted once the
    timer of the new image's first frame is due and replaces the new
    image on display, with its own dimensions. *)
Theorem new_image_keeps_stale_prefetch :
  forall (s : imv) (old bitmap : imv_bitmap) (ticks frametime now : Z),
    next_frame s = Some old ->
    view_playing s = true ->
    frametime <> 0 ->
    CInt.to_uint (ticks + frametime) <> 0 ->
    CInt.to_uint (ticks + frametime) <= now ->
    next_frame (handle_new_image ticks bitmap frametime s) = Some old
    /\ image (handle_new_image ticks bitmap frametime s) = Some bitmap
    /\ image (promote_next_frame now
                (handle_new_image ticks bitmap frametime s)) = Some old
    /\ current_image_width
         (promote_next_frame now
            (handle_new_image ticks bitmap frametime s)) = width old
    /\ current_image_height
         (promote_next_frame now
            (handle_new_image ticks bitmap frametime s)) = height old.
Proof.
  intros s old bitmap ticks frametime now Hold Hplay Hft Hnz Hdue.
  destruct (handle_new_image_fields ticks bitmap frametime s)
    as (_ & Hi & _ & _ & Hn & _ & _ & Hp & _).
  pose proof (handle_new_image_due ticks bitmap frametime s) as Hd.
  destruct (frametime =? 0) eqn:E; [apply Z.eqb_eq in E; contradiction|].
  cbv zeta in Hi, Hn, Hp.
  split; [now rewrite Hn|]. split; [exact Hi|].
  unfold promote_next_frame.
  rewrite Hn, Hold, Hp, Hplay, Hd.
  destruct (CInt.to_uint (ticks + frametime) =? 0) eqn:Ez;
    [apply Z.eqb_eq in Ez; contradiction|].
  apply Z.leb_le in Hdue. rewrite Hdue. cbn [andb negb].
  destruct (source _) as [src|]; [destruct (load_next_frame src)|];
    repeat split; reflexivity.
Qed.

Lemma new_image_keeps_stale_prefetch_witness :
  image (promote_next_frame 5100
           (handle_new_image 5000 frame0 100 stale_prefetch_state))
  = Some frame1.
Proof.
  destruct (new_image_keeps_stale_prefetch stale_prefetch_state frame1 frame0
              5000 100 5100 eq_refl eq_refl) as (_ & _ & H & _).
  - discriminate.
  - vm_compute. discriminate.
  - vm_compute. discriminate.
  - exact H.
Defined.

(** ** Splitting a bind into commands *)

Lemma prefix_length_le (n : nat) (s : string) :
  (String.length (prefix n s) <= n)%nat.
Proof.
  revert s. induction n as [|n IH]; intros s; simpl; [lia|].
  destruct s as [|c rest]; simpl; [lia|]. specialize (IH rest). lia.
Qed.

Lemma prefix_whole (s : string) : prefix (String.length s) s = s.
Proof. induction s as [|c s IH]; simpl; [reflexivity | now rewrite IH]. Qed.

Lemma split_from_answer :
  forall (k : nat) (s : string) (sq dq : bool),
    (String.length s <= k)%nat -> split_answer sq dq s.
Proof.
  induction k as [|k IH]; intros s sq dq Hk.
  - destruct s; [|simpl in Hk; lia].
    unfold split_answer. simpl. auto.
  - destruct s as [|c rest].
    { unfold split_answer. simpl. auto. }
    simpl in Hk.
    assert (Hstep : forall sq' dq',
               split_answer sq' dq' rest ->
               let (len, out) := split_from sq' dq' rest in
               String.length (String c (prefix len rest)) = S len
               /\ ((String c (prefix len rest) = String c rest
                    /\ out = EmptyString)
                   \/ String c rest
                      = String.append (String c (prefix len rest))
                                      (String semicolon out))).
    { intros sq' dq' H. unfold split_answer in H.
      destruct (split_from sq' dq' rest) as [len out].
      destruct H as (Hl & _ & Hparts). split; [simpl; now rewrite Hl|].
      destruct Hparts as [[Hp Ho] | Hp].
      - left. split; [now rewrite Hp | exact Ho].
      - right. simpl. now rewrite <- Hp. }
    unfold split_answer. cbn [split_from].
    destruct (negb sq && Ascii.eqb c double_quote) eqn:E1.
    { pose proof (IH rest sq (negb dq) ltac:(lia)) as H.
      pose proof (Hstep _ _ H) as H'. unfold split_answer in H.
      destruct (split_from sq (negb dq) rest) as [len out].
      destruct H as (_ & Hsame & _). destruct H' as (Hl & Hparts).
      cbn [prefix]. split; [exact Hl|]. split; [|exact Hparts].
      cbn [split_from]. rewrite E1, Hsame. reflexivity. }
    destruct (negb dq && Ascii.eqb c single_quote) eqn:E2.
    { pose proof (IH rest (negb sq) dq ltac:(lia)) as H.
      pose proof (Hstep _ _ H) as H'. unfold split_answer in H.
      destruct (split_from (negb sq) dq rest) as [len out].
      destruct H as (_ & Hsame & _). destruct H' as (Hl & Hparts).
      cbn [prefix]. split; [exact Hl|]. split; [|exact Hparts].
      cbn [split_from]. rewrite E1, E2, Hsame. reflexivity. }
    destruct (Ascii.eqb c backslash) eqn:E3.
    { destruct rest as [|c' rest'].
      - simpl. rewrite E1, E2, E3. auto.
      - simpl in Hk.
        pose proof (IH rest' sq dq ltac:(lia)) as H.
        unfold split_answer in H.
        destruct (split_from sq dq rest') as [len out].
        destruct H as (Hl & Hsame & Hparts).
        cbn [prefix]. split; [simpl; now rewrite Hl|]. split.
        + cbn [split_from]. rewrite E1, E2, E3, Hsame. reflexivity.
        + destruct Hparts as [[Hp Ho] | Hp].
          * left. split; [now rewrite Hp | exact Ho].
          * right. simpl. now rewrite <- Hp. }
    destruct (negb sq && negb dq && Ascii.eqb c semicolon) eqn:E4.
    { cbn [prefix]. split; [reflexivity|]. split; [reflexivity|].
      right. simpl. apply andb_true_iff in E4. destruct E4 as [_ E4].
      apply Ascii.eqb_eq in E4. now subst c. }
    pose proof (IH rest sq dq ltac:(lia)) as H.
    pose proof (Hstep _ _ H) as H'. unfold split_answer in H.
    destruct (split_from sq dq rest) as [len out].
    destruct H as (_ & Hsame & _). destruct H' as (Hl & Hparts).
    cbn [prefix]. split; [exact Hl|]. split; [|exact Hparts].
    cbn [split_from]. rewrite E1, E2, E3, E4, Hsame. reflexivity.
Qed.

(** What one call of [split_commands] answers, for the loop of [add_bind]. *)
Lemma split_commands_parts :
  forall start : string,
    String.length (prefix (fst (split_commands start)) start)
    = fst (split_commands start)
    /\ split_commands (prefix (fst (split_commands start)) start)
       = (fst (split_commands start), EmptyString)
    /\ ((prefix (fst (split_commands start)) start = start
         /\ snd (split_commands start) = EmptyString)
        \/ start
           = String.append (prefix (fst (split_commands start)) start)
               (String semicolon (snd (split_commands start)))).
Proof.
  intros start.
  pose proof (split_from_answer (String.length start) start false false
                (le_n _)) as H.
  unfold split_answer in H. unfold split_commands.
  destruct (split_from false false start) as [len out]. exact H.
Qed.

Lemma cut_nil (q : quoting) :
  cuts_at_first_split_point q EmptyString (O, EmptyString).
Proof.
  unfold cuts_at_first_split_point. simpl.
  split; [lia|]. split; [intros i Hi; lia|].
  split; [intros H; lia | reflexivity].
Qed.

(** A character that is no split point and is not skipped over. *)
Lemma cut_cons (q : quoting) (c : ascii) (rest : string) (len : nat)
    (out : string) :
  Ascii.eqb c semicolon
  && negb (single q) && negb (double q) && negb (escaped q) = false ->
  cuts_at_first_split_point (quoting_step q c) rest (len, out) ->
  cuts_at_first_split_point q (String c rest) (S len, out).
Proof.
  unfold cuts_at_first_split_point.
  intros Hc (Hle & Hbefore & Hat & Hend).
  split; [simpl; lia|]. split; [|split].
  - intros [|j] Hj; cbn [split_point_from]; [exact Hc | apply Hbefore; lia].
  - intros Hlt. simpl in Hlt.
    destruct (Hat ltac:(lia)) as [Hsp Hstr].
    split; [exact Hsp|]. cbn [prefix String.append]. now rewrite <- Hstr.
  - intros Heq. simpl in Heq. apply Hend. lia.
Qed.

Lemma split_from_cut :
  forall (k : nat) (s : string) (sq dq : bool),
    (String.length s <= k)%nat ->
    cuts_at_first_split_point
      {| single := sq; double := dq; escaped := false |} s
      (split_from sq dq s).
Proof.
  induction k as [k IH] using lt_wf_ind. intros s sq dq Hk.
  destruct s as [|c rest]; [apply cut_nil|].
  simpl in Hk. cbn [split_from].
  destruct (negb sq && Ascii.eqb c double_quote) eqn:E1.
  { pose proof (IH (String.length rest) ltac:(lia) rest sq (negb dq)
                  (le_n _)) as H.
    destruct (split_from sq (negb dq) rest) as [len out].
    apply cut_cons.
    - apply andb_true_iff in E1. destruct E1 as [_ E1].
      apply Ascii.eqb_eq in E1. subst c. reflexivity.
    - unfold quoting_step. cbn [single double escaped].
      rewrite E1. exact H. }
  destruct (negb dq && Ascii.eqb c single_quote) eqn:E2.
  { pose proof (IH (String.length rest) ltac:(lia) rest (negb sq) dq
                  (le_n _)) as H.
    destruct (split_from (negb sq) dq rest) as [len out].
    apply cut_cons.
    - apply andb_true_iff in E2. destruct E2 as [_ E2].
      apply Ascii.eqb_eq in E2. subst c. reflexivity.
    - unfold quoting_step. cbn [single double escaped].
      rewrite E1, E2. exact H. }
  destruct (Ascii.eqb c backslash) eqn:E3.
  { assert (Hc : Ascii.eqb c semicolon = false)
      by (apply Ascii.eqb_eq in E3; subst c; reflexivity).
    assert (Hq : quoting_step
                   {| single := sq; double := dq; escaped := false |} c
                 = {| single := sq; double := dq; escaped := true |})
      by (unfold quoting_step; cbn [single double escaped];
          rewrite E1, E2, E3; reflexivity).
    destruct rest as [|c' rest'].
    - apply (cut_cons _ c EmptyString O EmptyString).
      + rewrite Hc. reflexivity.
      + apply cut_nil.
    - simpl in Hk.
      pose proof (IH (String.length rest') ltac:(lia) rest' sq dq
                    (le_n _)) as H.
      destruct (split_from sq dq rest') as [len out].
      apply cut_cons; [rewrite Hc; reflexivity|].
      rewrite Hq. apply cut_cons.
      + cbn [single double escaped]. now rewrite !andb_false_r.
      + exact H. }
  destruct (negb sq && negb dq && Ascii.eqb c semicolon) eqn:E4.
  { apply andb_true_iff in E4. destruct E4 as [E4 Hc].
    apply andb_true_iff in E4. destruct E4 as [Hsq Hdq].
    unfold cuts_at_first_split_point. cbn [String.length].
    split; [lia|]. split; [intros i Hi; lia|]. split; [|discriminate].
    intros _. cbn [split_point_from single double escaped prefix
                     String.append].
    rewrite Hc, Hsq, Hdq. split; [reflexivity|].
    apply Ascii.eqb_eq in Hc. now subst c. }
  pose proof (IH (String.length rest) ltac:(lia) rest sq dq (le_n _)) as H.
  destruct (split_from sq dq rest) as [len out].
  apply cut_cons.
  - cbn [single double escaped].
    destruct (Ascii.eqb c semicolon), sq, dq; simpl in *;
      first [reflexivity | discriminate].
  - unfold quoting_step. cbn [single double escaped].
    rewrite E1, E2, E3. exact H.
Qed.

(** X9: [split_commands] cuts a string at its first semicolon that is
    neither quoted nor escaped.  No position before [len] holds such a
    semicolon; when [len] is within the string it holds one, the string
    is the piece of [len] characters followed by that semicolon and
    [out]; otherwise there is none, the piece is the whole string and
    [out] is empty.  The piece itself is split no further: splitting it
    again gives it back whole. *)
Theorem split_commands_round_trip :
  forall start : string,
    (fst (split_commands start) <= String.length start)%nat
    /\ (forall i, (i < fst (split_commands start))%nat ->
                  split_point start i = false)
    /\ ((fst (split_commands start) < String.length start)%nat ->
        split_point start (fst (split_commands start)) = true
        /\ start
           = String.append (prefix (fst (split_commands start)) start)
               (String semicolon (snd (split_commands start))))
    /\ (fst (split_commands start) = String.length start ->
        prefix (fst (split_commands start)) start = start
        /\ snd (split_commands start) = EmptyString)
    /\ String.length (prefix (fst (split_commands start)) start)
       = fst (split_commands start)
    /\ split_commands (prefix (fst (split_commands start)) start)
       = (fst (split_commands start), EmptyString).
Proof.
  intros start.
  pose proof (split_from_cut (String.length start) start false false
                (le_n _)) as Hcut.
  pose proof (split_from_answer (String.length start) start false false
                (le_n _)) as Hparts.
  unfold split_answer in Hparts. unfold split_commands, split_point, unquoted.
  unfold cuts_at_first_split_point in Hcut.
  destruct (split_from false false start) as [len out]. cbn [fst snd].
  destruct Hcut as (Hle & Hbefore & Hat & Hend).
  destruct Hparts as (Hlen & Hagain & _).
  split; [exact Hle|]. split; [exact Hbefore|]. split; [exact Hat|].
  split; [|split; [exact Hlen | exact Hagain]].
  intros Heq. split; [rewrite Heq; apply prefix_whole | exact (Hend Heq)].
Qed.

Lemma split_commands_round_trip_witness :
  split_commands quoted_bind = (12%nat, "e")
  /\ split_point quoted_bind 4 = false
  /\ split_point quoted_bind 9 = false
  /\ split_point quoted_bind 12 = true
  /\ prefix 12 quoted_bind = "a 'b;c' \; d".
Proof.
  destruct (split_commands_round_trip quoted_bind)
    as (_ & Hbefore & Hat & _).
  split; [reflexivity|].
  split; [apply Hbefore; vm_compute; lia|].
  split; [apply Hbefore; vm_compute; lia|].
  split; [|reflexivity].
  apply Hat. vm_compute. lia.
Defined.

Lemma append_length (a b : string) :
  String.length (String.append a b)
  = (String.length a + String.length b)%nat.
Proof. induction a as [|c a IH]; simpl; [reflexivity | now rewrite IH]. Qed.

(** Every turn of the loop of [add_bind] leaves a shorter string. *)
Lemma split_commands_progress (commands : string) :
  commands <> EmptyString ->
  (String.length (snd (split_commands commands))
   < String.length commands)%nat.
Proof.
  intros Hne.
  destruct (split_commands_parts commands) as (_ & _ & [[_ Ho] | Hp]).
  - rewrite Ho. destruct commands; [congruence | simpl; lia].
  - rewrite Hp at 2. rewrite append_length. simpl. lia.
Qed.

Lemma append_assoc (a b c : string) :
  String.append (String.append a b) c = String.append a (String.append b c).
Proof. induction a as [|x a IH]; simpl; [reflexivity | now rewrite IH]. Qed.

Lemma join_commands_cons (piece : string) (rest : list string) :
  rest <> [] ->
  join_commands (piece :: rest)
  = String.append piece (String semicolon (join_commands rest)).
Proof. destruct rest; [congruence | reflexivity]. Qed.

Section AddBindFacts.

Variable imv_binds : Type.
Variable key_list : Type.
Variable imv_bind_parse_keys : string -> option key_list.
Variable imv_binds_clear_key : imv_binds -> key_list -> imv_binds.
Variable imv_binds_add :
  imv_binds -> key_list -> string -> bind_result * imv_binds.

Lemma add_bind_loop_pieces :
  forall (fuel : nat) (parsed : key_list) (commands : string)
         (binds : imv_binds) (handed : list string),
    (String.length commands < fuel)%nat ->
    exists o pieces,
      add_bind_loop imv_binds key_list imv_binds_clear_key imv_binds_add
                    fuel parsed commands binds handed = Some o
      /\ handed_over _ o = handed ++ pieces
      /\ Forall (fun piece => (String.length piece < 512)%nat) pieces
      /\ (success _ o = true ->
          match commands with
          | EmptyString => pieces = []
          | _ => pieces <> []
                 /\ (commands = join_commands pieces
                     \/ commands
                        = String.append (join_commands pieces)
                                        (String semicolon EmptyString))
          end).
Proof.
  induction fuel as [|fuel IH]; intros parsed commands binds handed Hfuel;
    [lia|].
  destruct commands as [|c rest] eqn:Hc.
  { simpl. eexists. exists []. split; [reflexivity|].
    split; [cbn; now rewrite app_nil_r|]. split; [constructor | reflexivity]. }
  rewrite <- Hc in *. assert (Hne : commands <> EmptyString) by (subst; discriminate).
  cbn [add_bind_loop].
  replace (match commands with
           | EmptyString => _
           | String _ _ => _
           end)
    with (let (command_len, next_command) := split_commands commands in
          if (512 <=? command_len)%nat
          then Some {| success := false;
                       binds_after := imv_binds_clear_key binds parsed;
                       handed_over := handed;
                       logged := ["Command exceeded max length, not binding"] |}
          else
            match imv_binds_add binds parsed (prefix command_len commands) with
            | (BIND_SUCCESS, binds') =>
                add_bind_loop imv_binds key_list imv_binds_clear_key
                  imv_binds_add fuel parsed next_command binds'
                  (handed ++ [prefix command_len commands])
            | (BIND_INVALID_KEYS, binds') =>
                Some {| success := false; binds_after := binds';
                        handed_over := handed ++ [prefix command_len commands];
                        logged := ["Invalid keys to bind to"] |}
            | (BIND_INVALID_COMMAND, binds') =>
                Some {| success := false; binds_after := binds';
                        handed_over := handed ++ [prefix command_len commands];
                        logged := ["No command given to bind to"] |}
            | (BIND_CONFLICTS, binds') =>
                Some {| success := false; binds_after := binds';
                        handed_over := handed ++ [prefix command_len commands];
                        logged := ["Key combination conflicts with existing bind"] |}
            end)
    by (rewrite Hc; reflexivity).
  pose proof (split_commands_parts commands) as (Hlen & _ & Hparts).
  pose proof (split_commands_progress commands Hne) as Hprog.
  destruct (split_commands commands) as [command_len next_command].
  cbn [fst snd] in Hlen, Hparts, Hprog.
  destruct (512 <=? command_len)%nat eqn:Hlong.
  { eexists. exists []. split; [reflexivity|].
    split; [cbn; now rewrite app_nil_r|]. split; [constructor | discriminate]. }
  apply Nat.leb_gt in Hlong.
  set (piece := prefix command_len commands) in *.
  assert (Hshort : Forall (fun p => (String.length p < 512)%nat) [piece])
    by (constructor; [rewrite Hlen; exact Hlong | constructor]).
  destruct (imv_binds_add binds parsed piece) as [[] binds'];
    try (eexists; exists [piece]; split; [reflexivity|];
         split; [reflexivity|]; split; [exact Hshort | discriminate]).
  destruct (IH parsed next_command binds' (handed ++ [piece]) ltac:(lia))
    as (o & pieces & Hrun & Hhanded & Hall & Hjoin).
  exists o, (piece :: pieces). split; [exact Hrun|]. split.
  { rewrite Hhanded, <- app_assoc. reflexivity. }
  split; [constructor; [rewrite Hlen; exact Hlong | exact Hall]|].
  intros Hok. specialize (Hjoin Hok). rewrite Hc, <- Hc.
  split; [discriminate|].
  destruct next_command as [|c' rest'] eqn:Hnext.
  - subst pieces. destruct Hparts as [[Hp _] | Hp].
    + left. simpl. now rewrite Hp.
    + right. simpl. exact Hp.
  - destruct Hjoin as [Hnonempty Hjoin].
    rewrite join_commands_cons by exact Hnonempty.
    destruct Hparts as [[_ Ho] | Hp]; [discriminate|].
    destruct Hjoin as [Hj | Hj].
    + left. rewrite <- Hj. exact Hp.
    + right. rewrite append_assoc. simpl. rewrite <- Hj. exact Hp.
Qed.

End AddBindFacts.

(** X10: [add_bind] ends for every bind, whatever the binds collaborator
    does: as many turns as the command string has characters, and one
    more, suffice.  No command of 512 characters or more is handed to
    [imv_binds_add].  When [add_bind] succeeds, the commands it handed
    over, joined with semicolons, are the command string, up to one
    closing semicolon. *)
Theorem add_bind_hands_over_the_commands :
  forall (imv_binds key_list : Type)
         (imv_bind_parse_keys : string -> option key_list)
         (imv_binds_clear_key : imv_binds -> key_list -> imv_binds)
         (imv_binds_add :
            imv_binds -> key_list -> string -> bind_result * imv_binds)
         (fuel : nat) (keys commands : string) (binds : imv_binds),
    (String.length commands < fuel)%nat ->
    exists o,
      add_bind imv_binds key_list imv_bind_parse_keys imv_binds_clear_key
               imv_binds_add fuel keys commands binds = Some o
      /\ Forall (fun piece => (String.length piece < 512)%nat)
                (handed_over _ o)
      /\ (success _ o = true ->
          commands = join_commands (handed_over _ o)
          \/ commands = String.append (join_commands (handed_over _ o))
                                      (String semicolon EmptyString)).
Proof.
  intros imv_binds key_list parse clear add fuel keys commands binds Hfuel.
  unfold add_bind. destruct (parse keys) as [parsed|].
  - destruct (add_bind_loop_pieces imv_binds key_list clear add fuel parsed
                commands (clear binds parsed) [] Hfuel)
      as (o & pieces & Hrun & Hhanded & Hall & Hjoin).
    simpl in Hhanded. exists o. split; [exact Hrun|].
    split; [rewrite Hhanded; exact Hall|].
    intros Hok. specialize (Hjoin Hok). rewrite Hhanded.
    destruct commands; [rewrite Hjoin; left; reflexivity|].
    exact (proj2 Hjoin).
  - eexists. split; [reflexivity|]. split; [constructor | discriminate].
Qed.

Lemma add_bind_hands_over_the_commands_witness :
  exists o,
    add_bind unit unit (fun _ => Some tt) (fun b _ => b) accept_all_binds
             40 "p" "exec echo 'a;b'; select_rel 1;" tt = Some o
    /\ handed_over _ o = ["exec echo 'a;b'"; " select_rel 1"].
Proof.
  destruct (add_bind_hands_over_the_commands unit unit
              (fun _ => Some tt) (fun b _ => b) accept_all_binds
              40%nat "p" "exec echo 'a;b'; select_rel 1;" tt)
    as (o & Hrun & _).
  - vm_compute. repeat constructor.
  - exists o. split; [exact Hrun|].
    vm_compute in Hrun. inversion Hrun. reflexivity.
Defined.

(** ** Paths from stdin *)

Lemma fgets_parts (room : nat) :
  forall input : string,
    let (buf, left) := fgets room input in
    input = String.append buf left
    /\ (String.length buf <= room)%nat
    /\ no_newline (strip_newline buf) = true
    /\ (room <> O -> input <> EmptyString -> buf <> EmptyString).
Proof.
  induction room as [|room IH]; intros input.
  - simpl. destruct input;
      (split; [reflexivity|]; split; [simpl; lia|]; split; [reflexivity|];
       intros H; congruence).
  - destruct input as [|c rest];
      [simpl; split; [reflexivity|]; split; [lia|]; split; [reflexivity|];
       intros _ H; congruence|].
    cbn [fgets]. destruct (Ascii.eqb c newline) eqn:E.
    + simpl. rewrite E.
      split; [reflexivity|]. split; [lia|]. split; [reflexivity|].
      discriminate.
    + specialize (IH rest). destruct (fgets room rest) as [buf left].
      destruct IH as (Hin & Hlen & Hnl & _).
      split; [simpl; now rewrite <- Hin|].
      split; [simpl; lia|]. split; [|discriminate].
      destruct buf as [|c' buf'].
      * simpl. rewrite E. simpl. now rewrite E.
      * change (strip_newline (String c (String c' buf')))
          with (String c (strip_newline (String c' buf'))).
        simpl no_newline. rewrite E. exact Hnl.
Qed.

Lemma strip_newline_length (buf : string) :
  (String.length (strip_newline buf) <= String.length buf)%nat.
Proof.
  induction buf as [|c buf IH]; [simpl; lia|].
  destruct buf as [|c' buf'].
  - simpl. destruct (Ascii.eqb c newline); simpl; lia.
  - change (strip_newline (String c (String c' buf')))
      with (String c (strip_newline (String c' buf'))).
    simpl in *. lia.
Qed.

Lemma strip_newline_no_nul (buf : string) :
  no_nul buf = true -> no_nul (strip_newline buf) = true.
Proof.
  induction buf as [|c buf IH]; intros H; [reflexivity|].
  destruct buf as [|c' buf'].
  - simpl. destruct (Ascii.eqb c newline); [reflexivity | exact H].
  - change (strip_newline (String c (String c' buf')))
      with (String c (strip_newline (String c' buf'))).
    simpl in H. apply andb_true_iff in H. destruct H as [Hc H].
    simpl no_nul at 1. rewrite Hc. simpl. apply IH. exact H.
Qed.

Lemma no_nul_append (a b : string) :
  no_nul (String.append a b) = no_nul a && no_nul b.
Proof.
  induction a as [|c a IH]; [reflexivity|].
  simpl. rewrite IH. now rewrite andb_assoc.
Qed.

Lemma c_string_no_nul (buf : string) :
  no_nul buf = true -> c_string buf = buf.
Proof.
  induction buf as [|c buf IH]; intros H; [reflexivity|].
  simpl in H. apply andb_true_iff in H. destruct H as [Hc H].
  apply negb_true_iff in Hc. simpl. rewrite Hc. now rewrite IH.
Qed.

(** One turn of the loop on text: the buffer is seen whole. *)
Lemma read_paths_step (fuel : nat) (input : string) (s : imv) :
  input <> EmptyString ->
  no_nul (fst (fgets (PATH_MAX - 1) input)) = true ->
  read_paths (S fuel) input s
  = let (buf, left) := fgets (PATH_MAX - 1) input in
    read_paths fuel left
      (if (0 <? String.length (strip_newline buf))%nat
       then SDL_PushEvent (NEW_PATH (strip_newline buf)) s
       else s).
Proof.
  intros Hne Hnul.
  pose proof (fgets_parts (PATH_MAX - 1) input) as H.
  destruct input as [|c rest]; [congruence|].
  cbn [read_paths].
  destruct (fgets (PATH_MAX - 1) (String c rest)) as [buf left].
  destruct H as (_ & _ & _ & Hbuf). cbn [fst] in Hnul.
  rewrite (c_string_no_nul buf Hnul).
  destruct buf as [|b buf']; [|reflexivity].
  exfalso. apply Hbuf; [vm_compute; discriminate | discriminate | reflexivity].
Qed.

Lemma set_sdl_queue_same (s : imv) : set_sdl_queue (sdl_queue s) s = s.
Proof. destruct s; reflexivity. Qed.

Lemma read_paths_pushes :
  forall (fuel : nat) (input : string) (s : imv),
    no_nul input = true ->
    (String.length input < fuel)%nat ->
    exists pushed,
      read_paths fuel input s
      = Some (set_sdl_queue (sdl_queue s ++ map NEW_PATH pushed) s)
      /\ Forall (fun path => path <> EmptyString
                             /\ (String.length path < PATH_MAX)%nat
                             /\ no_newline path = true
                             /\ no_nul path = true) pushed.
Proof.
  induction fuel as [|fuel IH]; intros input s Hnul Hfuel; [lia|].
  destruct input as [|c rest] eqn:Hin.
  { exists []. simpl. rewrite app_nil_r, set_sdl_queue_same.
    split; [reflexivity | constructor]. }
  rewrite <- Hin in *.
  assert (Hne : input <> EmptyString) by (rewrite Hin; discriminate).
  pose proof (fgets_parts (PATH_MAX - 1) input) as H.
  pose proof (read_paths_step fuel input s Hne) as Hstep.
  destruct (fgets (PATH_MAX - 1) input) as [buf left].
  destruct H as (Hparts & Hlen & Hnl & Hbne).
  assert (Hsplit : no_nul buf = true /\ no_nul left = true).
  { rewrite Hparts, no_nul_append in Hnul.
    now apply andb_true_iff in Hnul. }
  destruct Hsplit as [Hnbuf Hnleft].
  rewrite (Hstep Hnbuf). clear Hstep.
  assert (Hbuf : buf <> EmptyString) by (apply Hbne; [discriminate | exact Hne]).
  assert (Hleft : (String.length left < fuel)%nat).
  { rewrite Hparts, append_length in Hfuel.
    destruct buf; [congruence | simpl in Hfuel; lia]. }
  pose proof (strip_newline_length buf) as Hstrip.
  pose proof (strip_newline_no_nul buf Hnbuf) as Hsnul.
  destruct (0 <? String.length (strip_newline buf))%nat eqn:Hpos.
  - destruct (IH left (SDL_PushEvent (NEW_PATH (strip_newline buf)) s)
                Hnleft Hleft) as (pushed & Hrun & Hall).
    exists (strip_newline buf :: pushed).
    split.
    + rewrite Hrun. unfold SDL_PushEvent.
      cbn [sdl_queue set_sdl_queue map]. rewrite <- app_assoc. reflexivity.
    + constructor; [|exact Hall].
      apply Nat.ltb_lt in Hpos.
      split; [intros E; rewrite E in Hpos; simpl in Hpos; lia|].
      split; [unfold PATH_MAX in *; lia|]. split; [exact Hnl | exact Hsnul].
  - destruct (IH left s Hnleft Hleft) as (pushed & Hrun & Hall).
    exists pushed. split; assumption.
Qed.

(** X11: on text, that is input without NUL bytes,
    [load_paths_from_stdin] ends, after at most one read per character,
    and changes nothing but the event queue and the log: the state it
    leaves is the one it found with the line of the log added and
    [NEW_PATH] events appended to the queue, every other field as it
    was.  Every path it queues is non-empty, holds no newline and no NUL,
    and is shorter than [PATH_MAX]. *)
Theorem stdin_paths_are_well_formed :
  forall (fuel : nat) (input : string) (s : imv),
    no_nul input = true ->
    (String.length input < fuel)%nat ->
    exists pushed,
      load_paths_from_stdin fuel input s
      = Some (set_sdl_queue (sdl_queue s ++ map NEW_PATH pushed)
                (emit (imv_log "Reading paths from stdin...") s))
      /\ Forall (fun path => path <> EmptyString
                             /\ (String.length path < PATH_MAX)%nat
                             /\ no_newline path = true
                             /\ no_nul path = true) pushed.
Proof.
  intros fuel input s Hnul Hfuel. unfold load_paths_from_stdin.
  destruct (read_paths_pushes fuel input
              (emit (imv_log "Reading paths from stdin...") s) Hnul Hfuel)
    as (pushed & Hrun & Hall).
  exists pushed. split; [exact Hrun | exact Hall].
Qed.

Lemma stdin_paths_are_well_formed_witness :
  exists pushed,
    load_paths_from_stdin 20 (input_of ["a.png"; ""; "b.png"] "") imv_create
    = Some (set_sdl_queue (map NEW_PATH pushed)
              (emit (imv_log "Reading paths from stdin...") imv_create))
    /\ pushed = ["a.png"; "b.png"].
Proof.
  destruct (stdin_paths_are_well_formed 20%nat
              (input_of ["a.png"; ""; "b.png"] "") imv_create)
    as (pushed & Hrun & _).
  - vm_compute. reflexivity.
  - vm_compute. repeat constructor.
  - exists pushed. split; [exact Hrun|].
    vm_compute in Hrun. inversion Hrun as [Hq].
    clear - Hq. revert Hq. generalize pushed. clear pushed.
    intros [|p1 [|p2 [|p3 rest]]] Hq; simpl in Hq; try discriminate.
    inversion Hq. reflexivity.
Defined.

Lemma fgets_line (room : nat) :
  forall (line rest : string),
    no_newline line = true ->
    (String.length line < room)%nat ->
    fgets room (String.append line (String newline rest))
    = (String.append line (String newline EmptyString), rest).
Proof.
  induction room as [|room IH]; intros line rest Hnl Hlen; [lia|].
  destruct line as [|c line].
  - cbn. reflexivity.
  - simpl in Hnl, Hlen. apply andb_true_iff in Hnl. destruct Hnl as [Hc Hnl].
    apply negb_true_iff in Hc. cbn [String.append fgets]. rewrite Hc.
    rewrite IH by (assumption || lia). reflexivity.
Qed.

Lemma fgets_tail (room : nat) :
  forall tail : string,
    no_newline tail = true ->
    (String.length tail <= room)%nat ->
    fgets room tail = (tail, EmptyString).
Proof.
  induction room as [|room IH]; intros tail Hnl Hlen.
  - destruct tail; [reflexivity | simpl in Hlen; lia].
  - destruct tail as [|c tail]; [reflexivity|].
    simpl in Hnl, Hlen. apply andb_true_iff in Hnl. destruct Hnl as [Hc Hnl].
    apply negb_true_iff in Hc. cbn [fgets]. rewrite Hc.
    rewrite IH by (assumption || lia). reflexivity.
Qed.

Lemma strip_newline_line (line : string) :
  no_newline line = true ->
  strip_newline (String.append line (String newline EmptyString)) = line.
Proof.
  induction line as [|c line IH]; intros Hnl.
  - cbn. reflexivity.
  - simpl in Hnl. apply andb_true_iff in Hnl. destruct Hnl as [Hc Hnl].
    specialize (IH Hnl). cbn [String.append].
    destruct (String.append line (String newline EmptyString)) eqn:E.
    + destruct line; discriminate E.
    + change (strip_newline (String c (String a s)))
        with (String c (strip_newline (String a s))).
      now rewrite IH.
Qed.

Lemma strip_newline_tail (tail : string) :
  no_newline tail = true -> strip_newline tail = tail.
Proof.
  induction tail as [|c tail IH]; intros Hnl; [reflexivity|].
  simpl in Hnl. apply andb_true_iff in Hnl. destruct Hnl as [Hc Hnl].
  apply negb_true_iff in Hc. destruct tail as [|c' tail'].
  - simpl. now rewrite Hc.
  - change (strip_newline (String c (String c' tail')))
      with (String c (strip_newline (String c' tail'))).
    now rewrite IH.
Qed.

Lemma fgets_line_text (line rest : string) :
  line_ok line = true ->
  fgets (PATH_MAX - 1) (String.append line (String newline rest))
  = (String.append line (String newline EmptyString), rest)
  /\ no_nul (String.append line (String newline EmptyString)) = true
  /\ strip_newline (String.append line (String newline EmptyString)) = line.
Proof.
  unfold line_ok. intros H.
  apply andb_true_iff in H. destruct H as [H Hlen].
  apply andb_true_iff in H. destruct H as [Hnl Hnul].
  apply Nat.ltb_lt in Hlen.
  split; [apply fgets_line; assumption|].
  split; [|apply strip_newline_line; exact Hnl].
  rewrite no_nul_append, Hnul. reflexivity.
Qed.

Lemma read_paths_lines :
  forall (lines : list string) (tail : string) (fuel : nat) (s : imv),
    forallb line_ok lines = true ->
    tail_ok tail = true ->
    (String.length (input_of lines tail) < fuel)%nat ->
    exists s',
      read_paths fuel (input_of lines tail) s = Some s'
      /\ sdl_queue s'
         = sdl_queue s ++ map NEW_PATH (filter nonempty (lines ++ [tail])).
Proof.
  induction lines as [|line lines IH]; intros tail fuel s Hlines Htail Hfuel.
  - simpl in *. unfold tail_ok in Htail.
    apply andb_true_iff in Htail. destruct Htail as [Htail Hlen].
    apply andb_true_iff in Htail. destruct Htail as [Hnl Hnul].
    apply Nat.leb_le in Hlen.
    destruct fuel as [|fuel]; [lia|].
    destruct tail as [|c tail'] eqn:Ht.
    { exists s. simpl. now rewrite app_nil_r. }
    rewrite <- Ht in *.
    assert (Hne : tail <> EmptyString) by (rewrite Ht; discriminate).
    pose proof (read_paths_step fuel tail s Hne) as Hstep.
    rewrite fgets_tail in Hstep by assumption.
    rewrite (Hstep Hnul). clear Hstep.
    rewrite strip_newline_tail by exact Hnl.
    unfold nonempty.
    assert (Hpos : (0 <? String.length tail)%nat = true)
      by (rewrite Ht; reflexivity).
    rewrite Hpos.
    destruct fuel as [|fuel]; [rewrite Ht in Hfuel; simpl in Hfuel; lia|].
    eexists. split; [reflexivity|]. reflexivity.
  - simpl in Hlines. apply andb_true_iff in Hlines.
    destruct Hlines as [Hline Hlines].
    destruct fuel as [|fuel]; [lia|].
    cbn [input_of fold_right]. fold (input_of lines tail).
    cbn [input_of fold_right] in Hfuel. fold (input_of lines tail) in Hfuel.
    rewrite append_length in Hfuel. simpl in Hfuel.
    destruct (fgets_line_text line (input_of lines tail) Hline)
      as (Hread & Hnul & Hstrip).
    pose proof (read_paths_step fuel
                  (String.append line (String newline (input_of lines tail)))
                  s ltac:(destruct line; discriminate)) as Hstep.
    rewrite Hread in Hstep. rewrite (Hstep Hnul). clear Hstep.
    rewrite Hstrip.
    cbn [app filter]. fold (nonempty line).
    destruct (nonempty line).
    + destruct (IH tail fuel (SDL_PushEvent (NEW_PATH line) s) Hlines Htail
                  ltac:(lia)) as (s' & Hrun & Hq).
      exists s'. split; [exact Hrun|]. rewrite Hq. cbn.
      now rewrite <- app_assoc.
    + destruct (IH tail fuel s Hlines Htail ltac:(lia)) as (s' & Hrun & Hq).
      exists s'. split; [exact Hrun | exact Hq].
Qed.

(** X12: lines that fit the buffer arrive as they are.  For an input made
    of lines of text, each shorter than [PATH_MAX - 1], and of a last
    unterminated line of at most [PATH_MAX - 1] characters,
    [load_paths_from_stdin] queues one [NEW_PATH] event per non-empty
    line, in order, and skips the empty ones. *)
Theorem stdin_lines_become_paths :
  forall (lines : list string) (tail : string) (fuel : nat) (s : imv),
    forallb line_ok lines = true ->
    tail_ok tail = true ->
    (String.length (input_of lines tail) < fuel)%nat ->
    exists s',
      load_paths_from_stdin fuel (input_of lines tail) s = Some s'
      /\ sdl_queue s'
         = sdl_queue s ++ map NEW_PATH (filter nonempty (lines ++ [tail])).
Proof.
  intros lines tail fuel s Hlines Htail Hfuel.
  unfold load_paths_from_stdin.
  exact (read_paths_lines lines tail fuel _ Hlines Htail Hfuel).
Qed.

Lemma stdin_lines_become_paths_witness :
  exists s',
    load_paths_from_stdin 20 (input_of ["a.png"; ""; "b.png"] "c") imv_create
    = Some s'
    /\ sdl_queue s' = [NEW_PATH "a.png"; NEW_PATH "b.png"; NEW_PATH "c"].
Proof.
  apply (stdin_lines_become_paths ["a.png"; ""; "b.png"] "c" 20%nat
                                  imv_create).
  - vm_compute. reflexivity.
  - vm_compute. reflexivity.
  - vm_compute. repeat constructor.
Defined.

Lemma read_paths_nul (fuel : nat) (rest : string) (s : imv) :
  read_paths fuel (String nul rest) s = None.
Proof.
  destruct fuel as [|fuel]; [reflexivity|].
  cbn [read_paths].
  change (PATH_MAX - 1)%nat with (S (PATH_MAX - 2)). cbn [fgets].
  change (Ascii.eqb nul newline) with false. cbv iota.
  destruct (fgets (PATH_MAX - 2) rest) as [buf left].
  reflexivity.
Qed.

(** X19: a line that begins with a NUL byte takes the reader outside its
    buffer.  After any lines of text, such a line makes [strlen] answer 0,
    and [buf[len-1]] is then read before the buffer: whatever follows and
    however many reads are allowed, [load_paths_from_stdin] has no
    defined result. *)
Theorem stdin_line_starting_with_nul :
  forall (lines : list string) (rest : string) (fuel : nat) (s : imv),
    forallb line_ok lines = true ->
    load_paths_from_stdin fuel (input_of lines (String nul rest)) s = None.
Proof.
  intros lines rest fuel s Hlines. unfold load_paths_from_stdin.
  generalize (emit (imv_log "Reading paths from stdin...") s). clear s.
  revert fuel.
  induction lines as [|line lines IH]; intros fuel s.
  - apply read_paths_nul.
  - simpl in Hlines. apply andb_true_iff in Hlines.
    destruct Hlines as [Hline Hlines].
    destruct fuel as [|fuel]; [reflexivity|].
    cbn [input_of fold_right]. fold (input_of lines (String nul rest)).
    destruct (fgets_line_text line (input_of lines (String nul rest)) Hline)
      as (Hread & Hnul & _).
    pose proof (read_paths_step fuel
                  (String.append line
                     (String newline (input_of lines (String nul rest))))
                  s ltac:(destruct line; discriminate)) as Hstep.
    rewrite Hread in Hstep. rewrite (Hstep Hnul).
    apply IH. exact Hlines.
Qed.

Lemma stdin_line_starting_with_nul_witness :
  load_paths_from_stdin 50
    (input_of ["a.png"] (String nul (String newline "b.png"))) imv_create
  = None.
Proof.
  apply (stdin_line_starting_with_nul ["a.png"]). vm_compute. reflexivity.
Defined.

(** ** Command line values *)

Ltac hex_cases d :=
  let H := fresh in
  assert (H : d = 0 \/ d = 1 \/ d = 2 \/ d = 3 \/ d = 4 \/ d = 5 \/ d = 6
              \/ d = 7 \/ d = 8 \/ d = 9 \/ d = 10 \/ d = 11 \/ d = 12
              \/ d = 13 \/ d = 14 \/ d = 15) by lia;
  repeat (destruct H as [H | H]; [subst d|]); [..| subst d].

Lemma digit_in_hex_digit (d : Z) :
  0 <= d < 16 ->
  LibcUnsigned.digit_in 16 (hex_digit d) = Some d
  /\ LibcUnsigned.is_x (hex_digit d) = false.
Proof. intros H. hex_cases d; split; reflexivity. Qed.

Lemma scan_hex_digit (d acc : Z) (rest : string) :
  0 <= d < 16 ->
  LibcUnsigned.scan 16 acc (String (hex_digit d) rest)
  = LibcUnsigned.scan 16 (16 * acc + d) rest.
Proof.
  intros H. cbn [LibcUnsigned.scan].
  now rewrite (proj1 (digit_in_hex_digit d H)).
Qed.

(** On a string whose first character is neither white space nor a sign,
    and whose second is not an [x], [strtoul] reads digits from the first
    character on, in base 16 as in base 10. *)
Lemma strtoul_plain (base : Z) (c : ascii) (rest : string) :
  Libc.isspace c = false ->
  Ascii.eqb c "-" = false ->
  Ascii.eqb c "+" = false ->
  match rest with
  | String x _ => LibcUnsigned.is_x x = false
  | EmptyString => True
  end ->
  LibcUnsigned.strtoul (String c rest) base
  = let s := String c rest in
    let (v, left) := LibcUnsigned.scan base 0 s in
    if (String.length left =? String.length s)%nat then (0, s)
    else ((if LibcUnsigned.ULONG_MAX <? v then LibcUnsigned.ULONG_MAX else v),
          left).
Proof.
  intros Hspace Hminus Hplus Hx.
  unfold LibcUnsigned.strtoul. cbn [Libc.skip_spaces]. rewrite Hspace.
  destruct rest as [|x rest];
    destruct (base =? 16);
    destruct c as [[] [] [] [] [] [] [] []];
    try (vm_compute in Hminus; discriminate Hminus);
    try (vm_compute in Hplus; discriminate Hplus);
    cbv beta iota zeta; rewrite ?Hx; try reflexivity;
    destruct rest; reflexivity.
Qed.

Lemma hex_digit_plain (d : Z) :
  0 <= d < 16 ->
  Libc.isspace (hex_digit d) = false
  /\ Ascii.eqb (hex_digit d) "-" = false
  /\ Ascii.eqb (hex_digit d) "+" = false
  /\ Ascii.eqb "h" (hex_digit d) = false
  /\ skip_hash (String (hex_digit d) EmptyString)
     = String (hex_digit d) EmptyString.
Proof. intros H. hex_cases d; repeat split; reflexivity. Qed.

Lemma skip_hash_hex_digit (d : Z) (rest : string) :
  0 <= d < 16 ->
  skip_hash (String (hex_digit d) rest) = String (hex_digit d) rest.
Proof. intros H. hex_cases d; reflexivity. Qed.

Lemma color_components (r g b : Z) :
  0 <= r < 256 -> 0 <= g < 256 -> 0 <= b < 256 ->
  let n := 65536 * r + 256 * g + b in
  (Z.shiftr n 16) mod 256 = r
  /\ Z.land (Z.shiftr n 8) 255 = g
  /\ Z.land n 255 = b.
Proof.
  intros Hr Hg Hb n.
  change 255 with (Z.ones 8). rewrite !Z.land_ones by lia.
  rewrite !Z.shiftr_div_pow2 by lia.
  change (2 ^ 16) with 65536. change (2 ^ 8) with 256.
  assert (H16 : n / 65536 = r)
    by (symmetry; apply (Z.div_unique n 65536 r (256 * g + b)); lia).
  assert (H8 : n / 256 = 256 * r + g)
    by (symmetry; apply (Z.div_unique n 256 (256 * r + g) b); lia).
  rewrite H16, H8. repeat split.
  - apply Z.mod_small. lia.
  - symmetry. apply (Z.mod_unique (256 * r + g) 256 r g); lia.
  - symmetry. apply (Z.mod_unique n 256 (256 * r + g) b); lia.
Qed.

Lemma parse_bg_six_digits (d1 d2 d3 d4 d5 d6 : Z) (hash : bool) (a : imv_app) :
  0 <= d1 < 16 -> 0 <= d2 < 16 -> 0 <= d3 < 16 ->
  0 <= d4 < 16 -> 0 <= d5 < 16 -> 0 <= d6 < 16 ->
  let digits :=
    String (hex_digit d1) (String (hex_digit d2) (String (hex_digit d3)
      (String (hex_digit d4) (String (hex_digit d5)
         (String (hex_digit d6) EmptyString))))) in
  parse_bg (if hash then String "#" digits else digits) a
  = (true,
     on_options (set_background_color
                   (16 * d1 + d2, 16 * d3 + d4, 16 * d5 + d6))
       (on_options (set_background_type BACKGROUND_SOLID) a)).
Proof.
  intros H1 H2 H3 H4 H5 H6 digits.
  destruct (hex_digit_plain d1 H1) as (Hs & Hm & Hp & _ & _).
  destruct (hex_digit_plain d2 H2) as (_ & _ & _ & Hh & _).
  unfold parse_bg.
  assert (Hchecks : String.eqb "checks"
                      (if hash then String "#" digits else digits) = false).
  { destruct hash; [reflexivity|]. unfold digits. cbn [String.eqb].
    rewrite Hh. destruct (Ascii.eqb "c" (hex_digit d1)); reflexivity. }
  rewrite Hchecks.
  assert (Hskip : skip_hash (if hash then String "#" digits else digits)
                  = digits).
  { destruct hash; [reflexivity|]. apply skip_hash_hex_digit, H1. }
  cbv zeta. rewrite Hskip. unfold digits.
  rewrite strtoul_plain
    by (try assumption; exact (proj2 (digit_in_hex_digit d2 H2))).
  cbv zeta. rewrite !scan_hex_digit by assumption.
  cbn [LibcUnsigned.scan String.length Nat.eqb].
  set (v := 16 * (16 * (16 * (16 * (16 * (16 * 0 + d1) + d2) + d3) + d4)
                  + d5) + d6).
  assert (Hv : v = 65536 * (16 * d1 + d2) + 256 * (16 * d3 + d4)
                   + (16 * d5 + d6)) by (unfold v; lia).
  assert (Hrange : 0 <= v <= 16777215) by lia.
  assert (Hmax : (LibcUnsigned.ULONG_MAX <? v) = false)
    by (apply Z.ltb_ge; unfold LibcUnsigned.ULONG_MAX; lia).
  rewrite Hmax.
  rewrite (Z.mod_small v (2 ^ 32)) by lia.
  assert (Hbig : (16777215 <? v) = false) by (apply Z.ltb_ge; lia).
  rewrite Hbig. cbn [String.eqb negb orb Nat.sub Nat.eqb].
  destruct (color_components (16 * d1 + d2) (16 * d3 + d4) (16 * d5 + d6))
    as (Hr & Hg & Hb); try lia.
  cbv zeta in Hr, Hg, Hb. rewrite <- Hv in Hr, Hg, Hb.
  rewrite Hr, Hg, Hb. reflexivity.
Qed.

(** X13: a colour written as six lower-case hexadecimal digits, with or
    without a leading [#], is read back by [parse_bg] as it was written:
    the background becomes solid with exactly the red, green and blue
    components of the colour. *)
Theorem parse_bg_reads_hex_colour :
  forall (r g b : Z) (hash : bool) (a : imv_app),
    0 <= r < 256 -> 0 <= g < 256 -> 0 <= b < 256 ->
    parse_bg (if hash then String "#" (hex_color r g b) else hex_color r g b)
             a
    = (true,
       on_options (set_background_color (r, g, b))
         (on_options (set_background_type BACKGROUND_SOLID) a)).
Proof.
  intros r g b hash a Hr Hg Hb.
  unfold hex_color, hex_byte.
  rewrite parse_bg_six_digits;
    try (split; [apply Z.div_pos; lia | apply Z.div_lt_upper_bound; lia]);
    try (apply Z.mod_pos_bound; lia).
  rewrite <- !Z.div_mod by lia. reflexivity.
Qed.

Lemma parse_bg_reads_hex_colour_witness :
  parse_bg "#1e90ff" imv_create_app
  = (true,
     on_options (set_background_color (30, 144, 255))
       (on_options (set_background_type BACKGROUND_SOLID) imv_create_app)).
Proof.
  exact (parse_bg_reads_hex_colour 30 144 255 true imv_create_app
           ltac:(lia) ltac:(lia) ltac:(lia)).
Defined.

(** X14: what [parse_bg] accepts and what it leaves behind.  A value
    other than [checks] is accepted only if, after an optional [#], it is
    six characters long, and the three components it sets are bytes.  A
    refused value has already made the background solid, leaves the colour
    as it was and logs the error. *)
Theorem parse_bg_accepts_six_characters :
  forall (bg : string) (a : imv_app),
    (fst (parse_bg bg a) = true ->
     bg = "checks"
     \/ (String.length (skip_hash bg) = 6%nat
         /\ background_type (options (snd (parse_bg bg a))) = BACKGROUND_SOLID
         /\ 0 <= fst (fst (background_color (options (snd (parse_bg bg a)))))
            < 256
         /\ 0 <= snd (fst (background_color (options (snd (parse_bg bg a)))))
            < 256
         /\ 0 <= snd (background_color (options (snd (parse_bg bg a))))
            < 256))
    /\ (fst (parse_bg bg a) = false ->
        background_type (options (snd (parse_bg bg a))) = BACKGROUND_SOLID
        /\ background_color (options (snd (parse_bg bg a)))
           = background_color (options a)
        /\ trace (core (snd (parse_bg bg a)))
           = trace (core a) ++ [imv_log "Invalid hex color"]).
Proof.
  intros bg a. unfold parse_bg.
  destruct (String.eqb "checks" bg) eqn:Hc.
  { apply String.eqb_eq in Hc. split; [left; now symmetry | discriminate]. }
  cbv zeta.
  destruct (LibcUnsigned.strtoul (skip_hash bg) 16) as [value ep].
  destruct (String.eqb ep EmptyString) eqn:Hep; cbn [negb orb];
    [|split; [discriminate | intros _; repeat split]].
  apply String.eqb_eq in Hep. subst ep.
  destruct (Nat.eqb (String.length (skip_hash bg) - String.length EmptyString) 6)
    eqn:Hlen; cbn [negb orb];
    [|split; [discriminate | intros _; repeat split]].
  apply Nat.eqb_eq in Hlen. simpl in Hlen. rewrite Nat.sub_0_r in Hlen.
  destruct (16777215 <? value mod 2 ^ 32);
    [split; [discriminate | intros _; repeat split]|].
  split; [|discriminate]. intros _. right.
  split; [exact Hlen|]. split; [reflexivity|].
  cbn [snd fst options on_options background_color set_background_color].
  change 255 with (Z.ones 8). rewrite !Z.land_ones by lia.
  repeat split; apply Z.mod_pos_bound; lia.
Qed.

Lemma parse_bg_accepts_six_characters_witness :
  fst (parse_bg "#12345" imv_create_app) = false
  /\ background_color (options (snd (parse_bg "#12345" imv_create_app)))
     = (0, 0, 0)
  /\ fst (parse_bg "0x1234" imv_create_app) = true
  /\ String.length (skip_hash "0x1234") = 6%nat.
Proof.
  destruct (parse_bg_accepts_six_characters "#12345" imv_create_app)
    as [_ Hno].
  destruct (parse_bg_accepts_six_characters "0x1234" imv_create_app)
    as [Hyes _].
  destruct (Hno eq_refl) as (_ & Hcolor & _).
  destruct (Hyes eq_refl) as [Hchecks | (Hlen & _)]; [discriminate Hchecks|].
  repeat split; assumption.
Defined.

(** *** The slideshow duration *)

Lemma decimal_digit_facts (d : Z) :
  is_decimal d ->
  LibcUnsigned.digit_in 10 (hex_digit d) = Some d
  /\ LibcUnsigned.is_x (hex_digit d) = false
  /\ Libc.isspace (hex_digit d) = false
  /\ Ascii.eqb (hex_digit d) "-" = false
  /\ Ascii.eqb (hex_digit d) "+" = false.
Proof.
  unfold is_decimal. intros H.
  assert (H' : d = 0 \/ d = 1 \/ d = 2 \/ d = 3 \/ d = 4 \/ d = 5 \/ d = 6
               \/ d = 7 \/ d = 8 \/ d = 9) by lia.
  repeat (destruct H' as [H' | H']; [subst d; repeat split; reflexivity|]).
  subst d. repeat split; reflexivity.
Qed.

Lemma scan_decimal (digits : list Z) (rest : string) :
  Forall is_decimal digits -> stops_digits rest ->
  forall acc,
    LibcUnsigned.scan 10 acc (decimal digits rest)
    = (fold_left (fun a d => 10 * a + d) digits acc, rest).
Proof.
  intros Hd Hrest. induction Hd as [|d more Hdig _ IH]; intros acc.
  - simpl. destruct rest as [|c r]; [reflexivity|].
    simpl in Hrest. cbn [LibcUnsigned.scan]. now rewrite Hrest.
  - cbn [decimal LibcUnsigned.scan fold_left].
    rewrite (proj1 (decimal_digit_facts d Hdig)). apply IH.
Qed.

Lemma decimal_length (digits : list Z) (rest : string) :
  String.length (decimal digits rest)
  = (List.length digits + String.length rest)%nat.
Proof. induction digits; simpl; [reflexivity | now rewrite IHdigits]. Qed.

Lemma decimal_value_bounds (digits : list Z) :
  Forall is_decimal digits ->
  forall acc, 0 <= acc ->
    acc * 10 ^ Z.of_nat (List.length digits)
    <= fold_left (fun a d => 10 * a + d) digits acc
    < (acc + 1) * 10 ^ Z.of_nat (List.length digits).
Proof.
  intros Hd. induction Hd as [|d more Hdig _ IH]; intros acc Hacc.
  - simpl. lia.
  - cbn [fold_left List.length]. unfold is_decimal in Hdig.
    specialize (IH (10 * acc + d) ltac:(lia)).
    rewrite Nat2Z.inj_succ, Z.pow_succ_r by lia.
    assert (Hp : 0 < 10 ^ Z.of_nat (List.length more))
      by (apply Z.pow_pos_nonneg; lia).
    nia.
Qed.

(** [strtoul] in base 10 on decimal digits followed by something else. *)
Lemma strtoul_decimal (digits : list Z) (rest : string) :
  Forall is_decimal digits -> digits <> [] ->
  stops_digits rest ->
  match rest with
  | String x _ => LibcUnsigned.is_x x = false
  | EmptyString => True
  end ->
  LibcUnsigned.strtoul (decimal digits rest) 10
  = ((if LibcUnsigned.ULONG_MAX <? decimal_value digits
      then LibcUnsigned.ULONG_MAX else decimal_value digits),
     rest).
Proof.
  intros Hd Hne Hstop Hx.
  destruct digits as [|d more]; [congruence|].
  inversion Hd as [|? ? Hdig Hmore]; subst.
  destruct (decimal_digit_facts d Hdig) as (_ & _ & Hs & Hm & Hp).
  cbn [decimal]. rewrite strtoul_plain; try assumption.
  - cbv zeta.
    change (String (hex_digit d) (decimal more rest))
      with (decimal (d :: more) rest).
    rewrite scan_decimal by assumption.
    rewrite decimal_length.
    replace (String.length rest =? List.length (d :: more) + String.length rest)%nat
      with false by (symmetry; apply Nat.eqb_neq; simpl; lia).
    reflexivity.
  - destruct more as [|d' more'].
    + simpl. exact Hx.
    + simpl. inversion Hmore; subst.
      apply (decimal_digit_facts d'). assumption.
Qed.

Lemma decimal_value_small (digits : list Z) :
  Forall is_decimal digits ->
  0 <= decimal_value digits < 10 ^ Z.of_nat (List.length digits).
Proof.
  intros Hd. pose proof (decimal_value_bounds digits Hd 0 ltac:(lia)) as H.
  unfold decimal_value. lia.
Qed.

Lemma strtoul_fraction (frac : list Z) :
  Forall is_decimal frac -> (List.length frac <= 3)%nat ->
  LibcUnsigned.strtoul (decimal frac EmptyString) 10
  = (decimal_value frac, EmptyString).
Proof.
  intros Hd Hlen. destruct frac as [|f more]; [reflexivity|].
  rewrite strtoul_decimal; try exact I; try assumption; [|discriminate].
  pose proof (decimal_value_small _ Hd) as Hv.
  assert (Hp : 10 ^ Z.of_nat (List.length (f :: more)) <= 1000).
  { change 1000 with (10 ^ 3). apply Z.pow_le_mono_r; lia. }
  replace (LibcUnsigned.ULONG_MAX <? decimal_value (f :: more)) with false
    by (symmetry; apply Z.ltb_ge; unfold LibcUnsigned.ULONG_MAX; lia).
  reflexivity.
Qed.

Lemma strtoul_saturates (v : Z) :
  (if LibcUnsigned.ULONG_MAX <? v then LibcUnsigned.ULONG_MAX else v)
  = Z.min v LibcUnsigned.ULONG_MAX.
Proof. destruct (LibcUnsigned.ULONG_MAX <? v) eqn:E; lia. Qed.

(** A multiple of 1000 is even and [ULONG_MAX] is odd. *)
Lemma thousands_not_ulong_max (m : Z) :
  (CInt.to_ulong (1000 * m) =? LibcUnsigned.ULONG_MAX) = false.
Proof.
  apply Z.eqb_neq. unfold CInt.to_ulong, CInt.ULONG_MODULUS,
    LibcUnsigned.ULONG_MAX.
  pose proof (Z.div_mod (1000 * m) (2 ^ 64) ltac:(lia)) as H.
  set (q := 1000 * m / 2 ^ 64) in *. set (r := (1000 * m) mod 2 ^ 64) in *.
  change (2 ^ 64) with 18446744073709551616 in *. lia.
Qed.

(** The scaling of a fraction of at most three digits. *)
Lemma scale_delay_fraction (frac : list Z) :
  Forall is_decimal frac -> (List.length frac <= 3)%nat ->
  let delay := decimal_value frac * 10 ^ Z.of_nat (3 - List.length frac) in
  0 <= delay < 1000
  /\ scale_delay (to_long (decimal_value frac)) (List.length frac)
     = Some delay.
Proof.
  intros Hf Hlen delay. subst delay.
  pose proof (decimal_value_small _ Hf) as Hfv.
  set (F := decimal_value frac) in *.
  assert (Hscaled : 0 <= F * 10 ^ Z.of_nat (3 - List.length frac) < 1000).
  { assert (Hcases : (List.length frac = 0 \/ List.length frac = 1
                      \/ List.length frac = 2 \/ List.length frac = 3)%nat)
      by lia.
    destruct Hcases as [E | [E | [E | E]]]; rewrite E in *;
      cbn in Hfv |- *; lia. }
  split; [exact Hscaled|].
  assert (HF : 0 <= F < 1000).
  { assert (Hp : 10 ^ Z.of_nat (List.length frac) <= 1000).
    { change 1000 with (10 ^ 3). apply Z.pow_le_mono_r; lia. }
    lia. }
  unfold scale_delay, to_long.
  replace (3 <? List.length frac)%nat with false
    by (symmetry; apply Nat.ltb_ge; exact Hlen).
  replace (F <? 2 ^ 63) with true by (symmetry; apply Z.ltb_lt; lia).
  replace (CInt.in_longb (F * 10 ^ Z.of_nat (3 - List.length frac)))
    with true
    by (symmetry; apply CIntFacts.in_longb_spec;
        unfold CInt.in_long, CInt.LONG_MIN, CInt.LONG_MAX; lia).
  reflexivity.
Qed.

(** X15: [parse_slideshow_duration] on seconds written in decimal digits.
    The seconds are what [strtoul] answers, the value of the digits or
    [ULONG_MAX] when the value is larger, and the multiplication by 1000
    is one of [unsigned long], modulo [2 ^ 64].  Whole seconds are always
    accepted, with that product as the duration: the test against
    [ULONG_MAX] cannot refuse them.  A fraction of at most three digits is
    read as tenths, hundredths or thousandths and added modulo [2 ^ 64];
    the sum is refused only if it is [ULONG_MAX].  A fraction of more
    than three digits starts the scaling loop from a negative count: the
    function has no defined result.  While [1000 * seconds + 999] stays
    below [ULONG_MAX] nothing wraps: the duration is a thousand times the
    seconds plus the fraction in milliseconds. *)
Theorem parse_slideshow_duration_decimal :
  forall (whole frac : list Z) (s : imv),
    Forall is_decimal whole -> whole <> [] ->
    Forall is_decimal frac ->
    let seconds := Z.min (decimal_value whole) LibcUnsigned.ULONG_MAX in
    let total := CInt.to_ulong (1000 * seconds) in
    let delay := decimal_value frac * 10 ^ Z.of_nat (3 - List.length frac) in
    parse_slideshow_duration (decimal whole EmptyString) s
    = Some (true, set_slideshow_image_duration total s)
    /\ ((List.length frac <= 3)%nat ->
        parse_slideshow_duration
          (decimal whole (String "." (decimal frac EmptyString))) s
        = Some (if CInt.to_ulong (total + delay) =? LibcUnsigned.ULONG_MAX
                then (false,
                      emit (imv_log "Wrong slideshow duration. Aborting.")
                        (set_slideshow_image_duration
                           LibcUnsigned.ULONG_MAX s))
                else (true,
                      set_slideshow_image_duration
                        (CInt.to_ulong (total + delay)) s)))
    /\ ((3 < List.length frac)%nat ->
        parse_slideshow_duration
          (decimal whole (String "." (decimal frac EmptyString))) s
        = None)
    /\ (1000 * decimal_value whole + 999 < LibcUnsigned.ULONG_MAX ->
        parse_slideshow_duration (decimal whole EmptyString) s
        = Some (true,
                set_slideshow_image_duration (1000 * decimal_value whole) s)
        /\ ((List.length frac <= 3)%nat ->
            parse_slideshow_duration
              (decimal whole (String "." (decimal frac EmptyString))) s
            = Some (true,
                    set_slideshow_image_duration
                      (1000 * decimal_value whole + delay) s))).
Proof.
  intros whole frac s Hw Hne Hf seconds total delay.
  assert (Hwhole : forall rest,
             stops_digits rest ->
             match rest with
             | String x _ => LibcUnsigned.is_x x = false
             | EmptyString => True
             end ->
             LibcUnsigned.strtoul (decimal whole rest) 10 = (seconds, rest)).
  { intros rest H1 H2. rewrite strtoul_decimal by assumption.
    now rewrite strtoul_saturates. }
  assert (Ha : parse_slideshow_duration (decimal whole EmptyString) s
               = Some (true, set_slideshow_image_duration total s)).
  { unfold parse_slideshow_duration, duration_answer.
    rewrite (Hwhole EmptyString I I).
    replace (seconds * 1000) with (1000 * seconds) by lia.
    fold total. unfold total. rewrite thousands_not_ulong_max.
    reflexivity. }
  assert (Hb : (List.length frac <= 3)%nat ->
               parse_slideshow_duration
                 (decimal whole (String "." (decimal frac EmptyString))) s
               = Some (duration_answer (CInt.to_ulong (total + delay)) s)).
  { intros Hlen. unfold parse_slideshow_duration.
    rewrite (Hwhole (String "." (decimal frac EmptyString)))
      by reflexivity.
    rewrite (strtoul_fraction frac Hf Hlen).
    rewrite decimal_length. cbn [String.length].
    rewrite Nat.add_0_r, Nat.sub_0_r.
    destruct (scale_delay_fraction frac Hf Hlen) as [Hrange Hscale].
    rewrite Hscale. fold delay in Hrange |- *.
    replace (delay <? 1000) with true by (symmetry; apply Z.ltb_lt; lia).
    replace (seconds * 1000) with (1000 * seconds) by lia.
    reflexivity. }
  split; [exact Ha|]. split.
  { intros Hlen. rewrite (Hb Hlen). unfold duration_answer.
    destruct (CInt.to_ulong (total + delay) =? LibcUnsigned.ULONG_MAX)
      eqn:E; [|reflexivity].
    apply Z.eqb_eq in E. rewrite E. reflexivity. }
  split.
  - intros Hlen. unfold parse_slideshow_duration.
    rewrite (Hwhole (String "." (decimal frac EmptyString)))
      by reflexivity.
    assert (Hfne : frac <> [])
      by (destruct frac; [simpl in Hlen; lia | discriminate]).
    rewrite strtoul_decimal; try exact I; try assumption.
    rewrite decimal_length. cbn [String.length].
    rewrite Nat.add_0_r, Nat.sub_0_r.
    unfold scale_delay.
    replace (3 <? List.length frac)%nat with true
      by (symmetry; apply Nat.ltb_lt; exact Hlen).
    reflexivity.
  - intros Hbound.
    pose proof (decimal_value_small _ Hw) as Hv.
    assert (Hsec : seconds = decimal_value whole)
      by (unfold seconds; lia).
    assert (Htotal : total = 1000 * decimal_value whole).
    { unfold total. rewrite Hsec. apply CIntFacts.to_ulong_small.
      unfold CInt.in_ulong, CInt.ULONG_MODULUS, LibcUnsigned.ULONG_MAX in *.
      lia. }
    split; [rewrite Ha, Htotal; reflexivity|].
    intros Hlen. rewrite (Hb Hlen), Htotal.
    destruct (scale_delay_fraction frac Hf Hlen) as [Hrange _].
    fold delay in Hrange.
    rewrite CIntFacts.to_ulong_small
      by (unfold CInt.in_ulong, CInt.ULONG_MODULUS,
            LibcUnsigned.ULONG_MAX in *; lia).
    unfold duration_answer.
    replace (1000 * decimal_value whole + delay =? LibcUnsigned.ULONG_MAX)
      with false by (symmetry; apply Z.eqb_neq; lia).
    reflexivity.
Qed.

Lemma parse_slideshow_duration_decimal_witness :
  parse_slideshow_duration "12" imv_create
  = Some (true, set_slideshow_image_duration 12000 imv_create)
  /\ parse_slideshow_duration "12.5" imv_create
     = Some (true, set_slideshow_image_duration 12500 imv_create)
  /\ parse_slideshow_duration "12.0625" imv_create = None
  /\ parse_slideshow_duration "18446744073709552" imv_create
     = Some (true, set_slideshow_image_duration 384 imv_create)
  /\ option_map fst
       (parse_slideshow_duration "18446744073709551.615" imv_create)
     = Some false.
Proof.
  assert (H12 : Forall is_decimal [1; 2])
    by (repeat constructor; unfold is_decimal; lia).
  assert (Hne : [1; 2] <> []) by discriminate.
  destruct (parse_slideshow_duration_decimal [1; 2] [5] imv_create
              H12 Hne ltac:(repeat constructor; unfold is_decimal; lia))
    as (_ & _ & _ & Hexact).
  destruct (Hexact eq_refl) as (Hwhole & Hfrac).
  destruct (parse_slideshow_duration_decimal [1; 2] [0; 6; 2; 5] imv_create
              H12 Hne ltac:(repeat constructor; unfold is_decimal; lia))
    as (_ & _ & Hlong & _).
  destruct (parse_slideshow_duration_decimal
              [1; 8; 4; 4; 6; 7; 4; 4; 0; 7; 3; 7; 0; 9; 5; 5; 2] []
              imv_create
              ltac:(repeat constructor; unfold is_decimal; lia)
              ltac:(discriminate) ltac:(constructor))
    as (Hwrap & _).
  destruct (parse_slideshow_duration_decimal
              [1; 8; 4; 4; 6; 7; 4; 4; 0; 7; 3; 7; 0; 9; 5; 5; 1] [6; 1; 5]
              imv_create
              ltac:(repeat constructor; unfold is_decimal; lia)
              ltac:(discriminate)
              ltac:(repeat constructor; unfold is_decimal; lia))
    as (_ & Hmax & _).
  split; [exact Hwhole|]. split; [|split; [|split]].
  - apply Hfrac. simpl. lia.
  - apply Hlong. simpl. lia.
  - exact Hwrap.
  - change "18446744073709551.615"
      with (decimal [1; 8; 4; 4; 6; 7; 4; 4; 0; 7; 3; 7; 0; 9; 5; 5; 1]
                    (String "." (decimal [6; 1; 5] EmptyString))).
    rewrite (Hmax ltac:(simpl; lia)). reflexivity.
Defined.

(** *** Mode names *)

(** X16: the scaling modes of the command line and of the [scaling_mode]
    command agree.  [parse_scaling_mode] accepts exactly [shrink], [full]
    and [none]; for these the command sets the same mode, the parser
    changing nothing else; a refused name leaves the state as it is, and
    the command changes the state only for an accepted name or [next]. *)
Theorem scaling_mode_names_agree :
  forall (name mode : string) (s : imv),
    (fst (parse_scaling_mode mode s) = true
     <-> In mode ["shrink"; "full"; "none"])
    /\ (fst (parse_scaling_mode mode s) = true ->
        scaling_mode (snd (parse_scaling_mode mode s))
        = scaling_mode (command_set_scaling_mode [name; mode] s)
        /\ snd (parse_scaling_mode mode s)
           = set_scaling_mode
               (scaling_mode (snd (parse_scaling_mode mode s))) s)
    /\ (fst (parse_scaling_mode mode s) = false ->
        snd (parse_scaling_mode mode s) = s
        /\ (mode <> "next" -> command_set_scaling_mode [name; mode] s = s)).
Proof.
  intros name mode s. unfold parse_scaling_mode, command_set_scaling_mode.
  destruct (String.eqb mode "shrink") eqn:E1.
  { apply String.eqb_eq in E1. subst mode.
    split; [split; [intros _; simpl; auto | reflexivity]|].
    split; [intros _; split; reflexivity | discriminate]. }
  destruct (String.eqb mode "full") eqn:E2.
  { apply String.eqb_eq in E2. subst mode.
    split; [split; [intros _; simpl; auto | reflexivity]|].
    split; [intros _; split; reflexivity | discriminate]. }
  destruct (String.eqb mode "none") eqn:E3.
  { apply String.eqb_eq in E3. subst mode.
    split; [split; [intros _; simpl; auto | reflexivity]|].
    split; [intros _; split; reflexivity | discriminate]. }
  apply String.eqb_neq in E1, E2, E3.
  split; [split; [discriminate|]|].
  { intros [H | [H | [H | []]]]; congruence. }
  split; [discriminate|]. intros _. split; [reflexivity|].
  intros Hnext. apply String.eqb_neq in Hnext. rewrite Hnext. reflexivity.
Qed.

Lemma scaling_mode_names_agree_witness :
  scaling_mode (snd (parse_scaling_mode "shrink" imv_create)) = SCALING_DOWN
  /\ command_set_scaling_mode ["scaling_mode"; "Shrink"] imv_create
     = imv_create.
Proof.
  destruct (scaling_mode_names_agree "scaling_mode" "shrink" imv_create)
    as (_ & Hyes & _).
  destruct (scaling_mode_names_agree "scaling_mode" "Shrink" imv_create)
    as (_ & _ & Hno).
  split.
  - rewrite (proj1 (Hyes eq_refl)). reflexivity.
  - apply (Hno eq_refl). discriminate.
Defined.

(** ** The command line *)

Lemma parse_bg_core (bg : string) (a : imv_app) :
  same_input (core a) (core (snd (parse_bg bg a)))
  /\ quit (core (snd (parse_bg bg a))) = quit (core a).
Proof.
  unfold parse_bg, same_input.
  destruct (String.eqb "checks" bg); [repeat split|].
  cbv zeta. destruct (LibcUnsigned.strtoul (skip_hash bg) 16) as [value ep].
  destruct (negb (String.eqb ep EmptyString)
            || negb (Nat.eqb (String.length (skip_hash bg) - String.length ep) 6)
            || (16777215 <? value mod 2 ^ 32)); repeat split.
Qed.

Lemma some_inj {A : Type} (x y : A) : Some x = Some y -> x = y.
Proof. intros H. now inversion H. Qed.

Lemma duration_answer_core (total : Z) (s : imv) :
  same_input s (snd (duration_answer total s))
  /\ quit (snd (duration_answer total s)) = quit s.
Proof.
  unfold duration_answer, same_input.
  destruct (total =? LibcUnsigned.ULONG_MAX); repeat split.
Qed.

Lemma parse_slideshow_duration_core (duration : string) (s s' : imv)
    (ok : bool) :
  parse_slideshow_duration duration s = Some (ok, s') ->
  same_input s s' /\ quit s' = quit s.
Proof.
  intros H.
  assert (Hshape : exists total, (ok, s') = duration_answer total s).
  { unfold parse_slideshow_duration in H.
    destruct (LibcUnsigned.strtoul duration 10) as [seconds decimal].
    destruct decimal as [|c fraction];
      [eexists; symmetry; exact (some_inj _ _ H)|].
    destruct (Ascii.eqb c ".") eqn:Ec.
    - apply Ascii.eqb_eq in Ec. subst c.
      destruct (LibcUnsigned.strtoul fraction 10) as [value ep].
      destruct (scale_delay _ _) as [delay|]; [|discriminate].
      destruct (delay <? 1000);
        eexists; symmetry; exact (some_inj _ _ H).
    - destruct c as [[] [] [] [] [] [] [] []];
        try (eexists; symmetry; exact (some_inj _ _ H)).
      vm_compute in Ec. discriminate Ec. }
  destruct Hshape as (total & Hshape).
  pose proof (duration_answer_core total s) as Hcore.
  rewrite <- Hshape in Hcore. exact Hcore.
Qed.

Lemma parse_option_keeps_input (o : ascii) (optarg : string)
    (a a' : imv_app) (r : option bool) :
  parse_option o optarg a = Some (r, a') ->
  same_input (core a) (core a')
  /\ (r = None -> quit (core a') = quit (core a))
  /\ (r = Some true -> quit (core a') = true).
Proof.
  unfold parse_option, same_input.
  repeat match goal with
         | |- context [if Ascii.eqb o ?c then _ else _] =>
             destruct (Ascii.eqb o c)
         end;
    try (intros H; inversion H; repeat split; (reflexivity || discriminate)).
  - unfold parse_scaling_mode.
    repeat match goal with
           | |- context [if String.eqb ?x ?y then _ else _] =>
               destruct (String.eqb x y)
           end;
      intros H; inversion H; repeat split; (reflexivity || discriminate).
  - unfold parse_upscaling_method.
    repeat match goal with
           | |- context [if String.eqb ?x ?y then _ else _] =>
               destruct (String.eqb x y)
           end;
      intros H; inversion H; repeat split; (reflexivity || discriminate).
  - pose proof (parse_bg_core optarg a) as [(Hn & Hp & Hd) Hq].
    destruct (parse_bg optarg a) as [ok b]. cbn [snd] in *.
    destruct ok; intros H; inversion H; subst;
      repeat split; intros; (assumption || discriminate).
  - destruct (parse_slideshow_duration optarg (core a)) as [[ok s]|] eqn:E;
      [|discriminate].
    apply parse_slideshow_duration_core in E.
    destruct E as [(Hn & Hp & Hd) Hq].
    destruct ok; intros H; inversion H; subst;
      repeat split; intros; (assumption || discriminate).
Qed.

Lemma parse_options_keep_input :
  forall (opts : list (ascii * string)) (a a' : imv_app) (r : option bool),
    parse_options opts a = Some (r, a') ->
    same_input (core a) (core a')
    /\ (r = None -> quit (core a') = quit (core a))
    /\ (r = Some true -> quit (core a') = true).
Proof.
  induction opts as [|[o optarg] rest IH]; intros a a' r H.
  - inversion H. unfold same_input. repeat split. discriminate.
  - cbn [parse_options] in H.
    destruct (parse_option o optarg a) as [[[answer|] a1]|] eqn:E;
      [| |discriminate].
    + inversion H; subst. eapply parse_option_keeps_input; eauto.
    + apply parse_option_keeps_input in E.
      destruct E as ((Hn & Hp & Hd) & Hq & _).
      destruct (IH _ _ _ H) as ((Hn' & Hp' & Hd') & Hq' & Ht').
      unfold same_input. repeat split; try congruence.
      * intros Hr. rewrite (Hq' Hr). apply Hq. reflexivity.
      * exact Ht'.
Qed.

Lemma parse_options_app (before rest : list (ascii * string)) (a : imv_app) :
  parse_options (before ++ rest) a
  = match parse_options before a with
    | Some (None, a1) => parse_options rest a1
    | other => other
    end.
Proof.
  revert a. induction before as [|[o optarg] before IH]; intros a.
  - reflexivity.
  - cbn [app parse_options].
    destruct (parse_option o optarg a) as [[[answer|] a1]|];
      [reflexivity | apply IH | reflexivity].
Qed.

(** X17: [-h] and [-v] end the parsing of the command line.  After
    options that were accepted, [-h] makes [imv_parse_args] answer true
    and [-v] false, both with [quit] set; the options behind them are not
    looked at, no argument is added to the navigator and stdin is not
    claimed for paths. *)
Theorem help_and_version_end_parsing :
  forall (before after : list (ascii * string)) (optarg : string)
         (args : list string) (stdin : list Byte.byte) (a a1 : imv_app),
    parse_options before a = Some (None, a1) ->
    imv_parse_args (before ++ ("h"%char, optarg) :: after) args stdin a
    = Some (true,
            on_core (fun s => set_quit true (emit (call "print_help") s)) a1)
    /\ imv_parse_args (before ++ ("v"%char, optarg) :: after) args stdin a
       = Some (false,
               on_core (fun s => set_quit true (emit (call "printf") s)) a1)
    /\ navigator (core a1) = navigator (core a)
    /\ paths_from_stdin (core a1) = paths_from_stdin (core a).
Proof.
  intros before after optarg args stdin a a1 Hbefore.
  unfold imv_parse_args. rewrite !parse_options_app, Hbefore.
  split; [reflexivity|]. split; [reflexivity|].
  apply parse_options_keep_input in Hbefore.
  destruct Hbefore as ((Hn & Hp & _) & _). split; assumption.
Qed.

Lemma help_and_version_end_parsing_witness :
  exists a',
    imv_parse_args [("x"%char, ""); ("h"%char, ""); ("t"%char, "1.2345")]
                   ["a.png"] [] imv_create_app = Some (true, a')
    /\ quit (core a') = true
    /\ loop_input (core a') = false
    /\ paths (navigator (core a')) = [].
Proof.
  destruct (help_and_version_end_parsing
              [("x"%char, "")] [("t"%char, "1.2345")] "" ["a.png"] []
              imv_create_app (on_core (set_loop_input false) imv_create_app)
              eq_refl) as (Hh & _).
  eexists. split; [exact Hh|]. repeat split.
Defined.

Lemma add_arguments_stdin :
  forall (args : list string) (data_from_stdin : bool)
         (stdin : list Byte.byte) (a a' : imv_app),
    add_arguments args data_from_stdin stdin a = (true, a') ->
    paths_from_stdin (core a) = false ->
    paths_from_stdin (core a') = false
    /\ quit (core a') = quit (core a)
    /\ (count_occ string_dec args "-"
        + (if data_from_stdin then 1 else 0) <= 1)%nat
    /\ (In "-" args -> stdin_image_data (core a') = Some stdin)
    /\ (~ In "-" args ->
        stdin_image_data (core a') = stdin_image_data (core a)).
Proof.
  induction args as [|arg rest IH]; intros dfs stdin a a' H Hp.
  - inversion H; subst.
    split; [exact Hp|]. split; [reflexivity|].
    split; [simpl; destruct dfs; lia|].
    split; [contradiction | reflexivity].
  - cbn [add_arguments] in H.
    destruct (String.eqb "-" arg) eqn:E.
    + apply String.eqb_eq in E. subst arg. rewrite Hp in H.
      destruct dfs; [discriminate|].
      apply IH in H; [|exact Hp].
      destruct H as (Hp' & Hq & Hc & _ & Hout).
      assert (Hrest : ~ In "-" rest).
      { intros Hi. apply (count_occ_In string_dec) in Hi. lia. }
      split; [exact Hp'|]. split; [exact Hq|]. split; [|split].
      * cbn [count_occ]. destruct (string_dec "-" "-"); [lia | congruence].
      * intros _. rewrite (Hout Hrest). reflexivity.
      * intros Hni. exfalso. apply Hni. now left.
    + apply String.eqb_neq in E.
      apply IH in H; [|exact Hp].
      destruct H as (Hp' & Hq & Hc & Hin & Hout).
      split; [exact Hp'|]. split; [exact Hq|]. split; [|split].
      * cbn [count_occ]. destruct (string_dec arg "-"); [congruence | exact Hc].
      * intros [Heq | Hi]; [congruence | exact (Hin Hi)].
      * intros Hni. rewrite Hout; [reflexivity|].
        intros Hi. apply Hni. now right.
Qed.

(** X18: where input comes from, once the command line is accepted.  When
    [imv_parse_args] answers true without asking to quit, starting from a
    state that does not read paths from stdin, paths are read from stdin
    exactly when no argument is left after the options; [-] stands for
    image data on stdin at most once among the arguments, and when it is
    there the data read from stdin is kept, otherwise the stored data is
    untouched. *)
Theorem accepted_command_line_input :
  forall (opts : list (ascii * string)) (args : list string)
         (stdin : list Byte.byte) (a a' : imv_app),
    imv_parse_args opts args stdin a = Some (true, a') ->
    quit (core a') = false ->
    paths_from_stdin (core a) = false ->
    (paths_from_stdin (core a') = true <-> args = [])
    /\ (count_occ string_dec args "-" <= 1)%nat
    /\ (In "-" args -> stdin_image_data (core a') = Some stdin)
    /\ (~ In "-" args ->
        stdin_image_data (core a') = stdin_image_data (core a)).
Proof.
  intros opts args stdin a a' Hrun Hquit Hp.
  unfold imv_parse_args in Hrun.
  destruct (parse_options opts a) as [[[answer|] a1]|] eqn:Hopts;
    [| |discriminate].
  - inversion Hrun; subst.
    apply parse_options_keep_input in Hopts.
    destruct Hopts as (_ & _ & Ht). rewrite (Ht eq_refl) in Hquit.
    discriminate.
  - apply parse_options_keep_input in Hopts.
    destruct Hopts as ((_ & Hp1 & Hd1) & _).
    rewrite Hp in Hp1.
    destruct args as [|arg rest].
    + inversion Hrun; subst. cbn.
      split; [split; reflexivity|]. split; [lia|].
      split; [contradiction | intros _; exact Hd1].
    + change (Some (add_arguments (arg :: rest) false stdin a1)
              = Some (true, a')) in Hrun.
      pose proof (some_inj _ _ Hrun) as Hadd.
      apply add_arguments_stdin in Hadd; [|exact Hp1].
      destruct Hadd as (Hp' & _ & Hc & Hin & Hout).
      split; [split; [rewrite Hp'; discriminate | discriminate]|].
      split; [lia|]. split; [exact Hin|].
      intros Hni. rewrite (Hout Hni). exact Hd1.
Qed.

Lemma accepted_command_line_input_witness :
  exists a',
    imv_parse_args [("r"%char, "")] ["a.png"; "-"] [] imv_create_app
    = Some (true, a')
    /\ paths_from_stdin (core a') = false
    /\ stdin_image_data (core a') = Some [].
Proof.
  assert (Hrun : exists a',
             imv_parse_args [("r"%char, "")] ["a.png"; "-"] [] imv_create_app
             = Some (true, a'))
    by (eexists; vm_compute; reflexivity).
  destruct Hrun as (a' & Hrun).
  destruct (accepted_command_line_input _ _ _ _ _ Hrun) as (Hiff & _ & Hin & _).
  - vm_compute in Hrun. inversion Hrun. reflexivity.
  - reflexivity.
  - exists a'. split; [exact Hrun|]. split.
    + destruct (paths_from_stdin (core a')); [|reflexivity].
      discriminate (proj1 Hiff eq_refl).
    + apply Hin. simpl. auto.
Defined.
